(** * SeaTable node for n8n: the pure core of [GenericFunctions.ts],
      [SeaTable.node.ts] and [SeaTableTrigger.node.ts]

    The TypeScript sources are embedded shallowly: a JavaScript string is the
    list of its UTF-16 code units, a plain object is an association list that
    follows the property order of the language, the two regular expressions
    of [columnNamesToArray] are run by a backtracking matcher written after
    the matcher/continuation semantics of ECMA-262, and the network is a
    function from the request number and its query to a reply.

    An object is kept as its own properties.  The objects of the code are
    those of parsed JSON and of object literals, whose prototype is
    [Object.prototype]; of the prototype chain the model keeps what the
    code reaches: the accessor [__proto__], which an assignment under that
    name runs, and the names under which [Object.prototype] holds a value.

    What the model leaves out: the prototype that such an assignment gives
    to an object, beyond whether [Object.prototype] is still on its chain;
    the rows of a collection are distinct objects,
    numbers are rationals (no NaN, no infinities), and the functions of
    the host that the code calls on strings ([String.prototype.normalize],
    the coercing comparisons of the language) are variables of the sections
    that use them.  Loops that the source does not bound take fuel, and a
    result that needs more fuel than given is [Diverge]. *)

From Stdlib Require Import List NArith ZArith QArith Bool Lia Arith.
From Stdlib Require Import Permutation Sorted.
From Stdlib Require String Ascii.
Import String.StringSyntax.
Import ListNotations.

Close Scope Q_scope.

(* ================================================================== *)
(** ** Strings of the host language *)
(* ================================================================== *)

(** A JavaScript string: the sequence of its 16-bit code units. *)
Definition jsstring := list N.

(** Literals: the code units of a string of 8-bit characters. *)
Definition js (s : String.string) : jsstring :=
  List.map Ascii.N_of_ascii (String.list_ascii_of_string s).

Arguments js s%_string_scope.

Definition jsstring_eqb (a b : jsstring) : bool :=
  if list_eq_dec N.eq_dec a b then true else false.

(** [\s] of ECMA-262: WhiteSpace and LineTerminator code units. *)
Definition isWhiteSpace (c : N) : bool :=
  ((9 <=? c) && (c <=? 13) || (c =? 32) || (c =? 160) || (c =? 5760)
   || (8192 <=? c) && (c <=? 8202) || (c =? 8232) || (c =? 8233)
   || (c =? 8239) || (c =? 8287) || (c =? 12288) || (c =? 65279))%N.

Definition backslash : N := 92.
Definition quote : N := 34.
Definition comma : N := 44.

(* ================================================================== *)
(** ** Outcomes of host computations *)
(* ================================================================== *)

Inductive error : Type :=
| TypeError
| NodeOperationError (message : jsstring)
| NodeApiError.

(** A call returns, throws, or exhausts the fuel of the model. *)
Inductive result (A : Type) : Type :=
| Ok (a : A)
| Throw (e : error)
| Diverge.

Arguments Ok {A} a.
Arguments Throw {A} e.
Arguments Diverge {A}.

Definition bind {A B : Type} (m : result A) (f : A -> result B) : result B :=
  match m with
  | Ok a => f a
  | Throw e => Throw e
  | Diverge => Diverge
  end.

Notation "x <- m ;; k" := (bind m (fun x => k))
  (at level 61, m at next level, right associativity).

(* ================================================================== *)
(** ** Regular expressions (ECMA-262, 22.2.2: matchers and continuations) *)
(* ================================================================== *)

Module RegExp.

Inductive charset : Type :=
| CsWhite                      (* \s *)
| CsAny                        (* [\s\S] *)
| CsNoneOf (cs : list N)       (* [^...] *)
| CsUnit (c : N).              (* a literal code unit *)

Definition inClass (k : charset) (c : N) : bool :=
  match k with
  | CsWhite => isWhiteSpace c
  | CsAny => isWhiteSpace c || negb (isWhiteSpace c)
  | CsNoneOf cs => negb (existsb (N.eqb c) cs)
  | CsUnit d => N.eqb c d
  end.

(** The fragment of the pattern language that the two patterns of
    [columnNamesToArray] use; one capture group. *)
Inductive regex : Type :=
| RClass (k : charset)
| RSeq (a b : regex)
| RAlt (a b : regex)
| RStar (greedy : bool) (a : regex)
| RGroup (a : regex)
| REnd.                        (* $ without the m flag on the assertion *)

Fixpoint hasGroup (r : regex) : bool :=
  match r with
  | RClass _ | REnd => false
  | RSeq a b | RAlt a b => hasGroup a || hasGroup b
  | RStar _ a => hasGroup a
  | RGroup _ => true
  end.

(** A match state: the input still ahead of [endIndex] and capture 1. *)
Record mstate : Type := MState { ahead : jsstring; capture : option jsstring }.

Inductive outcome : Type :=
| NoFuel
| Failure
| Matched (y : mstate).

Definition continuation := mstate -> outcome.

(** First alternative that does not fail. *)
Notation "a 'orelse' b" :=
  (match a with Failure => b | NoFuel => NoFuel | Matched y => Matched y end)
  (at level 70, right associativity, only parsing).

(** RepeatMatcher with min = 0 and max = infinity.  An iteration that
    leaves [endIndex] where it was fails; [fuel] bounds the iterations. *)
Fixpoint repeatMatcher (m : mstate -> continuation -> outcome)
    (greedy reset : bool) (fuel : nat) (x : mstate) (c : continuation)
    : outcome :=
  match fuel with
  | O => NoFuel
  | S fuel' =>
      let d := fun y : mstate =>
        if Nat.eqb (length (ahead y)) (length (ahead x)) then Failure
        else repeatMatcher m greedy reset fuel' y c in
      let xr := if reset then MState (ahead x) None else x in
      if greedy then m xr d orelse c x
      else c x orelse m xr d
  end.

Fixpoint matcher (r : regex) (x : mstate) (c : continuation) : outcome :=
  match r with
  | RClass k =>
      match ahead x with
      | [] => Failure
      | ch :: t => if inClass k ch then c (MState t (capture x)) else Failure
      end
  | RSeq a b => matcher a x (fun y => matcher b y c)
  | RAlt a b => matcher a x c orelse matcher b x c
  | RStar greedy a =>
      repeatMatcher (matcher a) greedy (hasGroup a)
        (S (length (ahead x))) x c
  | RGroup a =>
      matcher a x (fun y =>
        c (MState (ahead y)
             (Some (firstn (length (ahead x) - length (ahead y)) (ahead x)))))
  | REnd =>
      match ahead x with
      | [] => c x
      | _ :: _ => Failure
      end
  end.

(** One attempt of the pattern at the current position (what the sticky
    exec of split and the scan of replace do at each index). *)
Definition matchHere (r : regex) (s : jsstring) : outcome :=
  matcher r (MState s None) Matched.

(** [String.prototype.split] with a pattern (22.1.3.23 / 22.2.6.14), no
    limit.  [seg] is the text between p and q, [s] the text from q on. *)
Fixpoint splitLoop (r : regex) (fuel : nat) (seg s : jsstring)
    : result (list (option jsstring)) :=
  match fuel with
  | O => Diverge
  | S fuel' =>
      match s with
      | [] => Ok [Some seg]
      | ch :: s' =>
          match matchHere r s with
          | NoFuel => Diverge
          | Failure => splitLoop r fuel' (seg ++ [ch]) s'
          | Matched y =>
              if (Nat.eqb (length seg) 0
                  && Nat.eqb (length (ahead y)) (length s))%bool
              then splitLoop r fuel' (seg ++ [ch]) s'
              else
                tl <- splitLoop r fuel' [] (ahead y) ;;
                Ok (Some seg :: capture y :: tl)
          end
      end
  end.

Definition split (r : regex) (s : jsstring) : result (list (option jsstring)) :=
  match s with
  | [] =>
      match matchHere r [] with
      | NoFuel => Diverge
      | Failure => Ok [Some []]
      | Matched _ => Ok []
      end
  | _ :: _ => splitLoop r (S (2 * length s)) [] s
  end.

(** [String.prototype.replace] with a global pattern and a replacer
    function of the captures. *)
Fixpoint replaceLoop (r : regex) (f : option jsstring -> jsstring)
    (fuel : nat) (s : jsstring) : result jsstring :=
  match fuel with
  | O => Diverge
  | S fuel' =>
      match matchHere r s with
      | NoFuel => Diverge
      | Failure =>
          match s with
          | [] => Ok []
          | ch :: s' => tl <- replaceLoop r f fuel' s' ;; Ok (ch :: tl)
          end
      | Matched y =>
          if Nat.eqb (length (ahead y)) (length s) then
            match s with
            | [] => Ok (f (capture y))
            | ch :: s' =>
                tl <- replaceLoop r f fuel' s' ;;
                Ok (f (capture y) ++ ch :: tl)
            end
          else
            tl <- replaceLoop r f fuel' (ahead y) ;;
            Ok (f (capture y) ++ tl)
      end
  end.

Definition replaceAll (r : regex) (f : option jsstring -> jsstring)
    (s : jsstring) : result jsstring :=
  replaceLoop r f (S (length s)) s.

End RegExp.

Import RegExp.

(* ================================================================== *)
(** ** GenericFunctions.ts: schema and columnNamesToArray *)
(* ================================================================== *)

Module schema.
Definition rowFetchSegmentLimit : N := 1000.
Definition internalNames : list jsstring :=
  [js "_id"; js "_creator"; js "_ctime"; js "_last_modifier"; js "_mtime";
   js "_seq"].
End schema.

(** The separator of [columnNamesToArray], written with blanks between
    its parts:  \s*  ( (?: [^\\,]*?  (?: \\ [\s\S] )* )*? )  \s*  (?: , | $ ) *)
Definition whitePattern : regex := RStar true (RClass CsWhite).

Definition bodyPattern : regex :=
  RSeq (RStar false (RClass (CsNoneOf [backslash; comma])))
       (RStar true (RSeq (RClass (CsUnit backslash)) (RClass CsAny))).

Definition groupPattern : regex := RGroup (RStar false bodyPattern).

Definition tailPattern : regex :=
  RSeq whitePattern (RAlt (RClass (CsUnit comma)) REnd).

Definition splitPattern : regex :=
  RSeq whitePattern (RSeq groupPattern tailPattern).

(** The escape sequence of [columnNamesToArray]:  \\ ( [\s\S] )  with flags gm. *)
Definition escapePattern : regex :=
  RSeq (RClass (CsUnit backslash)) (RGroup (RClass CsAny)).

(** [Array.prototype.indexOf] on strings: the first index, or -1. *)
Fixpoint indexOf (l : list jsstring) (x : jsstring) : Z :=
  match l with
  | [] => (-1)%Z
  | y :: t =>
      if jsstring_eqb y x then 0%Z
      else let i := indexOf t x in if (i <? 0)%Z then (-1)%Z else (1 + i)%Z
  end.

(** [Array.prototype.filter] with the (element, index, array) callback. *)
Fixpoint filterFrom {A : Type} (f : A -> Z -> bool) (i : Z) (l : list A)
    : list A :=
  match l with
  | [] => []
  | x :: t =>
      if f x i then x :: filterFrom f (i + 1)%Z t else filterFrom f (i + 1)%Z t
  end.

Definition filterIndexed {A : Type} (f : A -> Z -> list A -> bool)
    (l : list A) : list A :=
  filterFrom (fun x i => f x i l) 0%Z l.

(** [.filter(s => s.length)]: reading [length] of undefined throws. *)
Fixpoint filterLength (l : list (option jsstring)) : result (list jsstring) :=
  match l with
  | [] => Ok []
  | None :: _ => Throw TypeError
  | Some s :: t =>
      tl <- filterLength t ;;
      Ok (if Nat.eqb (length s) 0 then tl else s :: tl)
  end.

Fixpoint mapM {A B : Type} (f : A -> result B) (l : list A)
    : result (list B) :=
  match l with
  | [] => Ok []
  | x :: t => y <- f x ;; tl <- mapM f t ;; Ok (y :: tl)
  end.

(** The replacer [(_, $1) => $1]; an unset capture would print as the
    word undefined. *)
Definition firstCapture (c : option jsstring) : jsstring :=
  match c with
  | Some s => s
  | None => js "undefined"
  end.

Section ColumnNames.

(** [String.prototype.normalize] (Unicode NFC) belongs to the host. *)
Variable stringNormalize : jsstring -> jsstring.

Definition normalize (subject : jsstring) : jsstring :=
  match subject with
  | [] => subject
  | _ :: _ => stringNormalize subject
  end.

Definition columnNamesToArray (columnNames : jsstring)
    : result (list jsstring) :=
  match columnNames with
  | [] => Ok []
  | _ :: _ =>
      parts <- split splitPattern (normalize columnNames) ;;
      nonEmpty <- filterLength parts ;;
      unescaped <- mapM (replaceAll escapePattern firstCapture) nonEmpty ;;
      let named :=
        List.filter
          (fun s => Z.eqb (1 + indexOf ([] :: schema.internalNames) s) 0)
          unescaped in
      Ok (filterIndexed (fun s index ss => Z.eqb (indexOf ss s) index)
            named)
  end.

End ColumnNames.

(* ================================================================== *)
(** ** Column-name parsing as the specification words it *)
(* ================================================================== *)

Module Spec.

Definition consHead (c : N) (l : list jsstring) : list jsstring :=
  match l with
  | [] => [[c]]
  | f :: fs => (c :: f) :: fs
  end.

(** Split on the commas that no backslash escapes; a backslash takes the
    code unit after it along. *)
Fixpoint splitOnCommas (s : jsstring) : list jsstring :=
  match s with
  | [] => [[]]
  | c :: t =>
      if N.eqb c comma then [] :: splitOnCommas t
      else if N.eqb c backslash then
        match t with
        | [] => [[c]]
        | d :: t' => consHead c (consHead d (splitOnCommas t'))
        end
      else consHead c (splitOnCommas t)
  end.

Fixpoint skipWhite (s : jsstring) : jsstring :=
  match s with
  | [] => []
  | c :: t => if isWhiteSpace c then skipWhite t else s
  end.

(** Cut the white space at the end of a token; an escaped code unit is
    never cut. *)
Fixpoint trimEnd (s : jsstring) : jsstring :=
  match s with
  | [] => []
  | c :: t =>
      if forallb isWhiteSpace s then []
      else if N.eqb c backslash then
        match t with
        | [] => [c]
        | d :: t' => c :: d :: trimEnd t'
        end
      else c :: trimEnd t
  end.

Definition trim (s : jsstring) : jsstring := trimEnd (skipWhite s).

(** Replace each escape sequence by the code unit it escapes. *)
Fixpoint unescape (s : jsstring) : jsstring :=
  match s with
  | [] => []
  | c :: t =>
      if N.eqb c backslash then
        match t with
        | [] => [c]
        | d :: t' => d :: unescape t'
        end
      else c :: unescape t
  end.

Definition isReserved (s : jsstring) : bool :=
  existsb (jsstring_eqb s) schema.internalNames.

Definition wanted (s : jsstring) : bool :=
  negb (Nat.eqb (length s) 0) && negb (isReserved s).

(** Keep the first occurrence of every token. *)
Fixpoint dedupe (seen l : list jsstring) : list jsstring :=
  match l with
  | [] => []
  | x :: t =>
      if existsb (jsstring_eqb x) seen then dedupe seen t
      else x :: dedupe (x :: seen) t
  end.

Definition parseColumnNames (s : jsstring) : list jsstring :=
  dedupe [] (List.filter wanted (List.map unescape
                                   (List.map trim (splitOnCommas s)))).

(** Every backslash that the backslash before it does not escape has a
    code unit after it. *)
Fixpoint wellEscaped (s : jsstring) : bool :=
  match s with
  | [] => true
  | c :: t =>
      if N.eqb c backslash then
        match t with
        | [] => false
        | _ :: t' => wellEscaped t'
        end
      else wellEscaped t
  end.

End Spec.

(* ================================================================== *)
(** ** The loops of the separator pattern, read off the matcher *)
(* ================================================================== *)

Module Scan.

(** \s* followed by [c]: longest run first. *)
Fixpoint whiteGreedy (s : jsstring) (cap : option jsstring)
    (c : continuation) : outcome :=
  match s with
  | [] => c (MState [] cap)
  | ch :: t =>
      if isWhiteSpace ch then whiteGreedy t cap c orelse c (MState s cap)
      else c (MState s cap)
  end.

Definition isPlain (ch : N) : bool :=
  inClass (CsNoneOf [backslash; comma]) ch.

(** [^\\,]*? followed by [c]: shortest run first. *)
Fixpoint plainLazy (s : jsstring) (cap : option jsstring)
    (c : continuation) : outcome :=
  c (MState s cap) orelse
  match s with
  | [] => Failure
  | ch :: t => if isPlain ch then plainLazy t cap c else Failure
  end.

(** (?: \\ [\s\S] )* followed by [c]: longest run first. *)
Fixpoint escGreedy (s : jsstring) (cap : option jsstring)
    (c : continuation) : outcome :=
  match s with
  | ch :: t =>
      if N.eqb ch backslash then
        match t with
        | [] => c (MState s cap)
        | _ :: t' => escGreedy t' cap c orelse c (MState s cap)
        end
      else c (MState s cap)
  | [] => c (MState s cap)
  end.

(** The greedy run of escapes with [d] after it, as a continuation. *)
Definition escThen (d : continuation) : continuation :=
  fun y => escGreedy (ahead y) (capture y) d.

(** The lazy outer loop of the group, when [c] fails in front of a
    backslash: try to leave at each token boundary, left to right. *)
Fixpoint walk (c : continuation) (s : jsstring) (cap : option jsstring)
    : outcome :=
  c (MState s cap) orelse
  match s with
  | [] => Failure
  | ch :: t =>
      if N.eqb ch backslash then
        match t with
        | [] => Failure
        | _ :: t' => walk c t' cap
        end
      else if N.eqb ch comma then Failure
      else walk c t cap
  end.

(** The continuation of the group: record the capture, then the tail. *)
Definition afterGroup (s0 : jsstring) : continuation :=
  fun y =>
    matcher tailPattern
      (MState (ahead y)
         (Some (firstn (length s0 - length (ahead y)) s0)))
      Matched.

(** Where the separator may end: white space, then a comma or the end of
    the input; the result is the text after the comma. *)
Definition exitAt (s : jsstring) : option jsstring :=
  match Spec.skipWhite s with
  | [] => Some []
  | c :: r => if N.eqb c comma then Some r else None
  end.

(** One field from a position that white space does not begin: the
    captured token and the text after the separator. *)
Fixpoint scan (s : jsstring) : option (jsstring * jsstring) :=
  match exitAt s with
  | Some r => Some ([], r)
  | None =>
      match s with
      | [] => None
      | ch :: t =>
          if N.eqb ch backslash then
            match t with
            | [] => None
            | d :: t' =>
                match scan t' with
                | Some (tok, r) => Some (ch :: d :: tok, r)
                | None => None
                end
            end
          else if N.eqb ch comma then None
          else
            match scan t with
            | Some (tok, r) => Some (ch :: tok, r)
            | None => None
            end
      end
  end.

(** A raw field and what follows its comma, if it has one. *)
Fixpoint field (s : jsstring) : jsstring * option jsstring :=
  match s with
  | [] => ([], None)
  | c :: t =>
      if N.eqb c comma then ([], Some t)
      else if N.eqb c backslash then
        match t with
        | [] => ([c], None)
        | d :: t' => let (f, r) := field t' in (c :: d :: f, r)
        end
      else let (f, r) := field t in (c :: f, r)
  end.

Definition restOf (p : jsstring * option jsstring) : jsstring :=
  match snd p with
  | Some r => r
  | None => []
  end.

Definition occurs (x : jsstring) (l : list jsstring) : bool :=
  existsb (fun y => jsstring_eqb y x) l.

Definition nonEmpty (s : jsstring) : bool := negb (Nat.eqb (length s) 0).

End Scan.

(** [String.prototype.normalize] on a string that is in NFC already, as
    every string of ASCII code units is. *)
Definition idNormalize (s : jsstring) : jsstring := s.

(* ================================================================== *)
(** ** Values and plain objects *)
(* ================================================================== *)

(** A number cell.  The functions below copy, test and compare numbers and
    add only to loop counters, so the rationals stand for the finite
    doubles; NaN and the infinities do not occur in parsed JSON. *)
Definition number := Q.

#[warnings="-register-all"]
Inductive value : Type :=
| VUndefined
| VNull
| VBool (b : bool)
| VNumber (q : number)
| VString (s : jsstring)
| VArray (xs : list value)
| VObject (fields : list (jsstring * value))
| VFunction.

(** A plain data object, as [JSON.parse] or an object literal makes it:
    its own properties in the order in which the language enumerates them.
    Its prototype is [Object.prototype]. *)
Definition object := list (jsstring * value).

(** The name of the accessor of [Object.prototype] through which an
    assignment reaches the prototype of an object. *)
Definition protoName : jsstring := js "__proto__".

(** The names under which [Object.prototype] holds a value: its methods,
    [constructor] and the accessor [__proto__].  Each of these values is a
    function or an object. *)
Definition inheritedNames : list jsstring :=
  [js "constructor"; js "__defineGetter__"; js "__defineSetter__";
   js "hasOwnProperty"; js "__lookupGetter__"; js "__lookupSetter__";
   js "isPrototypeOf"; js "propertyIsEnumerable"; js "toString";
   js "valueOf"; js "__proto__"; js "toLocaleString"].

Definition numberOfNat (n : nat) : number := inject_Z (Z.of_nat n).

Definition isZero (q : number) : bool := Z.eqb (Qnum q) 0.

(** ToBoolean. *)
Definition truthy (v : value) : bool :=
  match v with
  | VUndefined | VNull => false
  | VBool b => b
  | VNumber q => negb (isZero q)
  | VString s => negb (Nat.eqb (length s) 0)
  | VArray _ | VObject _ | VFunction => true
  end.

Definition isUndefined (v : value) : bool :=
  match v with
  | VUndefined => true
  | _ => false
  end.

Module Obj.

Definition digit (c : N) : option N :=
  if ((48 <=? c) && (c <=? 57))%N then Some (c - 48)%N else None.

Fixpoint decimal (acc : N) (s : jsstring) : option N :=
  match s with
  | [] => Some acc
  | c :: t =>
      match digit c with
      | Some d => decimal (10 * acc + d)%N t
      | None => None
      end
  end.

(** An array index: the canonical decimal form of an integer below
    2^32 - 1.  Such keys are enumerated first, in ascending order. *)
Definition arrayIndex (k : jsstring) : option N :=
  match k with
  | [] => None
  | c :: t =>
      if (N.eqb c 48 && negb (Nat.eqb (length t) 0))%bool then None
      else
        match decimal 0 k with
        | Some n => if (n <? 4294967295)%N then Some n else None
        | None => None
        end
  end.

Definition keys (o : object) : list jsstring := List.map fst o.

Definition has (o : object) (k : jsstring) : bool :=
  existsb (fun p => jsstring_eqb (fst p) k) o.

(** [o[k]], own properties only.  Under the names of [inheritedNames] an
    object without the property finds what [Object.prototype] holds; the
    code reads a property either under a fixed name that is none of them,
    or to format the value, which makes null of a function, of an object
    and of undefined alike, or under a key that it took from the object
    itself; [schema.columnTypes[column.type]] is the one other read. *)
Fixpoint get (o : object) (k : jsstring) : value :=
  match o with
  | [] => VUndefined
  | (k', v) :: t => if jsstring_eqb k' k then v else get t k
  end.

Fixpoint update (o : object) (k : jsstring) (v : value) : object :=
  match o with
  | [] => []
  | (k', v') :: t =>
      if jsstring_eqb k' k then (k', v) :: t else (k', v') :: update t k v
  end.

Fixpoint insertIndex (n : N) (k : jsstring) (v : value) (o : object)
    : object :=
  match o with
  | [] => [(k, v)]
  | (k', v') :: t =>
      match arrayIndex k' with
      | Some m =>
          if (n <? m)%N then (k, v) :: o else (k', v') :: insertIndex n k v t
      | None => (k, v) :: o
      end
  end.

(** The own property [k] of [o] becomes [v]: an existing property keeps
    its place, a new array index goes to its place among the indices, any
    other new key goes last.  This is what an object literal, a spread and
    [o[k] = v] under a name that reaches no setter do. *)
Definition set (o : object) (k : jsstring) (v : value) : object :=
  if has o k then update o k v
  else
    match arrayIndex k with
    | Some n => insertIndex n k v o
    | None => o ++ [(k, v)]
    end.

(** An object that the code fills by assignment: its own properties, and
    whether a lookup of [__proto__] along its prototype chain finds the
    accessor of [Object.prototype]. *)
Record target : Type := Target { own : object; accessor : bool }.

(** [{}], or an object literal with the properties [o]. *)
Definition literal (o : object) : target := Target o true.

(** [o[k] = v].  Under an own property, and under every name but
    [__proto__], the value is stored as [set] does: what the objects of the
    chain hold under other names are writable data properties.  Under
    [__proto__], while the lookup finds the accessor and the object has no
    own property of that name, the assignment runs the setter and makes no
    property.  The setter ignores a value that is no object and not null;
    with null it leaves the object without prototype, so that the next
    lookup finds nothing; an object or an array becomes the prototype,
    where the next lookup finds the accessor behind it unless the new
    prototype has a property [__proto__] of its own (parsed JSON gives
    such properties).  A function-shaped value, which parsed JSON never
    holds, is taken as an array is. *)
Definition put (o : target) (k : jsstring) (v : value) : target :=
  if (jsstring_eqb k protoName && accessor o && negb (has (own o) k))%bool
  then
    match v with
    | VNull => Target (own o) false
    | VObject fields => Target (own o) (negb (has fields protoName))
    | _ => o
    end
  else Target (set (own o) k v) (accessor o).

(** [delete o[k]]. *)
Fixpoint delete (o : object) (k : jsstring) : object :=
  match o with
  | [] => []
  | (k', v) :: t =>
      if jsstring_eqb k' k then delete t k else (k', v) :: delete t k
  end.

End Obj.

(** The enumeration order of keys, for the statements about it. *)
Module Order.

Definition isIndex (k : jsstring) : bool :=
  match Obj.arrayIndex k with
  | Some _ => true
  | None => false
  end.

Definition indexValue (k : jsstring) : N :=
  match Obj.arrayIndex k with
  | Some n => n
  | None => 0%N
  end.

Definition indexLe (a b : jsstring) : Prop :=
  (indexValue a <= indexValue b)%N.

(** [Obj.insertIndex] on the keys alone. *)
Fixpoint insertKey (n : N) (k : jsstring) (ks : list jsstring)
    : list jsstring :=
  match ks with
  | [] => [k]
  | k' :: t =>
      match Obj.arrayIndex k' with
      | Some m => if (n <? m)%N then k :: ks else k' :: insertKey n k t
      | None => k :: ks
      end
  end.

Definition member (k : jsstring) (l : list jsstring) : bool :=
  existsb (jsstring_eqb k) l.

(** The distinct names of [p] that are array indices, and the others,
    each in the order of first occurrence. *)
Definition indexKeys (p : list jsstring) : list jsstring :=
  List.filter isIndex (Spec.dedupe [] p).

Definition otherKeys (p : list jsstring) : list jsstring :=
  List.filter (fun k => negb (isIndex k)) (Spec.dedupe [] p).

End Order.

(** Comparison of strings: by code units, shorter prefix first. *)
Fixpoint jsstring_compare (a b : jsstring) : comparison :=
  match a, b with
  | [], [] => Eq
  | [], _ :: _ => Lt
  | _ :: _, [] => Gt
  | x :: a', y :: b' =>
      match N.compare x y with
      | Eq => jsstring_compare a' b'
      | Lt => Lt
      | Gt => Gt
      end
  end.

Definition jsstring_ltb (a b : jsstring) : bool :=
  match jsstring_compare a b with
  | Lt => true
  | _ => false
  end.

(* ================================================================== *)
(** ** GenericFunctions.ts: rows *)
(* ================================================================== *)

Record IDtableMetadataColumn : Type := Column {
  key : jsstring;
  name : jsstring;
  type : jsstring
}.

Record IDtableMetadataTable : Type := Table {
  table_id : jsstring;
  table_name : jsstring;
  columns : list IDtableMetadataColumn
}.

Definition IRow : Type := object.

(** [IRows.rows]: the rows are distinct objects, as parsed JSON gives. *)
Definition IRows : Type := list IRow.

Definition seqName : jsstring := js "_seq".

Fixpoint rowsSequenceFrom (i : nat) (rows : IRows) : IRows :=
  match rows with
  | [] => []
  | row :: rest =>
      Obj.set row seqName (VNumber (numberOfNat (S i)))
      :: rowsSequenceFrom (S i) rest
  end.

Definition rowsSequence (rows : IRows) : IRows :=
  match rows with
  | first :: _ =>
      if negb (isUndefined (Obj.get first seqName)) then rows
      else rowsSequenceFrom 0 rows
  | [] => rowsSequenceFrom 0 rows
  end.

Definition rowDeleteInternalColumns (row : IRow) : IRow :=
  fold_left Obj.delete schema.internalNames row.

Definition rowsDeleteInternalColumns (rows : IRows) : IRows :=
  List.map rowDeleteInternalColumns rows.

Definition isString (v : value) : bool :=
  match v with
  | VString _ => true
  | _ => false
  end.

Definition rowFormatColumn (input : value) : value :=
  match input with
  | VNull | VUndefined => VNull
  | VBool _ | VNumber _ | VString _ => input
  | VArray xs => if forallb isString xs then input else VNull
  | VObject _ | VFunction => VNull
  end.

(** The values that the specification lets through: a boolean, a number,
    a string, an array of strings. *)
Definition whitelisted (v : value) : bool :=
  match v with
  | VBool _ | VNumber _ | VString _ => true
  | VArray xs => forallb isString xs
  | _ => false
  end.

(** The body of the [forEach] of [rowFormatColumns].  Under a name that
    the row lacks, [row[c]] is undefined or what [Object.prototype] holds, a
    function or an object; the formatting makes null of each. *)
Definition formatStep (row : IRow) (outRow : Obj.target) (c : jsstring)
    : Obj.target :=
  Obj.put outRow c (rowFormatColumn (Obj.get row c)).

Definition rowFormatColumns (row : IRow) (columnNames : list jsstring) : IRow :=
  Obj.own (fold_left (formatStep row) columnNames (Obj.literal [])).

(** [l] without the first occurrence of [k]. *)
Fixpoint dropFirst (k : jsstring) (l : list jsstring) : list jsstring :=
  match l with
  | [] => []
  | x :: t => if jsstring_eqb x k then t else x :: dropFirst k t
  end.

(** For the statements about the keys of [rowFormatColumns]: the requested
    names whose assignment stores a property.  These are all the names
    other than [__proto__]; of the requests for [__proto__] none when the
    formatted value of the row under that name is not null, and all but the
    first when it is null.  [rowFormatColumns_stored] proves that
    [rowFormatColumns] is the sequence of [storeStep]s under these names. *)
Definition storedNames (row : IRow) (columnNames : list jsstring)
    : list jsstring :=
  match rowFormatColumn (Obj.get row protoName) with
  | VNull => dropFirst protoName columnNames
  | _ => List.filter (fun c => negb (jsstring_eqb c protoName)) columnNames
  end.

(** An assignment of [rowFormatColumns] that stores a property. *)
Definition storeStep (row outRow : IRow) (c : jsstring) : IRow :=
  Obj.set outRow c (rowFormatColumn (Obj.get row c)).

Definition rowsFormatColumns (rows : IRows) (columnNames : list jsstring)
    : IRows :=
  List.map (fun row => rowFormatColumns row columnNames) rows.

(** lodash [isArrayLike] on a plain object: a [length] property that is a
    whole number from 0 to 2^53 - 1. *)
Definition isArrayLike (o : object) : bool :=
  match Obj.get o (js "length") with
  | VNumber q =>
      let r := Qred q in
      (Pos.eqb (Qden r) 1 && (0 <=? Qnum r)%Z
       && (Qnum r <=? 9007199254740991)%Z)%bool
  | _ => false
  end.

(** The first loop of [rowMapColumnsFromKeysToNames], on (outRow, row). *)
Definition moveInternal (st : IRow * IRow) (name : jsstring) : IRow * IRow :=
  let (outRow, row) := st in
  if truthy (Obj.get row name)
  then (Obj.set outRow name (Obj.get row name), Obj.delete row name)
  else st.

(** The fields that the first loop moves out of [r]: those of [names]
    whose value is truthy. *)
Definition moved (names : list jsstring) (r : IRow) (k : jsstring) : bool :=
  Order.member k names && truthy (Obj.get r k).

(** [columns.find(c => c.key === key)]. *)
Definition columnOfKey (columns : list IDtableMetadataColumn) (k : jsstring)
    : option IDtableMetadataColumn :=
  List.find (fun c => jsstring_eqb (key c) k) columns.

Definition translateKey (columns : list IDtableMetadataColumn) (row : IRow)
    (outRow : Obj.target) (k : jsstring) : Obj.target :=
  match columnOfKey columns k with
  | Some column => Obj.put outRow (name column) (Obj.get row k)
  | None => outRow
  end.

(** The state after the loop over the internal names. *)
Definition firstLoop (row : IRow) : IRow * IRow :=
  fold_left moveInternal schema.internalNames ([], row).

(** The result is the pair of [outRow] and the caller's [row] as the
    function leaves it.  The first loop assigns under the internal names
    only, none of which reaches a setter.  lodash [forEach] walks an
    array-like object by its numeric indices, which are never [===] to a
    column key. *)
Definition rowMapColumnsFromKeysToNames (row : IRow)
    (columns : list IDtableMetadataColumn) : IRow * IRow :=
  let (outRow, row') := firstLoop row in
  if isArrayLike row' then (outRow, row')
  else (Obj.own (fold_left (translateKey columns row') (Obj.keys row')
                   (Obj.literal outRow)),
        row').

Section Relational.

(** [x > y] and the ordering of [x] and [y] when they are not two
    strings (or, for the ordering, two numbers): ECMA-262 compares
    after ToPrimitive and ToNumber, which the host provides. *)
Variable looseGreater : value -> jsstring -> bool.
Variable looseCompare : value -> value -> comparison.

Definition greaterThan (f : value) (startDate : jsstring) : bool :=
  match f with
  | VString s => jsstring_ltb startDate s
  | VUndefined => false
  | _ => looseGreater f startDate
  end.

Definition rowsTimeFilter (rows : IRows) (columnName startDate : jsstring)
    : IRows :=
  let rows := rowsSequence rows in
  List.filter (fun row => greaterThan (Obj.get row columnName) startDate)
    rows.

(** lodash [compareAscending]: undefined last, null before it. *)
Definition compareAscending (v other : value) : comparison :=
  match v, other with
  | VString a, VString b => jsstring_compare a b
  | VNumber a, VNumber b => Qcompare a b
  | VUndefined, VUndefined => Eq
  | VUndefined, _ => Gt
  | _, VUndefined => Lt
  | VNull, VNull => Eq
  | VNull, _ => Gt
  | _, VNull => Lt
  | _, _ => looseCompare v other
  end.

(** lodash [compareMultiple] with every order ascending; equal criteria
    fall back on the positions, which the stable insertion keeps. *)
Fixpoint criteriaLe (iteratees : list jsstring) (a b : IRow) : bool :=
  match iteratees with
  | [] => true
  | c :: rest =>
      match compareAscending (Obj.get a c) (Obj.get b c) with
      | Lt => true
      | Gt => false
      | Eq => criteriaLe rest a b
      end
  end.

Fixpoint insertOrdered (iteratees : list jsstring) (a : IRow)
    (sorted : list IRow) : list IRow :=
  match sorted with
  | [] => [a]
  | b :: rest =>
      if criteriaLe iteratees a b then a :: sorted
      else b :: insertOrdered iteratees a rest
  end.

(** lodash [orderBy] with ascending orders: a stable sort. *)
Definition orderBy (rows : list IRow) (iteratees : list jsstring)
    : list IRow :=
  fold_right (insertOrdered iteratees) [] rows.

Definition rowsTimeSort (rows : IRows) (columnName : jsstring) : IRows :=
  let rows := rowsSequence rows in
  orderBy rows [columnName; seqName].

End Relational.

(** The timestamp and the sequence number of a row, and the order that
    the trigger wants: by timestamp, equal timestamps by sequence number,
    a row without a sequence number after those that have one. *)
Definition timeOf (columnName : jsstring) (row : IRow) : jsstring :=
  match Obj.get row columnName with
  | VString s => s
  | _ => []
  end.

Definition seqOf (row : IRow) : number :=
  match Obj.get row seqName with
  | VNumber q => q
  | _ => 0%Q
  end.

Definition seqLe (a b : IRow) : Prop :=
  match Obj.get a seqName, Obj.get b seqName with
  | VNumber p, VNumber q => (p <= q)%Q
  | _, VUndefined => True
  | _, _ => False
  end.

Definition before (columnName : jsstring) (a b : IRow) : Prop :=
  jsstring_compare (timeOf columnName a) (timeOf columnName b) = Lt
  \/ (timeOf columnName a = timeOf columnName b /\ seqLe a b).

(** A value that is missing or of the kind [like] shows. *)
Definition missingOr (like : value -> bool) (v : value) : Prop :=
  v = VUndefined \/ like v = true.

Definition isNumber (v : value) : bool :=
  match v with
  | VNumber _ => true
  | _ => false
  end.

(** A row that holds a string in the timestamp column, and a number or
    nothing as its sequence number. *)
Definition timed (columnName : jsstring) (row : IRow) : Prop :=
  (exists s, Obj.get row columnName = VString s)
  /\ missingOr isNumber (Obj.get row seqName).

(* ================================================================== *)
(** ** GenericFunctions.ts: metadata and paginated requests *)
(* ================================================================== *)

Definition columnTypes : list (jsstring * jsstring) :=
  [(js "text", js "Text"); (js "long-text", js "Long Text");
   (js "number", js "Number"); (js "collaborator", js "Collaborator");
   (js "date", js "Date"); (js "duration", js "Duration");
   (js "single-select", js "Single Select");
   (js "multiple-select", js "Multiple Select"); (js "email", js "Email");
   (js "url", js "URL"); (js "rate", js "Rating");
   (js "checkbox", js "Checkbox"); (js "formula", js "Formula");
   (js "creator", js "Creator"); (js "ctime", js "Created time");
   (js "last-modifier", js "Last Modifier");
   (js "mtime", js "Last modified time");
   (js "auto-number", js "Auto number")].

(** [!!schema.columnTypes[column.type]]: every own entry is a non-empty
    text, and under a type that is no own entry the lookup finds what
    [Object.prototype] holds under that name, if anything. *)
Definition dtableSchemaIsColumn (column : IDtableMetadataColumn) : bool :=
  existsb (fun p => jsstring_eqb (fst p) (type column)) columnTypes
  || Order.member (type column) inheritedNames.

Definition dtableSchemaColumns (cs : list IDtableMetadataColumn)
    : list IDtableMetadataColumn :=
  List.filter dtableSchemaIsColumn cs.

(** [apiDtableColumns] once the metadata is staged. *)
Definition apiDtableColumns (tables : list IDtableMetadataTable)
    (tableName : jsstring) : result (list IDtableMetadataColumn) :=
  match List.find (fun e => jsstring_eqb (table_name e) tableName) tables with
  | Some table => Ok (dtableSchemaColumns (columns table))
  | None =>
      Throw (NodeOperationError
               (js "SeaTable: Not a table: " ++ [quote] ++ tableName
                ++ [quote] ++ js "."))
  end.

(** What one call of [apiRequest] brings back: a failure of the request,
    or a body whose [rows] may be missing. *)
Inductive reply : Type :=
| RequestFailed
| Body (rows : option (list IRow)).

(** The server: the reply to the n-th request, given its query. *)
Definition server := nat -> object -> reply.

Record paged : Type := Paged {
  outcome_of : result (list IRow);   (* the [rows] of the returned object *)
  query_of : object;                 (* the caller's query object afterwards *)
  requests_of : list object          (* the query of every request, in order *)
}.

Definition segment : N := schema.rowFetchSegmentLimit.

Definition startName : jsstring := js "start".
Definition limitName : jsstring := js "limit".

(** The [start] of request number [n]. *)
Definition startOf (n : nat) : number := inject_Z (Z.of_nat n * 1000).

(** Unary plus on the number that [query.start] holds. *)
Definition toNumber (v : value) : number :=
  match v with
  | VNumber q => q
  | _ => 0%Q
  end.

(** The do-while loop of [apiRequestAllItems]; [n] requests went out. *)
Fixpoint apiRequestLoop (srv : server) (fuel n : nat) (query : object)
    (returnData : list IRow) (sent : list object) : paged :=
  match fuel with
  | O => Paged Diverge query sent
  | S fuel' =>
      match srv n query with
      | RequestFailed => Paged (Throw NodeApiError) query (sent ++ [query])
      | Body rows =>
          let returnData' :=
            match rows with
            | Some rs => returnData ++ rs
            | None => returnData
            end in
          let query' :=
            Obj.set query startName
              (VNumber (toNumber (Obj.get query startName)
                        + inject_Z (Z.of_N segment))%Q) in
          let again :=
            match rows with
            | Some rs => (segment - 1 <? N.of_nat (length rs))%N
            | None => false
            end in
          if again
          then apiRequestLoop srv fuel' (S n) query' returnData'
                 (sent ++ [query])
          else Paged (Ok returnData') query' (sent ++ [query])
      end
  end.

(** [if (query === undefined) query = {}]. *)
Definition callerQuery (query : option object) : object :=
  match query with
  | Some q => q
  | None => []
  end.

Definition apiRequestAllItems (srv : server) (fuel : nat)
    (query : option object) : paged :=
  let query := callerQuery query in
  let query := Obj.set query startName (VNumber 0%Q) in
  let query := Obj.set query limitName (VNumber (inject_Z (Z.of_N segment))) in
  apiRequestLoop srv fuel 0 query [] [].

(** A server that answers request number [n] with the rows [pages n]. *)
Definition serverOf (pages : nat -> list IRow) : server :=
  fun n _ => Body (Some (pages n)).

(** What holds of the query of request number [n], given the caller's
    query [q0]: [start] is 1000 n, [limit] is 1000, the rest is the
    caller's. *)
Definition pageQuery (q0 : object) (n : nat) (q : object) : Prop :=
  Obj.get q startName = VNumber (startOf n)
  /\ Obj.get q limitName = VNumber (inject_Z (Z.of_N segment))
  /\ forall k, k <> startName -> k <> limitName ->
               Obj.get q k = Obj.get q0 k.

(* ================================================================== *)
(** ** SeaTable.node.ts and SeaTableTrigger.node.ts *)
(* ================================================================== *)

(** [[defaultColumn, ...columnNames].filter(name => dtableColumns.find(...))];
    taking the first element of an empty [dtableColumns] apart throws. *)
Definition selectColumnNames (dtableColumns : list IDtableMetadataColumn)
    (columnNames : list jsstring) : result (list jsstring) :=
  match dtableColumns with
  | [] => Throw TypeError
  | first :: _ =>
      Ok (List.filter
            (fun n =>
               match List.find (fun column => jsstring_eqb (name column) n)
                       dtableColumns with
               | Some _ => true
               | None => false
               end)
            (name first :: columnNames))
  end.

(** A name that some column of [dtableColumns] bears. *)
Definition knownName (dtableColumns : list IDtableMetadataColumn)
    (n : jsstring) : bool :=
  existsb (fun column => jsstring_eqb (name column) n) dtableColumns.

Inductive TTriggerOperationValue : Type := create | update.

(** What [poll] reads from its host.  [lastTimeCheckedMoment] is the object
    [nowMoment] itself and [subtract] changes a moment in place, so [now]
    and [lastTimeChecked] are one text: the time of the poll, two minutes
    earlier in manual mode. *)
Record pollInput : Type := PollInput {
  manual : bool;                          (* getMode() === 'manual' *)
  tableName : jsstring;
  operation : TTriggerOperationValue;
  columnNamesField : option jsstring;     (* additionalFields.columnNames *)
  now : jsstring;                         (* nowMoment, formatted *)
  stored : option jsstring;               (* webhookData.lastTimeChecked *)
  metadata : result (list IDtableMetadataTable);
  network : server
}.

Record pollOutput : Type := PollOutput {
  returned : result (option (list IRow)); (* null, or the items of 'main' *)
  storedAfter : option jsstring
}.

Section Trigger.

Variable stringNormalize : jsstring -> jsstring.
Variable looseGreater : value -> jsstring -> bool.
Variable looseCompare : value -> value -> comparison.

Definition triggerColumnOf (op : TTriggerOperationValue) : jsstring :=
  match op with
  | create => js "_ctime"
  | update => js "_mtime"
  end.

Definition startDateOf (i : pollInput) : jsstring :=
  match stored i with
  | Some (c :: s) => c :: s
  | _ => now i
  end.

Definition requestedNames (field : option jsstring)
    : result (list jsstring) :=
  match field with
  | Some s => columnNamesToArray stringNormalize s
  | None => Ok []
  end.

Definition poll (fuel : nat) (i : pollInput) : pollOutput :=
  let qs : object := [] in
  let triggerColumn := triggerColumnOf (operation i) in
  match requestedNames (columnNamesField i) with
  | Throw e => PollOutput (Throw e) (stored i)
  | Diverge => PollOutput Diverge (stored i)
  | Ok columnNames =>
  let startDate := startDateOf i in
  let endDate := now i in
  match tables <- metadata i ;; apiDtableColumns tables (tableName i) with
  | Throw e => PollOutput (Throw e) (stored i)
  | Diverge => PollOutput Diverge (stored i)
  | Ok dtableColumns =>
  let qs := Obj.set qs (js "table_name") (VString (tableName i)) in
  match outcome_of (apiRequestAllItems (network i) fuel (Some qs)) with
  | Throw e => PollOutput (Throw e) (stored i)
  | Diverge => PollOutput Diverge (stored i)
  | Ok rows =>
  let after := Some endDate in
  match rows with
  | [] => PollOutput (Ok None) after
  | first :: _ =>
      if (manual i && isUndefined (Obj.get first triggerColumn))%bool
      then PollOutput
             (Throw (NodeOperationError
                       (js "The Field " ++ [quote] ++ triggerColumn
                        ++ [quote] ++ js " does not exist.")))
             after
      else
        let rows := rowsTimeFilter looseGreater rows triggerColumn startDate in
        let rows := rowsTimeSort looseCompare rows triggerColumn in
        match selectColumnNames dtableColumns columnNames with
        | Throw e => PollOutput (Throw e) after
        | Diverge => PollOutput Diverge after
        | Ok names =>
            PollOutput (Ok (Some (rowsFormatColumns rows names))) after
        end
  end
  end
  end
  end.

End Trigger.

(** The [list] operation of [execute] with [returnAll], once the
    metadata is staged. *)
Definition executeList (stringNormalize : jsstring -> jsstring) (fuel : nat)
    (tables : list IDtableMetadataTable) (tableName : jsstring)
    (columnNamesField : option jsstring) (srv : server)
    : result (list IRow) :=
  dtableColumns <- apiDtableColumns tables tableName ;;
  let qs := Obj.set [] (js "table_name") (VString tableName) in
  rows <- outcome_of (apiRequestAllItems srv fuel (Some qs)) ;;
  columnNames <- requestedNames stringNormalize columnNamesField ;;
  names <- selectColumnNames dtableColumns columnNames ;;
  Ok (rowsFormatColumns rows names).

(* ================================================================== *)
(** ** GenericFunctions.ts: context, endpoint expressions, requests *)
(* ================================================================== *)

(** The own properties of [source], in their order, defined on [target]. *)
Definition defineAll (target source : object) : object :=
  fold_left (fun o p => Obj.set o (fst p) (snd p)) source target.

(** [{...first, ...second}]: a spread defines the properties it copies. *)
Definition spread (first second : object) : object :=
  defineAll (defineAll [] first) second.

(** [Object.assign(target, source)]: the own properties of [source], in
    their order, assigned to [target], an object with [Object.prototype]
    on its chain. *)
Definition assign (target source : object) : object :=
  Obj.own
    (fold_left (fun o p => Obj.put o (fst p) (snd p)) source
       (Obj.literal target)).

Definition apiRequestMergeOptionsWithUri (options body option : object)
    : object :=
  let options :=
    if negb (Nat.eqb (length (Obj.keys option)) 0)
    then assign options option
    else options in
  if Nat.eqb (length (Obj.keys body)) 0
  then Obj.delete options (js "body")
  else options.

(** A code unit that is neither the separator nor the escape. *)
Definition plainUnit (c : N) : bool :=
  negb (N.eqb c comma) && negb (N.eqb c backslash).

(** A name that can be written into a columns field as it is: not empty,
    without comma or backslash, without white space at either end, and
    not an internal name. *)
Definition writable (n : jsstring) : bool :=
  negb (Nat.eqb (length n) 0)
  && forallb plainUnit n
  && negb (isWhiteSpace (hd 0%N n))
  && negb (isWhiteSpace (last n 0%N))
  && negb (Spec.isReserved n).

(** [Array.prototype.join] on strings. *)
Fixpoint join (separator : jsstring) (l : list jsstring) : jsstring :=
  match l with
  | [] => []
  | [x] => x
  | x :: t => x ++ separator ++ join separator t
  end.

Module Api.

(** The replies of the server have the types that the source casts them
    to; what the source tests against undefined is an [option]. *)
Record IAppAccessToken : Type := AppAccessToken {
  app_name : jsstring;
  access_token : jsstring;
  dtable_uuid : jsstring;
  dtable_server : jsstring;
  dtable_socket : jsstring;
  workspace_id : number;
  dtable_name : jsstring
}.

Record IApi : Type := Api {
  server : jsstring;
  token : jsstring;
  appAccessToken : option IAppAccessToken
}.

Record IDtableMetadata : Type := Metadata {
  tables : option (list IDtableMetadataTable);
  version : jsstring;
  format_version : jsstring
}.

Record ICtx : Type := Ctx {
  api : option IApi;
  metadata : option IDtableMetadata
}.

(** *** Endpoint expressions *)

Definition slash : N := 47.
Definition space : N := 32.
Definition leftBrace : N := 123.
Definition rightBrace : N := 125.

(** A text in which no placeholder can begin. *)
Definition braceFree (s : jsstring) : bool :=
  forallb (fun c => negb (N.eqb c leftBrace)) s.

(** A placeholder for [name] with [n1] blanks before and [n2] blanks
    after the name. *)
Definition placeholder (n1 : nat) (name : jsstring) (n2 : nat) : jsstring :=
  [leftBrace; leftBrace] ++ repeat space n1 ++ name ++ repeat space n2
  ++ [rightBrace; rightBrace].

Definition variableNames : list jsstring :=
  [js "access_token"; js "dtable_uuid"; js "server"].

(** The pattern of a text without meta characters. *)
Fixpoint literal (c : N) (s : jsstring) : regex :=
  match s with
  | [] => RClass (CsUnit c)
  | d :: t => RSeq (RClass (CsUnit c)) (literal d t)
  end.

Definition word (s : jsstring) : regex :=
  match s with
  | [] => RStar true REnd
  | c :: t => literal c t
  end.

Definition spacesPattern : regex := RStar true (RClass (CsUnit space)).

Definition namePattern : regex :=
  RAlt (word (js "access_token"))
       (RAlt (word (js "dtable_uuid")) (word (js "server"))).

(** The placeholder of [endpointCtxExpr], flag g:
    ( {{  \s32*  ( access_token | dtable_uuid | server )  \s32*  }} ).
    Its first group spans the whole match, so its capture is the matched
    text; the capture that the match state records is the second, the
    name. *)
Definition placeholderPattern : regex :=
  RSeq (word [leftBrace; leftBrace])
    (RSeq spacesPattern
       (RSeq (RGroup namePattern)
          (RSeq spacesPattern (word [rightBrace; rightBrace])))).

(** [String.prototype.replace] with a global pattern and a replacer that
    takes the matched text and the capture. *)
Fixpoint replaceEach (r : regex) (f : jsstring -> option jsstring -> jsstring)
    (fuel : nat) (s : jsstring) : result jsstring :=
  match fuel with
  | O => Diverge
  | S fuel' =>
      match matchHere r s with
      | NoFuel => Diverge
      | Failure =>
          match s with
          | [] => Ok []
          | ch :: s' => tl <- replaceEach r f fuel' s' ;; Ok (ch :: tl)
          end
      | Matched y =>
          let matched := firstn (length s - length (ahead y)) s in
          if Nat.eqb (length (ahead y)) (length s) then
            match s with
            | [] => Ok (f matched (capture y))
            | ch :: s' =>
                tl <- replaceEach r f fuel' s' ;;
                Ok (f matched (capture y) ++ ch :: tl)
            end
          else
            tl <- replaceEach r f fuel' (ahead y) ;;
            Ok (f matched (capture y) ++ tl)
      end
  end.

Definition replaceWith (r : regex) (f : jsstring -> option jsstring -> jsstring)
    (s : jsstring) : result jsstring :=
  replaceEach r f (S (length s)) s.

(** [IEndpointVariables]: a name is bound to a string or to undefined. *)
Definition IEndpointVariables : Type := list (jsstring * option jsstring).

(** [endpointVariables[name]]. *)
Definition variable (endpointVariables : IEndpointVariables)
    (name : option jsstring) : option jsstring :=
  match name with
  | None => None
  | Some n =>
      match List.find (fun p => jsstring_eqb (fst p) n) endpointVariables with
      | Some p => snd p
      | None => None
      end
  end.

(** The replacer [endpointVariables[name] || match]. *)
Definition expand (endpointVariables : IEndpointVariables)
    (matched : jsstring) (name : option jsstring) : jsstring :=
  match variable endpointVariables name with
  | Some (c :: v) => c :: v
  | _ => matched
  end.

Definition endpointVariablesOf (a : IApi) : IEndpointVariables :=
  [(js "access_token", option_map access_token (appAccessToken a));
   (js "dtable_uuid", option_map dtable_uuid (appAccessToken a));
   (js "server", Some (server a))].

(** What a request of the host's helper comes to. *)
Inductive answer (A : Type) : Type :=
| Rejected
| Resolved (a : A).

Arguments Rejected {A}.
Arguments Resolved {A} a.

Section Requests.

Variable stringNormalize : jsstring -> jsstring.

(** [encodeURIComponent] of the identity of a row belongs to the host. *)
Variable encodeURIComponent : value -> jsstring.

Definition ctx (api : IApi) : ICtx :=
  Ctx (Some (Api (normalize stringNormalize (server api)) (token api)
               (appAccessToken api)))
      None.

(** Reading [ctx.api.appAccessToken] of a context without [api] throws. *)
Definition endpointCtxExpr (ctx : ICtx) (endpoint : jsstring)
    : result jsstring :=
  match api ctx with
  | None => Throw TypeError
  | Some a =>
      let endpointVariables := endpointVariablesOf a in
      match endpoint with
      | [] => Ok []
      | _ :: _ =>
          let endpoint := normalize stringNormalize endpoint in
          let endpoint :=
            match endpoint with
            | c :: _ =>
                if N.eqb c slash then server a ++ endpoint else endpoint
            | [] => endpoint
            end in
          replaceWith placeholderPattern (expand endpointVariables) endpoint
      end
  end.

Definition endpointExprFunctor (ctx : ICtx) : jsstring -> result jsstring :=
  fun expr => endpointCtxExpr ctx expr.

(** *** The host and the state of one invocation *)

(** The capabilities that the functions take from [this].  The one
    request helper is used at four types, one for each cast of its result
    in the source; every answer may depend on the number of the request
    and on its options. *)
Record host : Type := Host {
  getCredentials : option IApi;
  accessTokenOf : nat -> object -> answer (option IAppAccessToken);
  metadataOf : nat -> object -> answer (option IDtableMetadata);
  rowOf : nat -> object -> answer object;
  rowsOf : nat -> object -> answer (option (list IRow))
}.

(** The context object of the invocation, which the stages change in
    place, and the options of the requests sent so far. *)
Record world : Type := World {
  context : ICtx;
  sent : list object
}.

Definition action (A : Type) : Type := world -> result A * world.

Definition ret {A : Type} (a : A) : action A := fun w => (Ok a, w).

Definition throw {A : Type} (e : error) : action A := fun w => (Throw e, w).

Definition andThen {A B : Type} (m : action A) (f : A -> action B)
    : action B :=
  fun w =>
    match m w with
    | (Ok a, w') => f a w'
    | (Throw e, w') => (Throw e, w')
    | (Diverge, w') => (Diverge, w')
    end.

Notation "x <~ m ;; k" := (andThen m (fun x => k))
  (at level 61, m at next level, right associativity).

Definition lift {A : Type} (r : result A) : action A := fun w => (r, w).

(** [ctx.api.appAccessToken], undefined also when [ctx.api] is. *)
Definition tokenOf (c : ICtx) : option IAppAccessToken :=
  match api c with
  | Some a => appAccessToken a
  | None => None
  end.

Definition getContext : action ICtx := fun w => (Ok (context w), w).

Definition setContext (c : ICtx) : action unit :=
  fun w => (Ok tt, World c (sent w)).

(** One call of [this.helpers.request] inside its try block: the options
    are recorded, a rejection becomes the API error. *)
Definition request {A : Type} (answerOf : nat -> object -> answer A)
    (options : object) : action A :=
  fun w =>
    let w' := World (context w) (sent w ++ [options]) in
    match answerOf (length (sent w)) options with
    | Rejected => (Throw NodeApiError, w')
    | Resolved a => (Ok a, w')
    end.

Definition unableToStage : error :=
  NodeOperationError
    (js "SeaTable: Unable to stage on " ++ [quote] ++ js "api" ++ [quote]
     ++ js ".").

Variable h : host.

Definition headersOf (authorization : jsstring) : value :=
  VObject [(js "Authorization", VString authorization)].

(** The options of the request for the access token. *)
Definition tokenRequest (a : IApi) : object :=
  [(js "url",
    VString (server a ++ js "/api/v2.1/dtable/app-access-token/"));
   (js "headers", headersOf (js "Token " ++ token a));
   (js "json", VBool true)].

Definition ctxStageApiCredentials : action unit :=
  c <~ getContext ;;
  _ <~ match api c with
       | None =>
           match getCredentials h with
           | None =>
               throw (NodeOperationError (js "No credentials got returned!"))
           | Some credentials => setContext (Ctx (Some credentials) (metadata c))
           end
       | Some _ => ret tt
       end ;;
  c <~ getContext ;;
  match api c with
  | None => throw unableToStage
  | Some _ => ret tt
  end.

Definition ctxStageAppAccessToken : action unit :=
  _ <~ ctxStageApiCredentials ;;
  c <~ getContext ;;
  match api c with
  | None => throw unableToStage
  | Some a =>
      _ <~ match appAccessToken a with
           | Some _ => ret tt
           | None =>
               t <~ request (accessTokenOf h) (tokenRequest a) ;;
               setContext (Ctx (Some (Api (server a) (token a) t))
                             (metadata c))
           end ;;
      c <~ getContext ;;
      match api c with
      | None => throw TypeError
      | Some a =>
          match appAccessToken a with
          | Some _ => ret tt
          | None =>
              throw
                (NodeOperationError
                   (js "SeaTable: Failed to obtain access token of the base."))
          end
      end
  end.

(** The options of the request for the metadata. *)
Definition metadataRequest (url authorization : jsstring) : object :=
  [(js "url", VString url); (js "headers", headersOf authorization);
   (js "json", VBool true)].

(** The arguments of the request are computed inside the try block, so
    whatever they throw becomes the API error as well. *)
Definition ctxStageDtableMetadata : action unit :=
  _ <~ ctxStageApiCredentials ;;
  _ <~ ctxStageAppAccessToken ;;
  c <~ getContext ;;
  match metadata c with
  | Some _ => ret tt
  | None =>
      let endpointExpr := endpointExprFunctor c in
      match
        url <- endpointExpr
                 (js "/dtable-server/api/v1/dtables/{{dtable_uuid}}/metadata/") ;;
        authorization <- endpointExpr (js "Token {{access_token}}") ;;
        Ok (metadataRequest url authorization)
      with
      | Throw _ => throw NodeApiError
      | Diverge => lift Diverge
      | Ok options =>
          responseData <~ request (metadataOf h) options ;;
          match responseData with
          | None =>
              throw (NodeOperationError
                       (js "SeaTable: Error while obtaining metadata."))
          | Some m => setContext (Ctx (api c) (Some m))
          end
      end
  end.

(** [apiDtableColumns] from any context; its last step is the function
    of that name above. *)
Definition apiDtableColumns (tableName : jsstring)
    : action (list IDtableMetadataColumn) :=
  _ <~ ctxStageDtableMetadata ;;
  c <~ getContext ;;
  match option_map tables (metadata c) with
  | Some (Some tables) => lift (apiDtableColumns tables tableName)
  | _ => throw (NodeOperationError (js "SeaTable: Metadata error."))
  end.

Definition apiMetadata : action (option IDtableMetadata) :=
  _ <~ ctxStageDtableMetadata ;;
  c <~ getContext ;;
  ret (metadata c).

(** The options that [apiRequest] builds before the extra options are
    merged in. *)
Definition requestOptions (authorization method : jsstring)
    (body query : object) (uri : jsstring) : object :=
  [(js "headers", headersOf authorization);
   (js "method", VString method);
   (js "body", VObject body);
   (js "qs", VObject query);
   (js "uri", VString uri);
   (js "useQuerystring", VBool false);
   (js "json", VBool true)].

Definition apiRequest {A : Type} (answerOf : nat -> object -> answer A)
    (method endpoint : jsstring) (body : object) (query : option object)
    (uri : option jsstring) (option : object) : action A :=
  _ <~ ctxStageAppAccessToken ;;
  c <~ getContext ;;
  let endpointExpr := endpointExprFunctor c in
  let query := callerQuery query in
  authorization <~ lift (endpointExpr (js "Token {{access_token}}")) ;;
  uri <~ match uri with
         | Some (u :: ri) => ret (u :: ri)
         | _ => lift (endpointExpr endpoint)
         end ;;
  let options := requestOptions authorization method body query uri in
  request answerOf (apiRequestMergeOptionsWithUri options body option).

Definition rowsEndpoint : jsstring :=
  js "/dtable-server/api/v1/dtables/{{dtable_uuid}}/rows/".

(** The do-while loop of [apiRequestAllItems] over [apiRequest]. *)
Fixpoint apiRequestLoop (fuel : nat) (method endpoint : jsstring)
    (body query : object) (returnData : list IRow) : action (list IRow) :=
  match fuel with
  | O => lift Diverge
  | S fuel' =>
      responseData <~ apiRequest (rowsOf h) method endpoint body (Some query)
                        None [] ;;
      let returnData' :=
        match responseData with
        | Some rs => returnData ++ rs
        | None => returnData
        end in
      let query' :=
        Obj.set query startName
          (VNumber (toNumber (Obj.get query startName)
                    + inject_Z (Z.of_N segment))%Q) in
      let again :=
        match responseData with
        | Some rs => (segment - 1 <? N.of_nat (length rs))%N
        | None => false
        end in
      if again
      then apiRequestLoop fuel' method endpoint body query' returnData'
      else ret returnData'
  end.

Definition apiRequestAllItems (fuel : nat) (method endpoint : jsstring)
    (body : object) (query : option object) : action (list IRow) :=
  let query := callerQuery query in
  let query := Obj.set query startName (VNumber 0%Q) in
  let query := Obj.set query limitName (VNumber (inject_Z (Z.of_N segment))) in
  apiRequestLoop fuel method endpoint body query [].

(** *** SeaTable.node.ts: execute *)

Record executeInput : Type := ExecuteInput {
  items : list object;                    (* the json of each input item *)
  operation : jsstring;
  table : jsstring;
  returnAll : bool;
  limit : number;
  columnNames : option jsstring           (* additionalFields.columnNames *)
}.

(** The row that the append operation returns for one item:
    [rowDeleteInternalColumns(rowFormatColumns({...newRowInsertData,
    ...newRow}, dtableColumns.map($ => $.name)))]. *)
Definition appendedRow (dtableColumns : list IDtableMetadataColumn)
    (newRowInsertData newRow : IRow) : IRow :=
  let row :=
    rowFormatColumns (spread newRowInsertData newRow)
      (List.map name dtableColumns) in
  rowDeleteInternalColumns row.

(** [body] and [qs] of the append operation while an item is handled. *)
Definition appendBody (tableName : jsstring) (item : object) : object :=
  Obj.set (Obj.set [] (js "table_name") (VString tableName))
    (js "row") (VObject item).

Definition appendQuery (tableName : jsstring) : object :=
  Obj.set (Obj.set [] (js "table_name") (VString tableName))
    (js "convert") (VBool true).

(** One turn of the loop of the append operation; [body] already holds
    the table name.  The state of the loop is [returnData]. *)
Definition appendItem (tableName : jsstring) (returnData : list object)
    (item : object) : action (list object) :=
  dtableColumns <~ apiDtableColumns tableName ;;
  let body := appendBody tableName item in
  responseData <~ apiRequest (rowOf h) (js "POST") rowsEndpoint body None None
                    [] ;;
  let insertId := Obj.get responseData (js "_id") in
  if isUndefined insertId
  then throw (NodeOperationError
                (js "SeaTable: No identity after appending row."))
  else
    let newRowInsertData :=
      fst (rowMapColumnsFromKeysToNames responseData dtableColumns) in
    let qs := appendQuery tableName in
    newRow <~ apiRequest (rowOf h) (js "GET")
                (rowsEndpoint ++ encodeURIComponent insertId ++ [slash])
                body (Some qs) None [] ;;
    if isUndefined (Obj.get newRow (js "_id"))
    then throw (NodeOperationError
                  (js "SeaTable: No identity for inserted row."))
    else
      ret (returnData ++ [appendedRow dtableColumns newRowInsertData newRow]).

Fixpoint forEachItem (tableName : jsstring) (returnData : list object)
    (items : list object) : action (list object) :=
  match items with
  | [] => ret returnData
  | item :: rest =>
      returnData <~ appendItem tableName returnData item ;;
      forEachItem tableName returnData rest
  end.

(** The table of the metadata operation as it is returned. *)
Definition tableSummary (t : IDtableMetadataTable) : object :=
  [(js "name", VString (table_name t));
   (js "columns",
    VString (join (js ", ")
               (List.map name (List.filter dtableSchemaIsColumn (columns t)))))].

(** [tables.findIndex] and the choice that follows it. *)
Definition chosenTables (tables : list IDtableMetadataTable)
    (tableName : jsstring) : list IDtableMetadataTable :=
  match List.find (fun t => jsstring_eqb (table_name t) tableName) tables with
  | Some t => [t]
  | None => tables
  end.

(** The list operation; mapping over the [rows] of a reply that has none
    throws. *)
Definition executeList (fuel : nat) (i : executeInput) : action (list object) :=
  dtableColumns <~ apiDtableColumns (table i) ;;
  let qs := Obj.set [] (js "table_name") (VString (table i)) in
  responseData <~
    (if returnAll i then
       rows <~ apiRequestAllItems fuel (js "GET") rowsEndpoint [] (Some qs) ;;
       ret (Some rows)
     else
       let qs := Obj.set qs (js "limit") (VNumber (limit i)) in
       apiRequest (rowsOf h) (js "GET") rowsEndpoint [] (Some qs) None []) ;;
  columnNames <~ lift (requestedNames stringNormalize (columnNames i)) ;;
  columnNames <~ lift (selectColumnNames dtableColumns columnNames) ;;
  match responseData with
  | None => throw TypeError
  | Some rows => ret (rowsFormatColumns rows columnNames)
  end.

Definition execute (fuel : nat) (i : executeInput) : action (list object) :=
  if jsstring_eqb (operation i) (js "append") then
    forEachItem (table i) [] (items i)
  else if jsstring_eqb (operation i) (js "list") then
    executeList fuel i
  else if jsstring_eqb (operation i) (js "metadata") then
    metaData <~ apiMetadata ;;
    match option_map tables metaData with
    | Some (Some tables) =>
        ret (List.map tableSummary (chosenTables tables (table i)))
    | _ => throw TypeError
    end
  else
    throw (NodeOperationError
             (js "The operation " ++ [quote] ++ operation i ++ [quote]
              ++ js " is not known!")).

End Requests.

End Api.

(* ================================================================== *)
(** ** Sample data *)
(* ================================================================== *)

Definition sampleRowA : IRow := [(js "_id", VString (js "a"))].
Definition sampleRowB : IRow :=
  [(js "_id", VString (js "b")); (js "_seq", VNumber 7%Q)].

Definition sampleColumns : list IDtableMetadataColumn :=
  [Column (js "0000") (js "Title") (js "text");
   Column (js "Xk3q") (js "Surname") (js "text")].

Definition samplePoll : pollInput :=
  PollInput false (js "People") create None
    (js "2021-06-01T10:00:00.000+00:00")
    None
    (Ok [Table (js "t1") (js "People") sampleColumns])
    (fun _ _ => Body (Some [])).

(** Pages of 1000, 1000 and 500 rows. *)
Definition samplePages (n : nat) : list IRow :=
  if Nat.ltb n 2 then repeat sampleRowA 1000 else repeat sampleRowA 500.

Definition sampleQuery : object :=
  [(js "start", VNumber 40%Q); (js "table_name", VString (js "People"))].

(** A table whose second column bears the name of the accessor. *)
Definition sampleProtoColumns : list IDtableMetadataColumn :=
  [Column (js "0000") (js "Title") (js "text");
   Column (js "Xk3q") (js "__proto__") (js "text")].

Definition sampleSameName : list IDtableMetadataColumn :=
  [Column (js "0000") (js "Name") (js "text");
   Column (js "Xk3q") (js "Name") (js "text")].

Definition sampleInserted : IRow :=
  [(js "_id", VString (js "r1")); (js "0000", VString (js "Ann"));
   (js "zzzz", VBool true); (js "_seq", VNumber 0%Q)].

Definition sampleOneCell : IRow := [(js "0000", VString (js "Ann"))].

Definition sampleTwoCells : IRow :=
  [(js "0000", VString (js "x")); (js "Xk3q", VString (js "y"))].

Definition sampleT0 : jsstring := js "2021-06-01T10:00:00.000+00:00".
Definition sampleT1 : jsstring := js "2021-06-01T10:00:01.000+00:00".
Definition sampleT2 : jsstring := js "2021-06-01T10:00:02.000+00:00".

Definition sampleArrivals : IRows :=
  [[(js "_id", VString (js "a")); (js "_ctime", VString sampleT0)];
   [(js "_id", VString (js "b")); (js "_ctime", VString sampleT2)];
   [(js "_id", VString (js "c")); (js "_ctime", VString sampleT1)]].

(** A table with a column of a type that [schema.columnTypes] lacks. *)
Definition sampleTables : list IDtableMetadataTable :=
  [Table (js "t1") (js "People")
     [Column (js "0000") (js "Title") (js "text");
      Column (js "Pq7w") (js "Photo") (js "image");
      Column (js "Xk3q") (js "Surname") (js "text")]].

Definition sampleTables_columns : list IDtableMetadataColumn :=
  [Column (js "0000") (js "Title") (js "text");
   Column (js "Pq7w") (js "Photo") (js "image");
   Column (js "Xk3q") (js "Surname") (js "text")].

(** A server whose second request fails, one whose second reply has no
    [rows], and one whose pages are always full. *)
Definition sampleFailingServer : server :=
  fun n _ =>
    if Nat.eqb n 0 then Body (Some (repeat sampleRowA 1000))
    else RequestFailed.

Definition sampleRowlessServer : server :=
  fun n _ =>
    if Nat.eqb n 0 then Body (Some (repeat sampleRowA 1000)) else Body None.

Definition sampleFullPages (n : nat) : list IRow := repeat sampleRowA 1000.

(** A scheduled poll whose cursor is T2 and whose fetch brings the rows of
    T0, T2 and T1; a manual poll whose fetch brings a row without [_ctime];
    a scheduled poll with the cursor T0. *)
Definition sampleLatePoll : pollInput :=
  PollInput false (js "People") create None sampleT2 (Some sampleT2)
    (Ok [Table (js "t1") (js "People") sampleColumns])
    (fun _ _ => Body (Some sampleArrivals)).

Definition sampleManualPoll : pollInput :=
  PollInput true (js "People") create None sampleT2 None
    (Ok [Table (js "t1") (js "People") sampleColumns])
    (fun _ _ => Body (Some [sampleRowA])).

Definition sampleNews : IRows :=
  [[(js "_id", VString (js "a")); (js "_ctime", VString sampleT0);
    (js "Title", VString (js "Ann")); (js "Surname", VString (js "Lee"))];
   [(js "_id", VString (js "b")); (js "_ctime", VString sampleT2);
    (js "Title", VString (js "Bob")); (js "Ghost", VBool true)]].

Definition sampleNewsPoll : pollInput :=
  PollInput false (js "People") create (Some (js "Surname,Ghost")) sampleT2
    (Some sampleT0)
    (Ok [Table (js "t1") (js "People") sampleColumns])
    (fun _ _ => Body (Some sampleNews)).

(** A base on a server, once without and once with its access token. *)
Definition sampleToken : Api.IAppAccessToken :=
  Api.AppAccessToken (js "n8n") (js "eyJ0") (js "650d8a0d")
    (js "https://cloud.seatable.io/dtable-server/")
    (js "https://cloud.seatable.io/") 1%Q (js "People").

Definition sampleApi : Api.IApi :=
  Api.Api (js "https://cloud.seatable.io") (js "0b95") None.

Definition sampleStagedApi : Api.IApi :=
  Api.Api (js "https://cloud.seatable.io") (js "0b95") (Some sampleToken).

(** Options of a request, a body and extra options that bring a body of
    their own. *)
Definition sampleOptions : object :=
  [(js "method", VString (js "GET"));
   (js "body", VObject []);
   (js "uri", VString (js "https://cloud.seatable.io/x"))].

Definition sampleOption : object :=
  [(js "body", VString (js "raw")); (js "timeout", VNumber 5%Q)].

(** What the server returns after an insert, and the row read back. *)
Definition sampleResponse : IRow :=
  [(js "_id", VString (js "r1")); (js "0000", VString (js "Ann"))].

Definition sampleNewRow : IRow :=
  [(js "_id", VString (js "r1")); (js "Title", VString (js "Ann"));
   (js "Surname", VNull); (js "_mtime", VString sampleT1)].

(** [encodeURIComponent] on identities that need no escape. *)
Definition sampleEncode (v : value) : jsstring :=
  match v with
  | VString s => s
  | _ => []
  end.

(** A host without credentials whose every request is rejected, and a
    host with credentials that answers every request. *)
Definition sampleDeafHost : Api.host :=
  Api.Host None (fun _ _ => Api.Rejected) (fun _ _ => Api.Rejected)
    (fun _ _ => Api.Rejected) (fun _ _ => Api.Rejected).

Definition sampleMetadata : Api.IDtableMetadata :=
  Api.Metadata (Some sampleTables) (js "1") (js "7").

Definition sampleHost : Api.host :=
  Api.Host (Some sampleApi)
    (fun _ _ => Api.Resolved (Some sampleToken))
    (fun _ _ => Api.Resolved (Some sampleMetadata))
    (fun n _ => Api.Resolved (if Nat.even n then sampleResponse else sampleNewRow))
    (fun _ _ => Api.Resolved (Some sampleNews)).

(** The state of an invocation at its start, as [execute] has it. *)
Definition sampleStart : Api.world := Api.World (Api.Ctx None None) [].



Definition sampleUnknownOperation : Api.executeInput :=
  Api.ExecuteInput [] (js "remove") (js "People") true 100%Q None.

Definition sampleStaged : Api.world :=
  Api.World (Api.Ctx (Some sampleStagedApi) (Some sampleMetadata)) [].



(* ================================================================== *)
(** * Proofs *)
(* ================================================================== *)

Section MatcherFacts.

Import Scan.

Lemma repeat_white (c : continuation) (cap : option jsstring) :
  forall (s : jsstring) (fuel : nat),
    length s < fuel ->
    repeatMatcher (matcher (RClass CsWhite)) true false fuel
      (MState s cap) c = whiteGreedy s cap c.
Proof.
  induction s as [|ch t IH]; intros fuel Hf.
  - destruct fuel as [|fuel]; [inversion Hf|]. reflexivity.
  - destruct fuel as [|fuel]; [inversion Hf|].
    simpl in Hf. cbn [repeatMatcher matcher ahead capture inClass whiteGreedy].
    destruct (isWhiteSpace ch); [|reflexivity].
    replace (Nat.eqb (length t) (length (ch :: t))) with false
      by (symmetry; apply Nat.eqb_neq; simpl; lia).
    rewrite IH by lia. reflexivity.
Qed.

Lemma repeat_plain (c : continuation) (cap : option jsstring) :
  forall (s : jsstring) (fuel : nat),
    length s < fuel ->
    repeatMatcher (matcher (RClass (CsNoneOf [backslash; comma]))) false
      false fuel (MState s cap) c = plainLazy s cap c.
Proof.
  induction s as [|ch t IH]; intros fuel Hf.
  - destruct fuel as [|fuel]; [inversion Hf|]. reflexivity.
  - destruct fuel as [|fuel]; [inversion Hf|].
    simpl in Hf.
    cbn [repeatMatcher matcher ahead capture plainLazy].
    fold (isPlain ch).
    destruct (c (MState (ch :: t) cap)); try reflexivity.
    destruct (isPlain ch); [|reflexivity].
    replace (Nat.eqb (length t) (length (ch :: t))) with false
      by (symmetry; apply Nat.eqb_neq; simpl; lia).
    apply IH; lia.
Qed.

Lemma pairs_ind (A : Type) (P : list A -> Prop) :
  P [] -> (forall a, P [] -> P [a]) ->
  (forall a b l, P l -> P (b :: l) -> P (a :: b :: l)) ->
  forall l, P l.
Proof.
  intros H0 H1 H2 l.
  assert (H : P l /\ forall a, P (a :: l)).
  { induction l as [|b l [IHa IHb]]; split; auto. }
  apply H.
Qed.

Lemma inClass_any (ch : N) : inClass CsAny ch = true.
Proof. simpl. destruct (isWhiteSpace ch); reflexivity. Qed.

Lemma repeat_esc (c : continuation) (cap : option jsstring) :
  forall (s : jsstring) (fuel : nat),
    length s < fuel ->
    repeatMatcher
      (matcher (RSeq (RClass (CsUnit backslash)) (RClass CsAny))) true
      false fuel (MState s cap) c = escGreedy s cap c.
Proof.
  induction s as [|a _|a b l IH _] using pairs_ind; intros fuel Hf;
    (destruct fuel as [|fuel]; [inversion Hf|]).
  - reflexivity.
  - cbn [repeatMatcher matcher ahead capture escGreedy inClass].
    destruct (N.eqb a backslash); reflexivity.
  - simpl in Hf.
    cbn [repeatMatcher matcher ahead capture escGreedy].
    change (inClass (CsUnit backslash) a) with (N.eqb a backslash).
    destruct (N.eqb a backslash); [|reflexivity].
    rewrite inClass_any.
    replace (Nat.eqb (length l) (length (a :: b :: l))) with false
      by (symmetry; apply Nat.eqb_neq; simpl; lia).
    rewrite IH by lia. reflexivity.
Qed.

Lemma plainLazy_ext (c1 c2 : continuation) (cap : option jsstring) :
  (forall y, c1 y = c2 y) ->
  forall s, plainLazy s cap c1 = plainLazy s cap c2.
Proof.
  intros H. induction s as [|ch t IH]; simpl; rewrite H; [reflexivity|].
  rewrite IH. reflexivity.
Qed.

Lemma walk_eq (c : continuation) (s : jsstring) (cap : option jsstring) :
  walk c s cap =
  (c (MState s cap) orelse
   match s with
   | [] => Failure
   | ch :: t =>
       if N.eqb ch backslash then
         match t with
         | [] => Failure
         | _ :: t' => walk c t' cap
         end
       else if N.eqb ch comma then Failure
       else walk c t cap
   end).
Proof. destruct s; reflexivity. Qed.

Lemma walk_ext (c1 c2 : continuation) (cap : option jsstring) :
  (forall y, c1 y = c2 y) ->
  forall s, walk c1 s cap = walk c2 s cap.
Proof.
  intros H.
  induction s as [|a IH1|a b l IH1 IH2] using pairs_ind;
    rewrite (walk_eq c1), (walk_eq c2), H.
  - reflexivity.
  - rewrite (walk_eq c1 []), (walk_eq c2 []), H. reflexivity.
  - rewrite IH1, IH2. reflexivity.
Qed.

Section Body.

Variable c : continuation.
Variable cap : option jsstring.
Variable d : continuation.
Variable bound : nat.

Hypothesis c_backslash :
  forall ch t, N.eqb ch backslash = true ->
               c (MState (ch :: t) cap) = Failure.
Hypothesis d_below :
  forall u, length u < bound -> d (MState u cap) = walk c u cap.

Local Abbreviation k := (escThen d).

Lemma esc_walk :
  forall u, length u < bound -> escGreedy u cap d = walk c u cap.
Proof.
  induction u as [|a _|a b l IH _] using pairs_ind; intros Hu.
  - simpl escGreedy. apply d_below, Hu.
  - simpl escGreedy.
    destruct (N.eqb a backslash); apply d_below, Hu.
  - cbn [escGreedy]. destruct (N.eqb a backslash) eqn:Ea.
    + rewrite IH by (simpl in Hu; lia).
      rewrite d_below by exact Hu.
      rewrite (walk_eq c (a :: b :: l)), (c_backslash a (b :: l) Ea), Ea.
      destruct (walk c l cap); reflexivity.
    + apply d_below, Hu.
Qed.

Lemma walk_plain_step (ch : N) (t : jsstring) :
  isPlain ch = true ->
  walk c (ch :: t) cap = Failure -> walk c t cap = Failure.
Proof.
  unfold isPlain. cbn [inClass existsb walk]. intros Hp Hw.
  destruct (N.eqb ch backslash); [discriminate Hp|].
  destruct (N.eqb ch comma); [discriminate Hp|].
  destruct (c (MState (ch :: t) cap)); try discriminate Hw. exact Hw.
Qed.

Lemma plain_fail :
  forall u, length u < bound ->
            walk c u cap = Failure -> plainLazy u cap k = Failure.
Proof.
  induction u as [|ch t IH]; intros Hu Hw.
  - cbn [plainLazy]. unfold escThen at 1. cbn [ahead capture].
    rewrite (esc_walk _ Hu), Hw. reflexivity.
  - cbn [plainLazy]. unfold escThen at 1. cbn [ahead capture].
    rewrite (esc_walk _ Hu), Hw.
    destruct (isPlain ch) eqn:Hp; [|reflexivity].
    apply IH; [simpl in Hu; lia|].
    exact (walk_plain_step _ _ Hp Hw).
Qed.

Lemma plain_walk :
  forall u, length u < bound -> plainLazy u cap k = walk c u cap.
Proof.
  intros u Hu. destruct (walk c u cap) eqn:Hw.
  - destruct u; cbn [plainLazy]; unfold k at 1; cbn [ahead capture];
      rewrite (esc_walk _ Hu), Hw; reflexivity.
  - apply plain_fail; assumption.
  - destruct u; cbn [plainLazy]; unfold k at 1; cbn [ahead capture];
      rewrite (esc_walk _ Hu), Hw; reflexivity.
Qed.

Lemma body_step (s : jsstring) :
  length s <= bound ->
  (forall u, length u = length s -> d (MState u cap) = Failure) ->
  (c (MState s cap) orelse plainLazy s cap k) = walk c s cap.
Proof.
  intros Hs Hd.
  destruct s as [|ch t].
  - cbn [plainLazy walk]. unfold escThen. cbn [ahead capture escGreedy].
    rewrite (Hd [] eq_refl). destruct (c (MState [] cap)); reflexivity.
  - cbn [plainLazy walk]. unfold escThen at 1. cbn [ahead capture].
    destruct (c (MState (ch :: t) cap)); try reflexivity.
    simpl in Hs.
    destruct (N.eqb ch backslash) eqn:Ea.
    + assert (Hp : isPlain ch = false).
      { unfold isPlain. cbn [inClass existsb]. rewrite Ea. reflexivity. }
      rewrite Hp. cbn [escGreedy]. rewrite Ea.
      destruct t as [|b l].
      * rewrite (Hd [ch] eq_refl). reflexivity.
      * rewrite (Hd (ch :: b :: l) eq_refl).
        rewrite esc_walk by (simpl in Hs; lia).
        destruct (walk c l cap); reflexivity.
    + assert (He : escGreedy (ch :: t) cap d = Failure).
      { cbn [escGreedy]. rewrite Ea. apply Hd. reflexivity. }
      rewrite He.
      unfold isPlain. cbn [inClass existsb]. rewrite Ea.
      destruct (N.eqb ch comma); [reflexivity|]. cbn [orb negb].
      apply plain_walk. lia.
Qed.

End Body.

Lemma repeat_body (c : continuation) (cap : option jsstring) :
  (forall ch t, N.eqb ch backslash = true ->
                c (MState (ch :: t) cap) = Failure) ->
  forall (n : nat) (s : jsstring) (fuel : nat),
    length s < n -> length s < fuel ->
    repeatMatcher (matcher bodyPattern) false false fuel (MState s cap) c
    = walk c s cap.
Proof.
  intros Hc. induction n as [|n IH]; intros s fuel Hn Hf; [lia|].
  destruct fuel as [|fuel]; [lia|].
  cbn [repeatMatcher]. unfold bodyPattern at 1. cbn [matcher ahead].
  cbn [hasGroup orb].
  rewrite repeat_plain by lia.
  set (d := fun y : mstate =>
         if Nat.eqb (length (ahead y)) (length s) then Failure
         else repeatMatcher (matcher bodyPattern) false false fuel y c).
  rewrite (plainLazy_ext _
             (fun y => escGreedy (ahead y) (capture y) d) cap).
  - apply (body_step c cap d (length s)); try assumption.
    + intros u Hu. unfold d. cbn [ahead].
      replace (Nat.eqb (length u) (length s)) with false
        by (symmetry; apply Nat.eqb_neq; lia).
      apply IH; lia.
    + lia.
    + intros u Hu. unfold d. cbn [ahead]. rewrite Hu, Nat.eqb_refl.
      reflexivity.
  - intros [u cap']. cbn [ahead capture]. apply repeat_esc. lia.
Qed.

Lemma white_not_comma (ch : N) :
  isWhiteSpace ch = true -> N.eqb ch comma = false.
Proof.
  intros H. destruct (N.eqb_spec ch comma) as [->|]; [|reflexivity].
  vm_compute in H. discriminate H.
Qed.

Lemma white_not_backslash (ch : N) :
  isWhiteSpace ch = true -> N.eqb ch backslash = false.
Proof.
  intros H. destruct (N.eqb_spec ch backslash) as [->|]; [|reflexivity].
  vm_compute in H. discriminate H.
Qed.

Lemma exitAt_white (ch : N) (t : jsstring) :
  isWhiteSpace ch = true -> exitAt (ch :: t) = exitAt t.
Proof. intros H. unfold exitAt. simpl. rewrite H. reflexivity. Qed.

Lemma exitAt_other (ch : N) (t : jsstring) :
  isWhiteSpace ch = false ->
  exitAt (ch :: t) = if N.eqb ch comma then Some t else None.
Proof. intros H. unfold exitAt. simpl. rewrite H. reflexivity. Qed.

Lemma tail_exit (cap : option jsstring) :
  forall u : jsstring,
    matcher tailPattern (MState u cap) Matched =
    match exitAt u with
    | Some r => Matched (MState r cap)
    | None => Failure
    end.
Proof.
  intros u. unfold tailPattern, whitePattern. cbn [matcher ahead hasGroup].
  rewrite repeat_white by lia.
  induction u as [|ch t IH].
  - reflexivity.
  - cbn [whiteGreedy]. destruct (isWhiteSpace ch) eqn:Hw.
    + rewrite IH, (exitAt_white _ t Hw).
      cbn [matcher ahead capture inClass]. rewrite (white_not_comma _ Hw).
      destruct (exitAt t); reflexivity.
    + rewrite (exitAt_other _ t Hw).
      cbn [matcher ahead capture inClass].
      destruct (N.eqb ch comma); reflexivity.
Qed.

Lemma firstn_app_len (pre u : jsstring) :
  firstn (length (pre ++ u) - length u) (pre ++ u) = pre.
Proof.
  rewrite length_app.
  replace (length pre + length u - length u) with (length pre) by lia.
  rewrite firstn_app, firstn_all, Nat.sub_diag. simpl. apply app_nil_r.
Qed.

Lemma scan_eq (s : jsstring) :
  scan s =
  match exitAt s with
  | Some r => Some ([], r)
  | None =>
      match s with
      | [] => None
      | ch :: t =>
          if N.eqb ch backslash then
            match t with
            | [] => None
            | d :: t' =>
                match scan t' with
                | Some (tok, r) => Some (ch :: d :: tok, r)
                | None => None
                end
            end
          else if N.eqb ch comma then None
          else
            match scan t with
            | Some (tok, r) => Some (ch :: tok, r)
            | None => None
            end
      end
  end.
Proof. destruct s; reflexivity. Qed.

Lemma walk_scan (s0 : jsstring) (cap : option jsstring) :
  forall s pre : jsstring,
    s0 = pre ++ s ->
    walk (afterGroup s0) s cap =
    match scan s with
    | Some (tok, r) => Matched (MState r (Some (pre ++ tok)))
    | None => Failure
    end.
Proof.
  assert (Hc : forall u pre, s0 = pre ++ u ->
            afterGroup s0 (MState u cap) =
            match exitAt u with
            | Some r => Matched (MState r (Some pre))
            | None => Failure
            end).
  { intros u pre ->. unfold afterGroup. cbn [ahead].
    rewrite tail_exit, firstn_app_len. reflexivity. }
  induction s as [|a IH1|a b l IH1 IH2] using pairs_ind; intros pre Hs;
    rewrite walk_eq, scan_eq, (Hc _ _ Hs).
  - change (exitAt []) with (Some (@nil N)). cbv iota beta.
    rewrite app_nil_r. reflexivity.
  - destruct (exitAt [a]); [rewrite app_nil_r; reflexivity|].
    destruct (N.eqb a backslash); [reflexivity|].
    destruct (N.eqb a comma); [reflexivity|].
    rewrite (IH1 (pre ++ [a])) by (rewrite <- app_assoc; exact Hs).
    destruct (scan []) as [[tok r]|]; [|reflexivity].
    rewrite <- app_assoc. reflexivity.
  - destruct (exitAt (a :: b :: l)); [rewrite app_nil_r; reflexivity|].
    destruct (N.eqb a backslash).
    + rewrite (IH1 (pre ++ [a; b])) by (rewrite <- app_assoc; exact Hs).
      destruct (scan l) as [[tok r]|]; [|reflexivity].
      rewrite <- app_assoc. reflexivity.
    + destruct (N.eqb a comma); [reflexivity|].
      rewrite (IH2 (pre ++ [a])) by (rewrite <- app_assoc; exact Hs).
      destruct (scan (b :: l)) as [[tok r]|]; [|reflexivity].
      rewrite <- app_assoc. reflexivity.
Qed.

Lemma afterGroup_backslash (s0 : jsstring) (cap : option jsstring) :
  forall ch t, N.eqb ch backslash = true ->
               afterGroup s0 (MState (ch :: t) cap) = Failure.
Proof.
  intros ch t H. unfold afterGroup. cbn [ahead]. rewrite tail_exit.
  apply N.eqb_eq in H. subst ch. reflexivity.
Qed.

Lemma group_scan (s0 : jsstring) :
  matcher (RSeq groupPattern tailPattern) (MState s0 None) Matched =
  match scan s0 with
  | Some (tok, r) => Matched (MState r (Some tok))
  | None => Failure
  end.
Proof.
  unfold groupPattern. cbn [matcher ahead hasGroup].
  change (hasGroup bodyPattern) with false.
  change (fun y : mstate =>
            matcher tailPattern
              (MState (ahead y)
                 (Some (firstn (length s0 - length (ahead y)) s0)))
              Matched) with (afterGroup s0).
  rewrite (repeat_body _ None (afterGroup_backslash s0 None)
             (S (length s0))) by lia.
  apply (walk_scan s0 None s0 []). reflexivity.
Qed.

Lemma scan_skipWhite_none :
  forall u : jsstring, scan (Spec.skipWhite u) = None -> scan u = None.
Proof.
  induction u as [|ch t IH]; intros H; [exact H|].
  simpl in H. destruct (isWhiteSpace ch) eqn:Hw; [|exact H].
  specialize (IH H).
  assert (He : exitAt t = None).
  { rewrite scan_eq in IH. destruct (exitAt t); [discriminate IH|].
    reflexivity. }
  rewrite scan_eq, (exitAt_white _ t Hw), He.
  rewrite (white_not_backslash _ Hw), (white_not_comma _ Hw), IH.
  reflexivity.
Qed.

Theorem matchHere_splitPattern (s : jsstring) :
  matchHere splitPattern s =
  match scan (Spec.skipWhite s) with
  | Some (tok, r) => Matched (MState r (Some tok))
  | None => Failure
  end.
Proof.
  unfold matchHere, splitPattern, whitePattern.
  cbn [matcher ahead hasGroup].
  change (fun y : mstate =>
            matcher groupPattern y
              (fun y0 : mstate => matcher tailPattern y0 Matched))
    with (fun y : mstate =>
            matcher (RSeq groupPattern tailPattern) y Matched).
  rewrite repeat_white by lia.
  induction s as [|ch t IH].
  - cbn [whiteGreedy Spec.skipWhite]. apply group_scan.
  - cbn [whiteGreedy Spec.skipWhite].
    destruct (isWhiteSpace ch) eqn:Hw.
    + rewrite IH. destruct (scan (Spec.skipWhite t)) as [[tok r]|] eqn:E;
        [reflexivity|].
      rewrite group_scan.
      assert (E' : scan (ch :: t) = None).
      { apply scan_skipWhite_none. simpl. rewrite Hw. exact E. }
      rewrite E'. reflexivity.
    + apply group_scan.
Qed.

End MatcherFacts.

Section SplitFacts.

Import Scan.

Lemma field_cons (c : N) (t : jsstring) :
  field (c :: t) =
  if N.eqb c comma then ([], Some t)
  else if N.eqb c backslash then
    match t with
    | [] => ([c], None)
    | d :: t' => (c :: d :: fst (field t'), snd (field t'))
    end
  else (c :: fst (field t), snd (field t)).
Proof.
  simpl. destruct (N.eqb c comma); [reflexivity|].
  destruct (N.eqb c backslash).
  - destruct t as [|d t']; [reflexivity|]. destruct (field t'); reflexivity.
  - destruct (field t); reflexivity.
Qed.

Lemma exit_field :
  forall u : jsstring,
    exitAt u =
    if forallb isWhiteSpace (fst (field u)) then Some (restOf (field u))
    else None.
Proof.
  induction u as [|ch t IH]; [reflexivity|].
  rewrite field_cons. destruct (isWhiteSpace ch) eqn:Hw.
  - rewrite (exitAt_white _ t Hw), (white_not_comma _ Hw),
      (white_not_backslash _ Hw), IH.
    cbn [fst forallb]. rewrite Hw. reflexivity.
  - rewrite (exitAt_other _ t Hw).
    destruct (N.eqb ch comma); [reflexivity|].
    destruct (N.eqb ch backslash).
    + destruct t; cbn [fst forallb]; rewrite Hw; reflexivity.
    + cbn [fst forallb]. rewrite Hw. reflexivity.
Qed.

Lemma trimEnd_eq (s : jsstring) :
  Spec.trimEnd s =
  match s with
  | [] => []
  | c :: t =>
      if forallb isWhiteSpace s then []
      else if N.eqb c backslash then
        match t with
        | [] => [c]
        | d :: t' => c :: d :: Spec.trimEnd t'
        end
      else c :: Spec.trimEnd t
  end.
Proof. destruct s; reflexivity. Qed.

Lemma scan_field :
  forall u : jsstring,
    Spec.wellEscaped u = true ->
    scan u = Some (Spec.trimEnd (fst (field u)), restOf (field u)).
Proof.
  induction u as [|a IH1|a b l IH1 IH2] using pairs_ind; intros Hu.
  - reflexivity.
  - rewrite scan_eq, exit_field, field_cons.
    simpl in Hu.
    destruct (N.eqb a comma); [reflexivity|].
    destruct (N.eqb a backslash) eqn:Eb; [discriminate Hu|].
    cbn [fst]. rewrite trimEnd_eq, Eb.
    destruct (forallb isWhiteSpace (a :: fst (field []))); [reflexivity|].
    rewrite (IH1 eq_refl). reflexivity.
  - rewrite scan_eq, exit_field, field_cons.
    destruct (N.eqb a comma) eqn:Ec; [reflexivity|].
    cbn [Spec.wellEscaped] in Hu.
    destruct (N.eqb a backslash) eqn:Eb.
    + cbn [fst]. rewrite trimEnd_eq, Eb.
      destruct (forallb isWhiteSpace (a :: b :: fst (field l))) eqn:Ef.
      * cbn [forallb] in Ef. apply andb_true_iff in Ef.
        destruct Ef as [Ef _].
        rewrite (white_not_backslash _ Ef) in Eb. discriminate Eb.
      * rewrite (IH1 Hu). reflexivity.
    + cbn [fst]. rewrite trimEnd_eq, Eb.
      destruct (forallb isWhiteSpace (a :: fst (field (b :: l))));
        [reflexivity|].
      rewrite (IH2 Hu). reflexivity.
Qed.

Lemma field_skipWhite :
  forall s : jsstring,
    fst (field (Spec.skipWhite s)) = Spec.skipWhite (fst (field s))
    /\ snd (field (Spec.skipWhite s)) = snd (field s).
Proof.
  induction s as [|ch t [IH1 IH2]]; [split; reflexivity|].
  cbn [Spec.skipWhite]. destruct (isWhiteSpace ch) eqn:Hw.
  - rewrite (field_cons ch t), (white_not_comma _ Hw),
      (white_not_backslash _ Hw).
    cbn [fst snd Spec.skipWhite]. rewrite Hw. split; assumption.
  - split; [|reflexivity].
    rewrite field_cons.
    destruct (N.eqb ch comma); [reflexivity|].
    destruct (N.eqb ch backslash).
    + destruct t; cbn [fst Spec.skipWhite]; rewrite Hw; reflexivity.
    + cbn [fst Spec.skipWhite]. rewrite Hw. reflexivity.
Qed.

Lemma wellEscaped_skipWhite :
  forall s : jsstring,
    Spec.wellEscaped s = true ->
    Spec.wellEscaped (Spec.skipWhite s) = true.
Proof.
  induction s as [|ch t IH]; intros H; [exact H|].
  cbn [Spec.skipWhite]. destruct (isWhiteSpace ch) eqn:Hw; [|exact H].
  apply IH. simpl in H. rewrite (white_not_backslash _ Hw) in H. exact H.
Qed.

Lemma scan_start (s : jsstring) :
  Spec.wellEscaped s = true ->
  scan (Spec.skipWhite s) = Some (Spec.trim (fst (field s)), restOf (field s)).
Proof.
  intros H. rewrite (scan_field _ (wellEscaped_skipWhite _ H)).
  destruct (field_skipWhite s) as [E1 E2].
  unfold Spec.trim, restOf. rewrite E1, E2. reflexivity.
Qed.

Lemma field_rest :
  forall s r : jsstring,
    Spec.wellEscaped s = true -> snd (field s) = Some r ->
    Spec.wellEscaped r = true /\ length r < length s.
Proof.
  induction s as [|a IH1|a b l IH1 IH2] using pairs_ind; intros r Hs Hr.
  - discriminate Hr.
  - rewrite field_cons in Hr. simpl in Hs.
    destruct (N.eqb a comma).
    + injection Hr as <-. split; [reflexivity|simpl; lia].
    + destruct (N.eqb a backslash); discriminate Hr.
  - rewrite field_cons in Hr. cbn [Spec.wellEscaped] in Hs.
    destruct (N.eqb a comma) eqn:Ec.
    + injection Hr as <-.
      assert (Eb : N.eqb a backslash = false).
      { apply N.eqb_eq in Ec. subst a. reflexivity. }
      rewrite Eb in Hs. split; [exact Hs|simpl; lia].
    + destruct (N.eqb a backslash).
      * destruct (IH1 r Hs Hr) as [H1 H2]. split; [exact H1|simpl; lia].
      * destruct (IH2 r Hs Hr) as [H1 H2].
        split; [exact H1|simpl in *; lia].
Qed.

Lemma splitOnCommas_cons (c : N) (t : jsstring) :
  Spec.splitOnCommas (c :: t) =
  if N.eqb c comma then [] :: Spec.splitOnCommas t
  else if N.eqb c backslash then
    match t with
    | [] => [[c]]
    | d :: t' => Spec.consHead c (Spec.consHead d (Spec.splitOnCommas t'))
    end
  else Spec.consHead c (Spec.splitOnCommas t).
Proof. reflexivity. Qed.

Lemma splitOnCommas_field :
  forall s : jsstring,
    Spec.splitOnCommas s =
    fst (field s) ::
    match snd (field s) with
    | Some r => Spec.splitOnCommas r
    | None => []
    end.
Proof.
  induction s as [|a IH1|a b l IH1 IH2] using pairs_ind.
  - reflexivity.
  - rewrite field_cons, splitOnCommas_cons.
    destruct (N.eqb a comma); [reflexivity|].
    destruct (N.eqb a backslash); reflexivity.
  - rewrite field_cons, splitOnCommas_cons.
    destruct (N.eqb a comma); [reflexivity|].
    destruct (N.eqb a backslash).
    + rewrite IH1. reflexivity.
    + rewrite IH2. reflexivity.
Qed.

Lemma restOf_shorter (s : jsstring) :
  s <> [] -> Spec.wellEscaped s = true ->
  Spec.wellEscaped (restOf (field s)) = true
  /\ length (restOf (field s)) < length s.
Proof.
  intros Hne Hs. unfold restOf.
  destruct (snd (field s)) as [r|] eqn:E.
  - exact (field_rest s r Hs E).
  - split; [reflexivity|]. destruct s; [contradiction|simpl; lia].
Qed.

Lemma splitLoop_wellEscaped :
  forall (n : nat) (s : jsstring) (fuel : nat),
    length s < n -> length s < fuel -> Spec.wellEscaped s = true ->
    exists parts,
      splitLoop splitPattern fuel [] s = Ok parts
      /\ filterLength parts =
         Ok (List.filter nonEmpty
               (List.map Spec.trim (Spec.splitOnCommas s))).
Proof.
  induction n as [|n IH]; intros s fuel Hn Hf Hs; [lia|].
  destruct fuel as [|fuel]; [lia|].
  destruct s as [|ch t].
  - exists [Some []]. split; reflexivity.
  - set (s := ch :: t) in *.
    assert (Hne : s <> []) by discriminate.
    destruct (restOf_shorter s Hne Hs) as [Hr Hl].
    destruct (IH (restOf (field s)) fuel) as (parts & Hp & Hfl);
      [lia|lia|exact Hr|].
    exists (Some [] :: Some (Spec.trim (fst (field s))) :: parts).
    split.
    + unfold s at 1. cbn [splitLoop]. fold s.
      rewrite matchHere_splitPattern, (scan_start s Hs).
      cbn [ahead capture length Nat.eqb andb].
      replace (Nat.eqb (length (restOf (field s))) (length s)) with false
        by (symmetry; apply Nat.eqb_neq; lia).
      rewrite Hp. reflexivity.
    + cbn [filterLength length Nat.eqb]. rewrite Hfl. cbn [bind].
      rewrite (splitOnCommas_field s). cbn [List.map List.filter].
      assert (En : nonEmpty (Spec.trim (fst (field s))) =
                   negb (Nat.eqb (length (Spec.trim (fst (field s)))) 0))
        by reflexivity.
      rewrite En.
      assert (Et : List.filter nonEmpty
                     (List.map Spec.trim (Spec.splitOnCommas
                                            (restOf (field s)))) =
                   List.filter nonEmpty
                     (List.map Spec.trim
                        match snd (field s) with
                        | Some r => Spec.splitOnCommas r
                        | None => []
                        end)).
      { unfold restOf. destruct (snd (field s)); reflexivity. }
      rewrite Et.
      destruct (Nat.eqb (length (Spec.trim (fst (field s)))) 0);
        reflexivity.
Qed.

Theorem split_wellEscaped (s : jsstring) :
  Spec.wellEscaped s = true ->
  exists parts,
    split splitPattern s = Ok parts
    /\ filterLength parts =
       Ok (List.filter nonEmpty (List.map Spec.trim (Spec.splitOnCommas s))).
Proof.
  intros Hs. destruct s as [|ch t].
  - exists []. split; reflexivity.
  - unfold split.
    apply (splitLoop_wellEscaped (S (length (ch :: t)))); [lia|lia|exact Hs].
Qed.

Lemma matchHere_escapePattern (s : jsstring) :
  matchHere escapePattern s =
  match s with
  | a :: b :: t =>
      if N.eqb a backslash then Matched (MState t (Some [b])) else Failure
  | _ => Failure
  end.
Proof.
  unfold matchHere, escapePattern. cbn [matcher ahead capture].
  destruct s as [|a [|b t]]; [reflexivity| |].
  - cbn [inClass]. destruct (N.eqb a backslash); reflexivity.
  - change (inClass (CsUnit backslash) a) with (N.eqb a backslash).
    destruct (N.eqb a backslash); [|reflexivity].
    cbn [ahead capture]. rewrite inClass_any. cbn [length].
    replace (S (length t) - length t) with 1 by lia. reflexivity.
Qed.

Lemma replaceLoop_unescape :
  forall (s : jsstring) (fuel : nat),
    length s < fuel ->
    replaceLoop escapePattern firstCapture fuel s = Ok (Spec.unescape s).
Proof.
  induction s as [|a IH1|a b l IH1 IH2] using pairs_ind; intros fuel Hf;
    (destruct fuel as [|fuel]; [inversion Hf|]);
    cbn [replaceLoop]; rewrite matchHere_escapePattern.
  - reflexivity.
  - rewrite IH1 by (simpl in *; lia). simpl.
    destruct (N.eqb a backslash); reflexivity.
  - cbn [Spec.unescape]. destruct (N.eqb a backslash).
    + cbn [ahead capture].
      replace (Nat.eqb (length l) (length (a :: b :: l))) with false
        by (symmetry; apply Nat.eqb_neq; simpl; lia).
      rewrite IH1 by (simpl in *; lia). reflexivity.
    + rewrite IH2 by (simpl in *; lia). reflexivity.
Qed.

Lemma mapM_unescape :
  forall l : list jsstring,
    mapM (replaceAll escapePattern firstCapture) l
    = Ok (List.map Spec.unescape l).
Proof.
  induction l as [|x t IH]; [reflexivity|].
  cbn [mapM List.map]. unfold replaceAll at 1.
  rewrite replaceLoop_unescape by lia. cbn [bind]. rewrite IH. reflexivity.
Qed.

End SplitFacts.

Section FilterFacts.

Import Scan.

Lemma jsstring_eqb_eq (a b : jsstring) : jsstring_eqb a b = true <-> a = b.
Proof.
  unfold jsstring_eqb. destruct (list_eq_dec N.eq_dec a b); split; intros H;
    try reflexivity; try assumption; try discriminate; contradiction.
Qed.

Lemma jsstring_eqb_refl (a : jsstring) : jsstring_eqb a a = true.
Proof. apply jsstring_eqb_eq. reflexivity. Qed.

Lemma jsstring_eqb_sym (a b : jsstring) : jsstring_eqb a b = jsstring_eqb b a.
Proof.
  unfold jsstring_eqb.
  destruct (list_eq_dec N.eq_dec a b), (list_eq_dec N.eq_dec b a);
    try reflexivity; subst; contradiction.
Qed.

Lemma indexOf_absent :
  forall l x, occurs x l = false -> indexOf l x = (-1)%Z.
Proof.
  induction l as [|y t IH]; intros x H; [reflexivity|].
  simpl in H. apply orb_false_iff in H. destruct H as [H1 H2].
  cbn [indexOf]. rewrite H1, (IH x H2). reflexivity.
Qed.

Lemma indexOf_present :
  forall l x, occurs x l = true ->
              (0 <= indexOf l x < Z.of_nat (length l))%Z.
Proof.
  induction l as [|y t IH]; intros x H; [discriminate H|].
  cbn [indexOf]. destruct (jsstring_eqb y x) eqn:E.
  - simpl length. lia.
  - simpl in H. rewrite E in H. simpl in H. specialize (IH x H).
    destruct (Z.ltb_spec (indexOf t x) 0); simpl length; lia.
Qed.

Lemma indexOf_app :
  forall pre l x,
    indexOf (pre ++ l) x =
    if occurs x pre then indexOf pre x
    else if (indexOf l x <? 0)%Z then (-1)%Z
         else (Z.of_nat (length pre) + indexOf l x)%Z.
Proof.
  induction pre as [|y t IH]; intros l x.
  - cbn [app occurs existsb length]. destruct (Z.ltb_spec (indexOf l x) 0).
    + destruct (occurs x l) eqn:E.
      * pose proof (indexOf_present l x E). lia.
      * apply indexOf_absent, E.
    + reflexivity.
  - cbn [app indexOf occurs existsb]. fold (occurs x t).
    destruct (jsstring_eqb y x); [reflexivity|]. cbn [orb].
    rewrite IH. destruct (occurs x t) eqn:E; [reflexivity|].
    destruct (Z.ltb_spec (indexOf l x) 0); [reflexivity|].
    replace (Z.of_nat (length (y :: t))) with (1 + Z.of_nat (length t))%Z
      by (simpl length; lia).
    destruct (Z.ltb_spec (Z.of_nat (length t) + indexOf l x) 0); lia.
Qed.

Lemma first_index (pre t : list jsstring) (x : jsstring) :
  Z.eqb (indexOf (pre ++ x :: t) x) (Z.of_nat (length pre))
  = negb (occurs x pre).
Proof.
  rewrite indexOf_app. destruct (occurs x pre) eqn:E.
  - pose proof (indexOf_present pre x E). cbn [negb].
    apply Z.eqb_neq. lia.
  - cbn [indexOf negb]. rewrite jsstring_eqb_refl. cbn.
    apply Z.eqb_eq. lia.
Qed.

Lemma occurs_seen (x : jsstring) (pre seen : list jsstring) :
  (forall y, In y seen <-> In y pre) ->
  existsb (jsstring_eqb x) seen = occurs x pre.
Proof.
  intros H. unfold occurs.
  destruct (existsb (fun y => jsstring_eqb y x) pre) eqn:E.
  - apply existsb_exists in E. destruct E as (y & Hy & Ey).
    apply existsb_exists. exists y. split; [apply H, Hy|].
    rewrite jsstring_eqb_sym. exact Ey.
  - destruct (existsb (jsstring_eqb x) seen) eqn:E'; [|reflexivity].
    apply existsb_exists in E'. destruct E' as (y & Hy & Ey).
    assert (F : existsb (fun y => jsstring_eqb y x) pre = true).
    { apply existsb_exists. exists y. split; [apply H, Hy|].
      rewrite jsstring_eqb_sym. exact Ey. }
    rewrite F in E. discriminate E.
Qed.

Lemma filterFrom_dedupe (full : list jsstring) :
  forall l pre seen,
    full = pre ++ l ->
    (forall y, In y seen <-> In y pre) ->
    filterFrom (fun s index => Z.eqb (indexOf full s) index)
      (Z.of_nat (length pre)) l
    = Spec.dedupe seen l.
Proof.
  induction l as [|x t IH]; intros pre seen Hfull Hseen; [reflexivity|].
  cbn [filterFrom Spec.dedupe].
  rewrite Hfull at 1. rewrite first_index, (occurs_seen x pre seen Hseen).
  assert (Hnext : filterFrom (fun s index => Z.eqb (indexOf full s) index)
                    (Z.of_nat (length pre) + 1) t
                  = Spec.dedupe (if occurs x pre then seen else x :: seen) t).
  { replace (Z.of_nat (length pre) + 1)%Z
      with (Z.of_nat (length (pre ++ [x])))
      by (rewrite length_app; simpl length; lia).
    apply IH.
    - rewrite <- app_assoc. exact Hfull.
    - intros y. rewrite in_app_iff. destruct (occurs x pre) eqn:E.
      + rewrite Hseen. split; [tauto|]. intros [H|[H|[]]]; [exact H|].
        subst y. unfold occurs in E. apply existsb_exists in E.
        destruct E as (z & Hz & Ez). apply jsstring_eqb_eq in Ez.
        subst z. exact Hz.
      + cbn [In]. rewrite Hseen. tauto. }
  rewrite Hnext. destruct (occurs x pre); reflexivity.
Qed.

Lemma filterIndexed_dedupe (l : list jsstring) :
  filterIndexed (fun s index ss => Z.eqb (indexOf ss s) index) l
  = Spec.dedupe [] l.
Proof.
  unfold filterIndexed.
  apply (filterFrom_dedupe l l [] []); [reflexivity|tauto].
Qed.

Lemma unescape_nonEmpty (s : jsstring) :
  nonEmpty (Spec.unescape s) = nonEmpty s.
Proof.
  destruct s as [|a [|b t]]; try reflexivity; simpl;
    destruct (N.eqb a backslash); reflexivity.
Qed.

Lemma named_wanted (s : jsstring) :
  nonEmpty s = true ->
  Z.eqb (1 + indexOf ([] :: schema.internalNames) s) 0 = Spec.wanted s.
Proof.
  intros Hs. unfold Spec.wanted. fold (nonEmpty s). rewrite Hs.
  cbn [andb]. unfold Spec.isReserved.
  rewrite (occurs_seen s schema.internalNames schema.internalNames)
    by tauto.
  assert (E0 : jsstring_eqb [] s = false).
  { destruct s; [discriminate Hs|]. reflexivity. }
  cbn [indexOf]. rewrite E0.
  destruct (occurs s schema.internalNames) eqn:E.
  - pose proof (indexOf_present _ _ E) as Hi.
    destruct (Z.ltb_spec (indexOf schema.internalNames s) 0); [lia|].
    cbn [negb]. apply Z.eqb_neq. lia.
  - rewrite (indexOf_absent _ _ E). reflexivity.
Qed.

Lemma named_filter :
  forall l : list jsstring,
    List.filter
      (fun s => Z.eqb (1 + indexOf ([] :: schema.internalNames) s) 0)
      (List.map Spec.unescape (List.filter nonEmpty l))
    = List.filter Spec.wanted (List.map Spec.unescape l).
Proof.
  induction l as [|x t IH]; [reflexivity|].
  cbn [List.filter List.map]. destruct (nonEmpty x) eqn:E.
  - cbn [List.filter List.map]. rewrite IH, named_wanted
      by (rewrite unescape_nonEmpty; exact E).
    reflexivity.
  - rewrite IH.
    assert (W : Spec.wanted (Spec.unescape x) = false).
    { unfold Spec.wanted. fold (nonEmpty (Spec.unescape x)).
      rewrite unescape_nonEmpty, E. reflexivity. }
    rewrite W. reflexivity.
Qed.

Lemma columnNamesToArray_parse (stringNormalize : jsstring -> jsstring)
    (s : jsstring) :
  Spec.wellEscaped (normalize stringNormalize s) = true ->
  columnNamesToArray stringNormalize s
  = Ok (Spec.parseColumnNames (normalize stringNormalize s)).
Proof.
  intros Hs. destruct s as [|ch t]; [reflexivity|].
  unfold columnNamesToArray.
  destruct (split_wellEscaped _ Hs) as (parts & Hp & Hf).
  rewrite Hp. cbn [bind]. rewrite Hf. cbn [bind].
  rewrite mapM_unescape. cbn [bind].
  rewrite named_filter, filterIndexed_dedupe. reflexivity.
Qed.

End FilterFacts.

Section ObjectFacts.

Lemma jsstring_eqb_neq (a b : jsstring) : a <> b -> jsstring_eqb a b = false.
Proof.
  intros H. destruct (jsstring_eqb a b) eqn:E; [|reflexivity].
  apply jsstring_eqb_eq in E. contradiction.
Qed.

Lemma has_In (o : object) (k : jsstring) :
  Obj.has o k = true <-> In k (Obj.keys o).
Proof.
  induction o as [|[k' v] t IH]; simpl.
  - split; [discriminate|tauto].
  - rewrite orb_true_iff, IH, jsstring_eqb_eq. tauto.
Qed.

Lemma get_absent (o : object) (k : jsstring) :
  Obj.has o k = false -> Obj.get o k = VUndefined.
Proof.
  induction o as [|[k' v] t IH]; simpl; [reflexivity|].
  intros H. apply orb_false_iff in H. destruct H as [H1 H2].
  rewrite H1. apply IH, H2.
Qed.

Lemma get_update_same (o : object) (k : jsstring) (v : value) :
  Obj.has o k = true -> Obj.get (Obj.update o k v) k = v.
Proof.
  induction o as [|[k' v'] t IH]; simpl; [discriminate|].
  destruct (jsstring_eqb k' k) eqn:E; simpl; rewrite E; [reflexivity|].
  exact IH.
Qed.

Lemma get_update_other (o : object) (k k' : jsstring) (v : value) :
  k' <> k -> Obj.get (Obj.update o k v) k' = Obj.get o k'.
Proof.
  intros Hk. induction o as [|[k0 v0] t IH]; simpl; [reflexivity|].
  destruct (jsstring_eqb k0 k) eqn:E; simpl.
  - apply jsstring_eqb_eq in E. subst k0.
    rewrite (jsstring_eqb_neq k k') by congruence. reflexivity.
  - rewrite IH. reflexivity.
Qed.

Lemma get_insertIndex_same (n : N) (o : object) (k : jsstring) (v : value) :
  Obj.has o k = false -> Obj.get (Obj.insertIndex n k v o) k = v.
Proof.
  induction o as [|[k' v'] t IH]; simpl; intros H.
  - rewrite jsstring_eqb_refl. reflexivity.
  - apply orb_false_iff in H. destruct H as [H1 H2].
    destruct (Obj.arrayIndex k') as [m|].
    + destruct (n <? m)%N; simpl.
      * rewrite jsstring_eqb_refl. reflexivity.
      * rewrite H1. apply IH, H2.
    + simpl. rewrite jsstring_eqb_refl. reflexivity.
Qed.

Lemma get_insertIndex_other (n : N) (o : object) (k k' : jsstring)
    (v : value) :
  k' <> k -> Obj.get (Obj.insertIndex n k v o) k' = Obj.get o k'.
Proof.
  intros Hk. assert (E : jsstring_eqb k k' = false)
    by (apply jsstring_eqb_neq; congruence).
  induction o as [|[k0 v0] t IH]; simpl.
  - rewrite E. reflexivity.
  - destruct (Obj.arrayIndex k0) as [m|].
    + destruct (n <? m)%N; simpl.
      * rewrite E. reflexivity.
      * rewrite IH. reflexivity.
    + simpl. rewrite E. reflexivity.
Qed.

Lemma get_app (o1 o2 : object) (k : jsstring) :
  Obj.get (o1 ++ o2) k =
  if Obj.has o1 k then Obj.get o1 k else Obj.get o2 k.
Proof.
  induction o1 as [|[k' v'] t IH]; simpl; [reflexivity|].
  destruct (jsstring_eqb k' k); simpl; [reflexivity|]. exact IH.
Qed.

Theorem get_set_same (o : object) (k : jsstring) (v : value) :
  Obj.get (Obj.set o k v) k = v.
Proof.
  unfold Obj.set. destruct (Obj.has o k) eqn:H.
  - apply get_update_same, H.
  - destruct (Obj.arrayIndex k) as [n|].
    + apply get_insertIndex_same, H.
    + rewrite get_app, H. simpl. rewrite jsstring_eqb_refl. reflexivity.
Qed.

Theorem get_set_other (o : object) (k k' : jsstring) (v : value) :
  k' <> k -> Obj.get (Obj.set o k v) k' = Obj.get o k'.
Proof.
  intros Hk. unfold Obj.set. destruct (Obj.has o k) eqn:H.
  - apply get_update_other, Hk.
  - destruct (Obj.arrayIndex k) as [n|].
    + apply get_insertIndex_other, Hk.
    + rewrite get_app. destruct (Obj.has o k') eqn:H'; [reflexivity|].
      simpl. rewrite (jsstring_eqb_neq k k') by congruence.
      symmetry. apply get_absent, H'.
Qed.

Lemma get_delete_same (o : object) (k : jsstring) :
  Obj.get (Obj.delete o k) k = VUndefined.
Proof.
  induction o as [|[k' v'] t IH]; simpl; [reflexivity|].
  destruct (jsstring_eqb k' k) eqn:E; [exact IH|].
  simpl. rewrite E. exact IH.
Qed.

Lemma get_delete_other (o : object) (k k' : jsstring) :
  k' <> k -> Obj.get (Obj.delete o k) k' = Obj.get o k'.
Proof.
  intros Hk. induction o as [|[k0 v0] t IH]; simpl; [reflexivity|].
  destruct (jsstring_eqb k0 k) eqn:E.
  - apply jsstring_eqb_eq in E. subst k0.
    rewrite (jsstring_eqb_neq k k') by congruence. exact IH.
  - simpl. rewrite IH. reflexivity.
Qed.

Lemma keys_delete (o : object) (k k' : jsstring) :
  In k' (Obj.keys (Obj.delete o k)) <-> In k' (Obj.keys o) /\ k' <> k.
Proof.
  induction o as [|[k0 v0] t IH]; simpl; [tauto|].
  destruct (jsstring_eqb k0 k) eqn:E.
  - apply jsstring_eqb_eq in E. subst k0. rewrite IH.
    split; [tauto|]. intros [[H|H] Hn]; [congruence|tauto].
  - simpl. rewrite IH.
    assert (k0 <> k) by (intros ->; rewrite jsstring_eqb_refl in E;
                         discriminate E).
    split; [|tauto]. intros [H1|H1]; [subst; tauto|tauto].
Qed.

End ObjectFacts.

Section SequenceFacts.

Lemma rowsSequenceFrom_length (rows : IRows) :
  forall i, length (rowsSequenceFrom i rows) = length rows.
Proof.
  induction rows as [|r t IH]; intros i; simpl; [reflexivity|].
  rewrite IH. reflexivity.
Qed.

Lemma rowsSequenceFrom_nth (rows : IRows) :
  forall i j row,
    nth_error rows j = Some row ->
    nth_error (rowsSequenceFrom i rows) j
    = Some (Obj.set row seqName (VNumber (numberOfNat (S (i + j))))).
Proof.
  induction rows as [|r t IH]; intros i j row H.
  - destruct j; discriminate H.
  - destruct j as [|j]; simpl in *.
    + injection H as <-. rewrite Nat.add_0_r. reflexivity.
    + rewrite (IH (S i) j row H). rewrite <- plus_n_Sm. reflexivity.
Qed.

End SequenceFacts.

(* ================================================================== *)
(** * The claims *)
(* ================================================================== *)

Lemma isUndefined_iff (v : value) : isUndefined v = true <-> v = VUndefined.
Proof. destruct v; simpl; split; intros H; congruence. Qed.

(** C6.  On a non-empty collection [rowsSequence] looks at the first row
    only.  If its [_seq] is undefined, every row gets [_seq] = 1, 2, ..., n
    in the current order and keeps its other fields; if the first row has a
    [_seq], the collection is returned as it is, whatever the later rows
    hold. *)
Theorem rowsSequence_first_row_decides (first : IRow) (rest : IRows) :
  (Obj.get first seqName = VUndefined ->
   length (rowsSequence (first :: rest)) = length (first :: rest)
   /\ forall i row,
        nth_error (first :: rest) i = Some row ->
        exists row',
          nth_error (rowsSequence (first :: rest)) i = Some row'
          /\ row' = Obj.set row seqName (VNumber (numberOfNat (S i)))
          /\ Obj.get row' seqName = VNumber (numberOfNat (S i))
          /\ forall k, k <> seqName -> Obj.get row' k = Obj.get row k)
  /\ (Obj.get first seqName <> VUndefined ->
      rowsSequence (first :: rest) = first :: rest).
Proof.
  split; intros H; unfold rowsSequence.
  - rewrite H. cbn [isUndefined negb]. split.
    + apply rowsSequenceFrom_length.
    + intros i row Hi.
      exists (Obj.set row seqName (VNumber (numberOfNat (S i)))).
      split; [exact (rowsSequenceFrom_nth _ 0 i row Hi)|].
      split; [reflexivity|]. split; [apply get_set_same|].
      intros k Hk. apply get_set_other, Hk.
  - destruct (isUndefined (Obj.get first seqName)) eqn:E; [|reflexivity].
    apply isUndefined_iff in E. contradiction.
Qed.

Lemma rowsSequence_first_row_decides_witness :
  nth_error (rowsSequence [sampleRowA; sampleRowB]) 1
  = Some [(js "_id", VString (js "b")); (js "_seq", VNumber 2%Q)]
  /\ rowsSequence [sampleRowB; sampleRowA] = [sampleRowB; sampleRowA].
Proof.
  split.
  - destruct (proj1 (rowsSequence_first_row_decides sampleRowA [sampleRowB])
                eq_refl) as [_ H].
    destruct (H 1 sampleRowB eq_refl) as (row' & Hn & -> & _).
    exact Hn.
  - apply (proj2 (rowsSequence_first_row_decides sampleRowB [sampleRowA])).
    discriminate.
Defined.

(** C8.  A poll whose fetch brings back no row returns null, with no item
    list and no error, and stores the time of the poll. *)
Theorem poll_empty_fetch_returns_null
    (stringNormalize : jsstring -> jsstring)
    (looseGreater : value -> jsstring -> bool)
    (looseCompare : value -> value -> comparison)
    (fuel : nat) (i : pollInput)
    (columnNames : list jsstring)
    (dtableColumns : list IDtableMetadataColumn) :
  requestedNames stringNormalize (columnNamesField i) = Ok columnNames ->
  (tables <- metadata i ;; apiDtableColumns tables (tableName i))
  = Ok dtableColumns ->
  outcome_of
    (apiRequestAllItems (network i) fuel
       (Some (Obj.set [] (js "table_name") (VString (tableName i)))))
  = Ok [] ->
  poll stringNormalize looseGreater looseCompare fuel i
  = PollOutput (Ok None) (Some (now i)).
Proof.
  intros Hn Hm Hr. unfold poll. rewrite Hn, Hm, Hr. reflexivity.
Qed.

Lemma poll_empty_fetch_returns_null_witness :
  poll idNormalize (fun _ _ => false) (fun _ _ => Eq) 1 samplePoll
  = PollOutput (Ok None) (Some (js "2021-06-01T10:00:00.000+00:00")).
Proof.
  exact (poll_empty_fetch_returns_null idNormalize (fun _ _ => false)
           (fun _ _ => Eq) 1 samplePoll [] sampleColumns
           eq_refl eq_refl eq_refl).
Defined.

Section SelectFacts.

Lemma find_known (dtableColumns : list IDtableMetadataColumn)
    (n : jsstring) :
  match List.find (fun column => jsstring_eqb (name column) n)
          dtableColumns with
  | Some _ => true
  | None => false
  end = knownName dtableColumns n.
Proof.
  induction dtableColumns as [|c t IH]; simpl; [reflexivity|].
  destruct (jsstring_eqb (name c) n); [reflexivity|exact IH].
Qed.

Lemma knownName_In (dtableColumns : list IDtableMetadataColumn)
    (n : jsstring) :
  knownName dtableColumns n = true <->
  exists column, In column dtableColumns /\ name column = n.
Proof.
  unfold knownName. rewrite existsb_exists.
  split; intros (c & Hc & E); exists c; (split; [exact Hc|]);
    apply jsstring_eqb_eq; exact E.
Qed.

Lemma NoDup_filter {A : Type} (f : A -> bool) (l : list A) :
  NoDup l -> NoDup (List.filter f l).
Proof.
  induction 1 as [|x l Hx Hl IH]; simpl; [constructor|].
  destruct (f x); [|exact IH].
  constructor; [|exact IH]. intros Hin. apply filter_In in Hin. tauto.
Qed.

End SelectFacts.

(** C4, as the code has it.  With [dtableColumns] the table's columns of a
    known type, as [apiDtableColumns] returns them, and [first] its first
    element, the final list is the name of [first] followed by the requested
    names that name one of [dtableColumns], in the requested order: every
    member names a column, unknown names are dropped without an error, and
    requested names that are distinct stay distinct after the first place.
    Requesting Surname and Ghost on the table Title, Surname gives Title,
    Surname. *)
Theorem selectColumnNames_first_then_known
    (declared : list IDtableMetadataColumn)
    (first : IDtableMetadataColumn) (others : list IDtableMetadataColumn)
    (columnNames : list jsstring) :
  dtableSchemaColumns declared = first :: others ->
  exists names,
    selectColumnNames (dtableSchemaColumns declared) columnNames = Ok names
    /\ names = name first
               :: List.filter (knownName (first :: others)) columnNames
    /\ (forall n, In n names ->
          exists column, In column declared /\ name column = n)
    /\ (NoDup columnNames -> NoDup (List.tl names))
    /\ selectColumnNames (dtableSchemaColumns sampleColumns)
         [js "Surname"; js "Ghost"] = Ok [js "Title"; js "Surname"].
Proof.
  intros Hd. rewrite Hd.
  exists (name first :: List.filter (knownName (first :: others)) columnNames).
  assert (Hsel : selectColumnNames (first :: others) columnNames
                 = Ok (name first
                       :: List.filter (knownName (first :: others))
                            columnNames)).
  { unfold selectColumnNames.
    rewrite (filter_ext _ (knownName (first :: others)))
      by (intros n; apply find_known).
    cbn [List.filter]. unfold knownName at 1. cbn [existsb].
    rewrite jsstring_eqb_refl. reflexivity. }
  split; [exact Hsel|]. split; [reflexivity|]. split; [|split].
  - intros n [<-|Hin].
    + exists first. split; [|reflexivity].
      assert (Hf : In first (dtableSchemaColumns declared))
        by (rewrite Hd; left; reflexivity).
      apply filter_In in Hf. tauto.
    + apply filter_In in Hin. destruct Hin as [_ Hk].
      apply knownName_In in Hk. destruct Hk as (c & Hc & E).
      exists c. split; [|exact E].
      rewrite <- Hd in Hc. apply filter_In in Hc. tauto.
  - intros Hnd. cbn [List.tl]. apply NoDup_filter, Hnd.
  - reflexivity.
Qed.

Lemma selectColumnNames_first_then_known_witness :
  selectColumnNames (dtableSchemaColumns sampleColumns)
    [js "Ghost"; js "Surname"; js "Title"]
  = Ok [js "Title"; js "Surname"; js "Title"].
Proof.
  destruct (selectColumnNames_first_then_known sampleColumns
              (Column (js "0000") (js "Title") (js "text"))
              [Column (js "Xk3q") (js "Surname") (js "text")]
              [js "Ghost"; js "Surname"; js "Title"] eq_refl)
    as (names & Hs & -> & _).
  exact Hs.
Defined.

(** C4 as stated fails: when the user requests the first declared column,
    its name is in the final list twice; and a requested column of the
    table whose type [schema.columnTypes] lacks is dropped. *)
Lemma selectColumnNames_repeats_first :
  selectColumnNames (dtableSchemaColumns sampleColumns)
    [js "Title"; js "Surname"]
  = Ok [js "Title"; js "Title"; js "Surname"]
  /\ ~ NoDup [js "Title"; js "Title"; js "Surname"]
  /\ (dtableColumns <- apiDtableColumns sampleTables (js "People") ;;
      selectColumnNames dtableColumns [js "Photo"; js "Surname"])
     = Ok [js "Title"; js "Surname"].
Proof.
  split; [reflexivity|]. split; [|reflexivity].
  intros H. inversion H as [|x l Hx _]. apply Hx. left. reflexivity.
Qed.

Section FormatFacts.

Import Order.

Variable row : IRow.

Local Abbreviation step := (storeStep row).

Lemma member_In (k : jsstring) (l : list jsstring) :
  member k l = true <-> In k l.
Proof.
  unfold member. rewrite existsb_exists. split.
  - intros (y & Hy & E). apply jsstring_eqb_eq in E. subst y. exact Hy.
  - intros H. exists k. split; [exact H|apply jsstring_eqb_refl].
Qed.

Lemma format_get :
  forall (names : list jsstring) (out : IRow) (c : jsstring),
    Obj.get (fold_left step names out) c =
    if member c names then rowFormatColumn (Obj.get row c)
    else Obj.get out c.
Proof.
  induction names as [|n t IH]; intros out c; [reflexivity|].
  cbn [fold_left]. rewrite IH. unfold member. cbn [existsb].
  fold (member c t). destruct (member c t); [rewrite orb_true_r; reflexivity|].
  rewrite orb_false_r. unfold storeStep at 1.
  destruct (jsstring_eqb c n) eqn:E.
  - apply jsstring_eqb_eq in E. subst n. apply get_set_same.
  - apply get_set_other. intros ->. rewrite jsstring_eqb_refl in E.
    discriminate E.
Qed.

Lemma keys_update (o : object) (k : jsstring) (v : value) :
  Obj.keys (Obj.update o k v) = Obj.keys o.
Proof.
  induction o as [|[k' v'] t IH]; simpl; [reflexivity|].
  destruct (jsstring_eqb k' k); simpl; [reflexivity|].
  f_equal. exact IH.
Qed.

Lemma keys_insertIndex (n : N) (o : object) (k : jsstring) (v : value) :
  Obj.keys (Obj.insertIndex n k v o) = insertKey n k (Obj.keys o).
Proof.
  induction o as [|[k' v'] t IH]; simpl; [reflexivity|].
  destruct (Obj.arrayIndex k') as [m|]; [|reflexivity].
  destruct (n <? m)%N; simpl; [reflexivity|]. f_equal. exact IH.
Qed.

Lemma keys_set (o : object) (k : jsstring) (v : value) :
  Obj.keys (Obj.set o k v) =
  if member k (Obj.keys o) then Obj.keys o
  else match Obj.arrayIndex k with
       | Some n => insertKey n k (Obj.keys o)
       | None => Obj.keys o ++ [k]
       end.
Proof.
  unfold Obj.set.
  assert (E : Obj.has o k = member k (Obj.keys o)).
  { destruct (Obj.has o k) eqn:H.
    - symmetry. apply member_In, has_In, H.
    - destruct (member k (Obj.keys o)) eqn:M; [|reflexivity].
      apply member_In, has_In in M. congruence. }
  rewrite E. destruct (member k (Obj.keys o)); [apply keys_update|].
  destruct (Obj.arrayIndex k) as [n|]; [apply keys_insertIndex|].
  unfold Obj.keys. rewrite map_app. reflexivity.
Qed.

End FormatFacts.

Section KeyOrderFacts.

Import Order.

Lemma insertKey_app (m : N) (n : jsstring) (strs : list jsstring) :
  Forall (fun k => isIndex k = false) strs ->
  forall idx,
    Forall (fun k => isIndex k = true) idx ->
    insertKey m n (idx ++ strs) = insertKey m n idx ++ strs.
Proof.
  intros Hs. induction idx as [|k t IH]; intros Hi.
  - destruct strs as [|k' t']; [reflexivity|].
    inversion Hs as [|? ? Hk _]. unfold isIndex in Hk. simpl.
    destruct (Obj.arrayIndex k'); [discriminate Hk|reflexivity].
  - inversion Hi as [|? ? Hk Ht]. subst. simpl.
    destruct (Obj.arrayIndex k) as [m'|]; [|reflexivity].
    destruct (m <? m')%N; [reflexivity|]. simpl. f_equal. apply IH, Ht.
Qed.

Lemma insertKey_perm (m : N) (n : jsstring) :
  forall idx, Permutation (insertKey m n idx) (n :: idx).
Proof.
  induction idx as [|k t IH]; simpl; [apply Permutation_refl|].
  destruct (Obj.arrayIndex k) as [m'|]; [|apply Permutation_refl].
  destruct (m <? m')%N; [apply Permutation_refl|].
  apply Permutation_trans with (k :: n :: t).
  - apply perm_skip, IH.
  - apply perm_swap.
Qed.

Lemma insertKey_sorted (m : N) (n : jsstring) :
  Obj.arrayIndex n = Some m ->
  forall idx,
    Forall (fun k => isIndex k = true) idx ->
    StronglySorted indexLe idx ->
    StronglySorted indexLe (insertKey m n idx).
Proof.
  intros Hn. induction idx as [|k t IH]; intros Hi Hs.
  - simpl. constructor; constructor.
  - inversion Hi as [|? ? Hk Ht]. subst.
    apply StronglySorted_inv in Hs. destruct Hs as [Hs Hf].
    simpl. unfold isIndex in Hk.
    destruct (Obj.arrayIndex k) as [m'|] eqn:Ek; [|discriminate Hk].
    destruct (N.ltb_spec m m') as [Hlt|Hge].
    + constructor; [constructor; assumption|].
      assert (Hnk : indexLe n k).
      { unfold indexLe, indexValue. rewrite Hn, Ek. lia. }
      constructor; [exact Hnk|].
      eapply Forall_impl; [|exact Hf].
      intros x Hx. unfold indexLe in *. lia.
    + constructor; [apply IH; assumption|].
      apply (Permutation_Forall (Permutation_sym (insertKey_perm m n t))).
      constructor; [|exact Hf].
      unfold indexLe, indexValue. rewrite Hn, Ek. exact Hge.
Qed.

Lemma dedupe_In (l : list jsstring) :
  forall seen k,
    In k (Spec.dedupe seen l) <-> In k l /\ ~ In k seen.
Proof.
  induction l as [|x t IH]; intros seen k; simpl; [tauto|].
  destruct (existsb (jsstring_eqb x) seen) eqn:E.
  - fold (member x seen) in E. apply member_In in E. rewrite IH.
    split; [tauto|]. intros [[->|H] Hn]; [contradiction|tauto].
  - assert (Hx : ~ In x seen).
    { intros H. apply member_In in H. unfold member in H. congruence. }
    simpl. rewrite IH. simpl.
    destruct (list_eq_dec N.eq_dec x k) as [->|Hne]; [tauto|].
    split; [|tauto]. intros [H|[H1 H2]]; [contradiction|]. tauto.
Qed.

Lemma dedupe_snoc (n : jsstring) (l : list jsstring) :
  forall seen,
    Spec.dedupe seen (l ++ [n]) =
    Spec.dedupe seen l ++
    (if member n seen || member n l then [] else [n]).
Proof.
  induction l as [|x t IH]; intros seen.
  - simpl. fold (member n seen). rewrite orb_false_r.
    destruct (member n seen); reflexivity.
  - cbn [app Spec.dedupe].
    destruct (existsb (jsstring_eqb x) seen) eqn:E.
    + rewrite IH. f_equal. unfold member at 4. cbn [existsb].
      fold (member n t).
      destruct (jsstring_eqb n x) eqn:Ex; [|reflexivity].
      apply jsstring_eqb_eq in Ex. subst x. unfold member at 1 3.
      rewrite E. reflexivity.
    + rewrite IH. cbn [app]. f_equal. f_equal.
      unfold member at 1 4. cbn [existsb].
      fold (member n seen). fold (member n t).
      destruct (jsstring_eqb n x), (member n seen), (member n t);
        reflexivity.
Qed.

Lemma dedupe_NoDup (l : list jsstring) :
  NoDup l ->
  forall seen, (forall k, In k l -> ~ In k seen) -> Spec.dedupe seen l = l.
Proof.
  induction 1 as [|x t Hx Ht IH]; intros seen Hs; [reflexivity|].
  simpl. destruct (existsb (jsstring_eqb x) seen) eqn:E.
  - fold (member x seen) in E. apply member_In in E.
    exfalso. apply (Hs x); [left; reflexivity|exact E].
  - f_equal. apply IH. intros k Hk [<-|H]; [contradiction|].
    apply (Hs k); [right; exact Hk|exact H].
Qed.

Variable row : IRow.

Local Abbreviation step := (storeStep row).

Lemma format_keys_inv :
  forall (rest : list jsstring) (out : IRow) (p idx : list jsstring),
    Obj.keys out = idx ++ otherKeys p ->
    Permutation idx (indexKeys p) ->
    StronglySorted indexLe idx ->
    exists idx',
      Obj.keys (fold_left step rest out) = idx' ++ otherKeys (p ++ rest)
      /\ Permutation idx' (indexKeys (p ++ rest))
      /\ StronglySorted indexLe idx'.
Proof.
  induction rest as [|n t IH]; intros out p idx Hk Hp Hs.
  - exists idx. rewrite app_nil_r. auto.
  - cbn [fold_left].
    replace (p ++ n :: t) with ((p ++ [n]) ++ t)
      by (rewrite <- app_assoc; reflexivity).
    assert (Hidx : Forall (fun k => isIndex k = true) idx).
    { apply (Permutation_Forall (Permutation_sym Hp)).
      apply Forall_forall. intros k Hin. apply filter_In in Hin. tauto. }
    assert (Hoth : Forall (fun k => isIndex k = false) (otherKeys p)).
    { apply Forall_forall. intros k Hin. apply filter_In in Hin.
      destruct Hin as [_ Hin]. destruct (isIndex k); [discriminate|].
      reflexivity. }
    assert (Hmem : member n (Obj.keys out) = member n p).
    { destruct (member n p) eqn:M.
      - apply member_In. apply member_In in M. rewrite Hk.
        apply in_app_iff.
        assert (Hd : In n (Spec.dedupe [] p))
          by (apply dedupe_In; split; [exact M|intros []]).
        destruct (isIndex n) eqn:Ei.
        + left. apply (Permutation_in _ (Permutation_sym Hp)).
          apply filter_In. split; assumption.
        + right. apply filter_In. split; [exact Hd|].
          rewrite Ei. reflexivity.
      - destruct (member n (Obj.keys out)) eqn:M'; [|reflexivity].
        apply member_In in M'. rewrite Hk in M'. apply in_app_iff in M'.
        assert (Hd : In n (Spec.dedupe [] p)).
        { destruct M' as [M'|M'].
          - apply (Permutation_in _ Hp) in M'. apply filter_In in M'. tauto.
          - apply filter_In in M'. tauto. }
        apply dedupe_In in Hd. destruct Hd as [Hd _].
        apply member_In in Hd. congruence. }
    assert (Hsn : Spec.dedupe [] (p ++ [n]) =
                  Spec.dedupe [] p ++ (if member n p then [] else [n])).
    { rewrite dedupe_snoc. reflexivity. }
    unfold storeStep. destruct (member n p) eqn:M.
    + apply (IH _ (p ++ [n]) idx).
      * rewrite keys_set, Hmem, Hk. unfold otherKeys.
        rewrite Hsn, app_nil_r. reflexivity.
      * unfold indexKeys. rewrite Hsn, app_nil_r. exact Hp.
      * exact Hs.
    + destruct (Obj.arrayIndex n) as [m|] eqn:En.
      * assert (Ei : isIndex n = true)
          by (unfold isIndex; rewrite En; reflexivity).
        apply (IH _ (p ++ [n]) (insertKey m n idx)).
        -- rewrite keys_set, Hmem, En, Hk.
           rewrite (insertKey_app m n (otherKeys p) Hoth idx Hidx).
           unfold otherKeys. rewrite Hsn, filter_app. cbn [List.filter].
           rewrite Ei. cbn [negb]. rewrite app_nil_r. reflexivity.
        -- unfold indexKeys. rewrite Hsn, filter_app. cbn [List.filter].
           rewrite Ei.
           apply Permutation_trans with (n :: idx);
             [apply insertKey_perm|].
           apply Permutation_trans with (n :: List.filter isIndex
                                                (Spec.dedupe [] p)).
           ++ apply perm_skip, Hp.
           ++ apply Permutation_cons_append.
        -- apply insertKey_sorted; assumption.
      * assert (Ei : isIndex n = false)
          by (unfold isIndex; rewrite En; reflexivity).
        apply (IH _ (p ++ [n]) idx).
        -- rewrite keys_set, Hmem, En, Hk. unfold otherKeys.
           rewrite Hsn, filter_app. cbn [List.filter].
           rewrite Ei. cbn [negb]. rewrite app_assoc. reflexivity.
        -- unfold indexKeys. rewrite Hsn, filter_app. cbn [List.filter].
           rewrite Ei. rewrite app_nil_r. exact Hp.
        -- exact Hs.
Qed.

End KeyOrderFacts.

Section AssignmentFacts.

Import Order.

Lemma In_keys_set (o : object) (n : jsstring) (v : value) (k : jsstring) :
  In k (Obj.keys (Obj.set o n v)) <-> In k (Obj.keys o) \/ k = n.
Proof.
  rewrite keys_set. destruct (member n (Obj.keys o)) eqn:M.
  - apply member_In in M. split; [tauto|]. intros [H| ->]; assumption.
  - destruct (Obj.arrayIndex n) as [m|].
    + split.
      * intros H. apply (Permutation_in _ (insertKey_perm m n _)) in H.
        destruct H as [<-|H]; tauto.
      * intros H.
        apply (Permutation_in _ (Permutation_sym (insertKey_perm m n _))).
        destruct H as [H| ->]; [right; exact H|left; reflexivity].
    + rewrite in_app_iff. simpl. intuition congruence.
Qed.

Lemma member_cons (k n : jsstring) (t : list jsstring) :
  member k (n :: t) = jsstring_eqb k n || member k t.
Proof. reflexivity. Qed.

Lemma has_set_other (o : object) (c k : jsstring) (v : value) :
  k <> c -> Obj.has (Obj.set o c v) k = Obj.has o k.
Proof.
  intros Hk. destruct (Obj.has o k) eqn:H.
  - apply has_In, In_keys_set. left. apply has_In, H.
  - destruct (Obj.has (Obj.set o c v) k) eqn:H'; [|reflexivity].
    apply has_In, In_keys_set in H'. destruct H' as [H'|H']; [|contradiction].
    apply has_In in H'. congruence.
Qed.

Lemma put_direct (out : object) (c : jsstring) (v : value) :
  Obj.put (Obj.Target out false) c v = Obj.Target (Obj.set out c v) false.
Proof.
  unfold Obj.put. cbn [Obj.accessor Obj.own]. rewrite andb_false_r.
  reflexivity.
Qed.

Lemma put_other (o : Obj.target) (c : jsstring) (v : value) :
  c <> protoName ->
  Obj.put o c v = Obj.Target (Obj.set (Obj.own o) c v) (Obj.accessor o).
Proof.
  intros H. unfold Obj.put. rewrite (jsstring_eqb_neq c protoName H).
  reflexivity.
Qed.

Lemma put_proto (out : object) (v : value) :
  Obj.has out protoName = false ->
  Obj.put (Obj.Target out true) protoName v
  = match v with
    | VNull => Obj.Target out false
    | VObject fields => Obj.Target out (negb (Obj.has fields protoName))
    | _ => Obj.Target out true
    end.
Proof.
  intros H. unfold Obj.put. cbn [Obj.accessor Obj.own].
  rewrite jsstring_eqb_refl, H. reflexivity.
Qed.

(** An assignment never removes a property, and it stores under no name
    but its own. *)
Lemma put_keys_inv (o : Obj.target) (c : jsstring) (v : value) (k : jsstring) :
  In k (Obj.keys (Obj.own (Obj.put o c v))) ->
  In k (Obj.keys (Obj.own o)) \/ k = c.
Proof.
  unfold Obj.put.
  destruct (jsstring_eqb c protoName && Obj.accessor o
            && negb (Obj.has (Obj.own o) c))%bool.
  - destruct v; cbn [Obj.own]; tauto.
  - cbn [Obj.own]. intros H. apply In_keys_set in H. exact H.
Qed.

Lemma put_keys_kept (o : Obj.target) (c : jsstring) (v : value)
    (k : jsstring) :
  In k (Obj.keys (Obj.own o)) -> In k (Obj.keys (Obj.own (Obj.put o c v))).
Proof.
  unfold Obj.put.
  destruct (jsstring_eqb c protoName && Obj.accessor o
            && negb (Obj.has (Obj.own o) c))%bool.
  - destruct v; cbn [Obj.own]; tauto.
  - cbn [Obj.own]. intros H. apply In_keys_set. left. exact H.
Qed.

Lemma put_keys_own (o : Obj.target) (c : jsstring) (v : value) :
  c <> protoName -> In c (Obj.keys (Obj.own (Obj.put o c v))).
Proof.
  intros H. rewrite (put_other o c v H). cbn [Obj.own].
  apply In_keys_set. right. reflexivity.
Qed.

Lemma put_get_other (o : Obj.target) (c k : jsstring) (v : value) :
  k <> c -> Obj.get (Obj.own (Obj.put o c v)) k = Obj.get (Obj.own o) k.
Proof.
  intros Hk. unfold Obj.put.
  destruct (jsstring_eqb c protoName && Obj.accessor o
            && negb (Obj.has (Obj.own o) c))%bool.
  - destruct v; reflexivity.
  - cbn [Obj.own]. apply get_set_other, Hk.
Qed.

Lemma put_get_same (o : Obj.target) (c : jsstring) (v : value) :
  c <> protoName -> Obj.get (Obj.own (Obj.put o c v)) c = v.
Proof.
  intros H. rewrite (put_other o c v H). cbn [Obj.own]. apply get_set_same.
Qed.

Lemma dropFirst_In (k c : jsstring) (l : list jsstring) :
  In c (dropFirst k l) -> In c l.
Proof.
  induction l as [|x t IH]; cbn [dropFirst]; [tauto|].
  destruct (jsstring_eqb x k); cbn [In]; tauto.
Qed.

Lemma dropFirst_other (k c : jsstring) (l : list jsstring) :
  c <> k -> In c l -> In c (dropFirst k l).
Proof.
  intros Hc. induction l as [|x t IH]; cbn [dropFirst]; [tauto|].
  destruct (jsstring_eqb x k) eqn:E; cbn [In].
  - apply jsstring_eqb_eq in E. subst x. intros [H|H]; [congruence|exact H].
  - tauto.
Qed.

Lemma dropFirst_absent (k : jsstring) (l : list jsstring) :
  ~ In k l -> dropFirst k l = l.
Proof.
  induction l as [|x t IH]; cbn [dropFirst In]; [reflexivity|].
  intros H. rewrite (jsstring_eqb_neq x k) by tauto.
  f_equal. apply IH. tauto.
Qed.

Lemma filter_absent (k : jsstring) (l : list jsstring) :
  ~ In k l ->
  List.filter (fun c => negb (jsstring_eqb c k)) l = l.
Proof.
  induction l as [|x t IH]; cbn [List.filter In]; [reflexivity|].
  intros H. rewrite (jsstring_eqb_neq x k) by tauto. cbn [negb].
  f_equal. apply IH. tauto.
Qed.

Variable row : IRow.

Lemma format_direct :
  forall (names : list jsstring) (out : IRow),
    fold_left (formatStep row) names (Obj.Target out false)
    = Obj.Target (fold_left (storeStep row) names out) false.
Proof.
  induction names as [|c t IH]; intros out; [reflexivity|].
  cbn [fold_left]. unfold formatStep at 2. rewrite put_direct. apply IH.
Qed.

Lemma format_null :
  rowFormatColumn (Obj.get row protoName) = VNull ->
  forall (names : list jsstring) (out : IRow),
    Obj.has out protoName = false ->
    Obj.own (fold_left (formatStep row) names (Obj.Target out true))
    = fold_left (storeStep row) (dropFirst protoName names) out.
Proof.
  intros F. induction names as [|c t IH]; intros out H; [reflexivity|].
  cbn [fold_left dropFirst]. unfold formatStep at 2.
  destruct (jsstring_eqb c protoName) eqn:E.
  - apply jsstring_eqb_eq in E. subst c.
    rewrite F, (put_proto out VNull H), format_direct. reflexivity.
  - assert (Hc : c <> protoName)
      by (intros ->; rewrite jsstring_eqb_refl in E; discriminate E).
    rewrite (put_other _ c _ Hc). cbn [Obj.own Obj.accessor fold_left].
    apply IH. unfold storeStep. rewrite has_set_other; [exact H|congruence].
Qed.

Lemma format_kept :
  rowFormatColumn (Obj.get row protoName) <> VNull ->
  forall (names : list jsstring) (out : IRow),
    Obj.has out protoName = false ->
    Obj.own (fold_left (formatStep row) names (Obj.Target out true))
    = fold_left (storeStep row)
        (List.filter (fun c => negb (jsstring_eqb c protoName)) names) out.
Proof.
  intros F. induction names as [|c t IH]; intros out H; [reflexivity|].
  cbn [fold_left List.filter]. unfold formatStep at 2.
  destruct (jsstring_eqb c protoName) eqn:E.
  - apply jsstring_eqb_eq in E. subst c. cbn [negb].
    rewrite (put_proto out _ H).
    replace (match rowFormatColumn (Obj.get row protoName) with
             | VNull => Obj.Target out false
             | VObject fields =>
                 Obj.Target out (negb (Obj.has fields protoName))
             | _ => Obj.Target out true
             end) with (Obj.Target out true)
      by (destruct (Obj.get row protoName) as [| | | | |xs| |];
          cbn [rowFormatColumn] in *; try congruence;
          destruct (forallb isString xs); congruence).
    apply IH, H.
  - assert (Hc : c <> protoName)
      by (intros ->; rewrite jsstring_eqb_refl in E; discriminate E).
    rewrite (put_other _ c _ Hc). cbn [Obj.own Obj.accessor fold_left negb].
    apply IH. unfold storeStep. rewrite has_set_other; [exact H|congruence].
Qed.

(** [rowFormatColumns] stores, in their order, under the names that
    [storedNames] lists. *)
Lemma rowFormatColumns_stored (columnNames : list jsstring) :
  rowFormatColumns row columnNames
  = fold_left (storeStep row) (storedNames row columnNames) [].
Proof.
  unfold rowFormatColumns, storedNames, Obj.literal.
  destruct (rowFormatColumn (Obj.get row protoName)) eqn:F;
    first [ apply format_null; [exact F|reflexivity]
          | apply format_kept; [rewrite F; discriminate|reflexivity] ].
Qed.

Lemma stored_In (columnNames : list jsstring) (c : jsstring) :
  In c (storedNames row columnNames) -> In c columnNames.
Proof.
  unfold storedNames.
  destruct (rowFormatColumn (Obj.get row protoName));
    first [ apply dropFirst_In | intros H; apply filter_In in H; tauto ].
Qed.

Lemma stored_other (columnNames : list jsstring) (c : jsstring) :
  c <> protoName -> In c columnNames -> In c (storedNames row columnNames).
Proof.
  intros Hc H. unfold storedNames.
  destruct (rowFormatColumn (Obj.get row protoName));
    first [ apply dropFirst_other; assumption
          | apply filter_In; split;
            [exact H|rewrite (jsstring_eqb_neq c protoName Hc); reflexivity] ].
Qed.

Lemma stored_plain (columnNames : list jsstring) :
  ~ In protoName columnNames -> storedNames row columnNames = columnNames.
Proof.
  intros H. unfold storedNames.
  destruct (rowFormatColumn (Obj.get row protoName));
    first [ apply dropFirst_absent, H | apply filter_absent, H ].
Qed.

Lemma stored_proto (columnNames : list jsstring) :
  In protoName (storedNames row columnNames) ->
  rowFormatColumn (Obj.get row protoName) = VNull.
Proof.
  unfold storedNames.
  destruct (rowFormatColumn (Obj.get row protoName)); try reflexivity;
    intros H; apply filter_In in H; destruct H as [_ H];
    rewrite jsstring_eqb_refl in H; discriminate H.
Qed.

Lemma rowFormatColumns_get (columnNames : list jsstring) (c : jsstring) :
  Obj.get (rowFormatColumns row columnNames) c
  = if member c (storedNames row columnNames)
    then rowFormatColumn (Obj.get row c)
    else VUndefined.
Proof. rewrite rowFormatColumns_stored. apply format_get. Qed.

End AssignmentFacts.

(** C3, as the code has it.  [rowFormatColumns] stores a property under
    every requested name but [__proto__]: an assignment under that name
    runs the setter of [Object.prototype], so a request for [__proto__]
    alone gives a row without keys (a second request for it stores null,
    when the first has taken the row off the prototype chain).  The keys
    of the returned row are exactly the distinct names stored, in the order
    in which the language enumerates own properties: the names that are
    array indices first, in ascending numeric order, then the other names in
    the order of their first request; so the keys are the requested list
    itself when it has no duplicate, no array index and no [__proto__].
    The value under a key is the row's value when that is a boolean, a
    number, a string or an array of strings, and null otherwise; a
    requested name that the row lacks is present with the value null. *)
Theorem rowFormatColumns_keys_and_values (row : IRow)
    (columnNames : list jsstring) :
  let names := storedNames row columnNames in
  (~ In protoName columnNames -> names = columnNames)
  /\ (forall c, c <> protoName -> (In c names <-> In c columnNames))
  /\ (In protoName names ->
      In protoName columnNames
      /\ rowFormatColumn (Obj.get row protoName) = VNull)
  /\ Obj.keys (rowFormatColumns row [protoName]) = []
  /\ (forall c, In c (Obj.keys (rowFormatColumns row columnNames))
                <-> In c names)
  /\ (exists idx,
        Obj.keys (rowFormatColumns row columnNames)
        = idx ++ Order.otherKeys names
        /\ Permutation idx (Order.indexKeys names)
        /\ StronglySorted Order.indexLe idx)
  /\ (NoDup columnNames ->
      Forall (fun c => Order.isIndex c = false) columnNames ->
      ~ In protoName columnNames ->
      Obj.keys (rowFormatColumns row columnNames) = columnNames)
  /\ (forall c, In c names ->
        Obj.get (rowFormatColumns row columnNames) c
        = rowFormatColumn (Obj.get row c))
  /\ (forall c, In c names -> Obj.has row c = false ->
        Obj.get (rowFormatColumns row columnNames) c = VNull)
  /\ (forall v, whitelisted v = true -> rowFormatColumn v = v)
  /\ (forall v, whitelisted v = false -> rowFormatColumn v = VNull).
Proof.
  intros names.
  destruct (format_keys_inv row names [] [] [] eq_refl
              (Permutation_refl _) (SSorted_nil _))
    as (idx & Hk & Hp & Hs).
  cbn [app] in Hk, Hp.
  assert (Es : rowFormatColumns row columnNames
               = fold_left (storeStep row) names [])
    by apply rowFormatColumns_stored.
  rewrite <- Es in Hk.
  assert (Hin : forall c, In c (Obj.keys (rowFormatColumns row columnNames))
                          <-> In c names).
  { intros c. rewrite Hk, in_app_iff. unfold Order.otherKeys.
    rewrite filter_In.
    assert (Hd : In c (Spec.dedupe [] names) <-> In c names).
    { rewrite dedupe_In. simpl. tauto. }
    split.
    - intros [H|[H _]]; [|apply Hd, H].
      apply (Permutation_in _ Hp) in H. apply filter_In in H.
      apply Hd. tauto.
    - intros H. apply Hd in H. destruct (Order.isIndex c) eqn:E.
      + left. apply (Permutation_in _ (Permutation_sym Hp)).
        apply filter_In. split; assumption.
      + right. split; [exact H|reflexivity]. }
  assert (Hget : forall c, In c names ->
            Obj.get (rowFormatColumns row columnNames) c
            = rowFormatColumn (Obj.get row c)).
  { intros c Hc. rewrite rowFormatColumns_get. fold names.
    apply member_In in Hc. rewrite Hc. reflexivity. }
  split; [apply stored_plain|].
  split.
  { intros c Hc. split; [apply stored_In|apply stored_other, Hc]. }
  split.
  { intros H. split; [apply (stored_In row), H|apply (stored_proto row _ H)]. }
  split.
  { rewrite rowFormatColumns_stored. unfold storedNames.
    cbn [dropFirst List.filter]. unfold protoName at 2 4.
    rewrite jsstring_eqb_refl. cbn [negb].
    destruct (rowFormatColumn (Obj.get row protoName)); reflexivity. }
  split; [exact Hin|]. split; [exists idx; auto|]. split; [|split; [|split]].
  - intros Hnd Hni Hpr.
    assert (En : names = columnNames) by (apply stored_plain, Hpr).
    rewrite En in Hk, Hp.
    assert (Hd : Spec.dedupe [] columnNames = columnNames)
      by (apply dedupe_NoDup; [exact Hnd|intros k _ []]).
    assert (Hi : List.filter Order.isIndex columnNames = []).
    { clear - Hni. induction Hni as [|x l Hx _ IH]; [reflexivity|].
      simpl. rewrite Hx. exact IH. }
    assert (Ho : List.filter (fun k => negb (Order.isIndex k)) columnNames
                 = columnNames).
    { clear - Hni. induction Hni as [|x l Hx _ IH]; [reflexivity|].
      simpl. rewrite Hx. cbn [negb]. f_equal. exact IH. }
    unfold Order.indexKeys in Hp. unfold Order.otherKeys in Hk.
    rewrite Hd in Hp, Hk. rewrite Hi in Hp. rewrite Ho in Hk.
    apply Permutation_sym, Permutation_nil in Hp. subst idx. exact Hk.
  - exact Hget.
  - intros c Hc Hh. rewrite (Hget c Hc), (get_absent row c Hh). reflexivity.
  - split; intros v Hv; destruct v; try reflexivity; simpl in *;
      try discriminate Hv; rewrite Hv; reflexivity.
Qed.

Lemma rowFormatColumns_keys_and_values_witness :
  Obj.keys (rowFormatColumns sampleRowB [js "Title"; js "_seq"])
  = [js "Title"; js "_seq"]
  /\ Obj.get (rowFormatColumns sampleRowB [js "Title"; js "_seq"]) (js "Title")
     = VNull.
Proof.
  pose proof (rowFormatColumns_keys_and_values sampleRowB
                [js "Title"; js "_seq"])
    as (_ & _ & _ & _ & _ & _ & Hk & _ & Hm & _).
  split.
  - apply Hk.
    + repeat constructor; simpl; intuition discriminate.
    + repeat constructor.
    + simpl. intuition discriminate.
  - apply Hm; [left; reflexivity|reflexivity].
Defined.

(** C3 as stated fails: an array index among the requested names comes
    first whatever the requested order, a repeated name gives one key, and
    a request for [__proto__] gives none. *)
Lemma rowFormatColumns_keys_not_as_requested :
  Obj.keys (rowFormatColumns [] [js "b"; js "1"]) = [js "1"; js "b"]
  /\ Obj.keys (rowFormatColumns [] [js "b"; js "1"]) <> [js "b"; js "1"]
  /\ Obj.keys (rowFormatColumns [] [js "a"; js "a"]) = [js "a"]
  /\ Obj.keys (rowFormatColumns [] [js "a"; js "__proto__"]) = [js "a"].
Proof.
  split; [reflexivity|]. split; [discriminate|]. split; reflexivity.
Qed.

Section PagingFacts.

Lemma startOf_succ (n : nat) :
  (startOf n + inject_Z (Z.of_N segment))%Q = startOf (S n).
Proof.
  unfold startOf, inject_Z, Qplus. cbn [Qnum Qden].
  change (Z.of_N segment) with 1000%Z. f_equal. lia.
Qed.

Lemma pageQuery_next (q0 : object) (n : nat) (q : object) :
  pageQuery q0 n q ->
  pageQuery q0 (S n)
    (Obj.set q startName
       (VNumber (toNumber (Obj.get q startName)
                 + inject_Z (Z.of_N segment))%Q)).
Proof.
  intros (Hs & Hl & Ho). split; [|split].
  - rewrite get_set_same, Hs. cbn [toNumber]. rewrite startOf_succ.
    reflexivity.
  - rewrite get_set_other by discriminate. exact Hl.
  - intros k Hk1 Hk2. rewrite get_set_other by exact Hk1.
    apply Ho; assumption.
Qed.

Lemma pageQuery_first (q0 : object) :
  pageQuery q0 0
    (Obj.set (Obj.set q0 startName (VNumber 0%Q)) limitName
       (VNumber (inject_Z (Z.of_N segment)))).
Proof.
  split; [|split].
  - rewrite get_set_other by discriminate. apply get_set_same.
  - apply get_set_same.
  - intros k Hk1 Hk2. rewrite !get_set_other by assumption. reflexivity.
Qed.

Lemma nth_error_snoc {A : Type} (l : list A) (x : A) (i : nat) (y : A) :
  nth_error (l ++ [x]) i = Some y ->
  nth_error l i = Some y \/ (i = length l /\ y = x).
Proof.
  intros H. destruct (Nat.lt_ge_cases i (length l)) as [Hlt|Hge].
  - left. rewrite nth_error_app1 in H by exact Hlt. exact H.
  - right. rewrite nth_error_app2 in H by exact Hge.
    destruct (i - length l) as [|j] eqn:E.
    + simpl in H. injection H as <-. split; [lia|reflexivity].
    + simpl in H. destruct j; discriminate H.
Qed.

Variable srv : server.
Variable q0 : object.

Lemma loop_requests :
  forall (fuel n : nat) (query : object) (returnData : list IRow)
         (sent : list object),
    pageQuery q0 n query ->
    length sent = n ->
    (forall i q, nth_error sent i = Some q -> pageQuery q0 i q) ->
    let r := apiRequestLoop srv fuel n query returnData sent in
    (forall i q, nth_error (requests_of r) i = Some q -> pageQuery q0 i q)
    /\ pageQuery q0 (length (requests_of r)
                     - match outcome_of r with Throw _ => 1 | _ => 0 end)
         (query_of r).
Proof.
  induction fuel as [|fuel IH]; intros n query returnData sent Hq Hl Hs.
  - cbn. split; [exact Hs|]. rewrite Hl, Nat.sub_0_r. exact Hq.
  - assert (Hsnoc : forall i q, nth_error (sent ++ [query]) i = Some q ->
                                pageQuery q0 i q).
    { intros i q H. apply nth_error_snoc in H.
      destruct H as [H|[-> ->]]; [apply Hs, H|]. rewrite Hl. exact Hq. }
    assert (Hlen : length (sent ++ [query]) = S n)
      by (rewrite length_app; simpl; lia).
    cbn [apiRequestLoop]. destruct (srv n query) as [|rows].
    + cbn. split; [exact Hsnoc|]. rewrite Hlen.
      replace (S n - 1) with n by lia. exact Hq.
    + pose proof (pageQuery_next q0 n query Hq) as Hq'.
      destruct (match rows with
                | Some rs => (segment - 1 <? N.of_nat (length rs))%N
                | None => false
                end).
      * apply IH; assumption.
      * cbn. split; [exact Hsnoc|]. rewrite Hlen, Nat.sub_0_r. exact Hq'.
Qed.

End PagingFacts.

Section PagesFacts.

Variable pages : nat -> list IRow.
Variable k : nat.

Hypothesis full_before :
  forall i, i < k -> (999 < N.of_nat (length (pages i)))%N.
Hypothesis short_at : (N.of_nat (length (pages k)) <= 999)%N.

Lemma loop_pages :
  forall (fuel n : nat) (query : object) (returnData : list IRow)
         (sent : list object),
    n <= k -> k - n < fuel ->
    let r := apiRequestLoop (serverOf pages) fuel n query returnData sent in
    outcome_of r
    = Ok (returnData ++ concat (List.map pages (seq n (S k - n))))
    /\ length (requests_of r) = length sent + (S k - n).
Proof.
  induction fuel as [|fuel IH]; intros n query returnData sent Hn Hf;
    [lia|].
  cbn [apiRequestLoop serverOf].
  change (segment - 1)%N with 999%N.
  destruct (Nat.eq_dec n k) as [->|Hne].
  - replace (999 <? N.of_nat (length (pages k)))%N with false
      by (symmetry; apply N.ltb_ge; exact short_at).
    cbn [outcome_of requests_of].
    replace (S k - k) with 1 by lia. cbn [seq List.map concat].
    rewrite app_nil_r, length_app. split; [reflexivity|cbn [length]; lia].
  - assert (Hlt : n < k) by lia.
    replace (999 <? N.of_nat (length (pages n)))%N with true
      by (symmetry; apply N.ltb_lt, full_before, Hlt).
    destruct (IH (S n)
                (Obj.set query startName
                   (VNumber (toNumber (Obj.get query startName)
                             + inject_Z (Z.of_N segment))%Q))
                (returnData ++ pages n) (sent ++ [query]))
      as [Ho Hr]; [lia|lia|].
    split.
    + rewrite Ho. replace (S k - n) with (S (S k - S n)) by lia.
      cbn [seq List.map concat]. rewrite app_assoc. reflexivity.
    + rewrite Hr, length_app. cbn [length]. lia.
Qed.

End PagesFacts.

Lemma loop_requests_grow (srv : server) :
  forall (fuel n : nat) (query : object) (returnData : list IRow)
         (sent : list object),
    length sent + (if Nat.eqb fuel 0 then 0 else 1)
    <= length (requests_of (apiRequestLoop srv fuel n query returnData sent)).
Proof.
  induction fuel as [|fuel IH]; intros n query returnData sent.
  - cbn [apiRequestLoop requests_of Nat.eqb]. lia.
  - cbn [apiRequestLoop Nat.eqb]. destruct (srv n query) as [|rows].
    + cbn [requests_of]. rewrite length_app. cbn [length]. lia.
    + destruct (match rows with
                | Some rs => (segment - 1 <? N.of_nat (length rs))%N
                | None => false
                end).
      * specialize (IH (S n)
                      (Obj.set query startName
                         (VNumber (toNumber (Obj.get query startName)
                                   + inject_Z (Z.of_N segment))%Q))
                      match rows with
                      | Some rs => returnData ++ rs
                      | None => returnData
                      end (sent ++ [query])).
        rewrite length_app in IH. cbn [length] in IH.
        destruct (Nat.eqb fuel 0); lia.
      * cbn [requests_of]. rewrite length_app. cbn [length]. lia.
Qed.

(** C1.  Against a server that answers request number i with the rows
    [pages i], where the pages before page k have more than 999 rows and
    page k has at most 999, [apiRequestAllItems] sends exactly k + 1
    requests, request i with [start] = 1000 i and [limit] = 1000, and returns
    the rows of pages 0 to k in that order.  So pages of 1000, 1000 and 500
    rows give three requests and 2500 rows, a first page of 999 rows gives
    one request and those rows, and a first page of 1000 rows is followed by
    a second request. *)
Theorem apiRequestAllItems_pages :
  (forall (pages : nat -> list IRow) (k fuel : nat) (query : option object),
     (forall i, i < k -> (999 < N.of_nat (length (pages i)))%N) ->
     (N.of_nat (length (pages k)) <= 999)%N ->
     k < fuel ->
     let r := apiRequestAllItems (serverOf pages) fuel query in
     outcome_of r = Ok (concat (List.map pages (seq 0 (S k))))
     /\ length (requests_of r) = S k
     /\ forall i q,
          nth_error (requests_of r) i = Some q ->
          Obj.get q startName = VNumber (startOf i)
          /\ Obj.get q limitName = VNumber 1000%Q)
  /\ (forall (pages : nat -> list IRow) (fuel : nat) (query : option object),
        N.of_nat (length (pages 0)) = 1000%N ->
        N.of_nat (length (pages 1)) = 1000%N ->
        N.of_nat (length (pages 2)) = 500%N ->
        2 < fuel ->
        let r := apiRequestAllItems (serverOf pages) fuel query in
        length (requests_of r) = 3
        /\ exists rows,
             outcome_of r = Ok rows
             /\ rows = pages 0 ++ pages 1 ++ pages 2
             /\ N.of_nat (length rows) = 2500%N)
  /\ (forall (pages : nat -> list IRow) (fuel : nat) (query : option object),
        N.of_nat (length (pages 0)) = 999%N ->
        0 < fuel ->
        let r := apiRequestAllItems (serverOf pages) fuel query in
        length (requests_of r) = 1 /\ outcome_of r = Ok (pages 0))
  /\ (forall (pages : nat -> list IRow) (fuel : nat) (query : option object),
        N.of_nat (length (pages 0)) = 1000%N ->
        1 < fuel ->
        let r := apiRequestAllItems (serverOf pages) fuel query in
        2 <= length (requests_of r)).
Proof.
  assert (General :
    forall (pages : nat -> list IRow) (k fuel : nat) (query : option object),
      (forall i, i < k -> (999 < N.of_nat (length (pages i)))%N) ->
      (N.of_nat (length (pages k)) <= 999)%N ->
      k < fuel ->
      let r := apiRequestAllItems (serverOf pages) fuel query in
      outcome_of r = Ok (concat (List.map pages (seq 0 (S k))))
      /\ length (requests_of r) = S k
      /\ forall i q,
           nth_error (requests_of r) i = Some q ->
           Obj.get q startName = VNumber (startOf i)
           /\ Obj.get q limitName = VNumber 1000%Q).
  { intros pages k fuel query Hfull Hshort Hfuel r. subst r.
    unfold apiRequestAllItems.
    destruct (loop_pages pages k Hfull Hshort fuel 0
                (Obj.set (Obj.set (callerQuery query) startName
                            (VNumber 0%Q)) limitName
                   (VNumber (inject_Z (Z.of_N segment)))) [] [])
      as [Ho Hr]; [lia|lia|].
    rewrite Nat.sub_0_r in Ho, Hr.
    split; [exact Ho|]. split; [exact Hr|].
    intros i q Hi.
    destruct (loop_requests (serverOf pages) (callerQuery query) fuel 0
                _ [] [] (pageQuery_first (callerQuery query)) eq_refl)
      as [Hq _].
    { intros j q' Hj. destruct j; discriminate Hj. }
    destruct (Hq i q Hi) as (Hs & Hl & _). split; assumption. }
  split; [exact General|]. split; [|split].
  - intros pages fuel query H0 H1 H2 Hf r.
    destruct (General pages 2 fuel query) as (Ho & Hr & _); [|lia|exact Hf|].
    { intros i Hi. destruct i as [|[|i]]; lia. }
    split; [exact Hr|].
    exists (pages 0 ++ pages 1 ++ pages 2). split; [|split].
    + subst r. rewrite Ho. cbn [seq List.map concat].
      rewrite app_nil_r. reflexivity.
    + reflexivity.
    + rewrite !length_app. lia.
  - intros pages fuel query H0 Hf r.
    destruct (General pages 0 fuel query) as (Ho & Hr & _); [|lia|exact Hf|].
    { intros i Hi. lia. }
    split; [exact Hr|]. subst r. rewrite Ho. cbn [seq List.map concat].
    apply f_equal, app_nil_r.
  - intros pages fuel query H0 Hf r. subst r.
    destruct fuel as [|fuel]; [lia|].
    unfold apiRequestAllItems. cbn [apiRequestLoop serverOf].
    change (segment - 1)%N with 999%N.
    replace (999 <? N.of_nat (length (pages 0%nat)))%N with true
      by (symmetry; apply N.ltb_lt; lia).
    match goal with
    | |- _ <= length (requests_of (apiRequestLoop ?s ?f ?n ?q ?d ?l)) =>
        pose proof (loop_requests_grow s f n q d l) as Hg
    end.
    cbn [app length] in Hg.
    destruct (Nat.eqb_spec fuel 0); [lia|exact Hg].
Qed.

Lemma apiRequestAllItems_pages_witness :
  length (requests_of (apiRequestAllItems (serverOf samplePages) 3 None)) = 3
  /\ exists rows,
       outcome_of (apiRequestAllItems (serverOf samplePages) 3 None) = Ok rows
       /\ rows = samplePages 0 ++ samplePages 1 ++ samplePages 2
       /\ N.of_nat (length rows) = 2500%N.
Proof.
  apply (proj1 (proj2 apiRequestAllItems_pages) samplePages 3 None);
    [vm_compute; reflexivity|vm_compute; reflexivity|vm_compute; reflexivity
    |lia].
Defined.

(** C10.  Whatever the caller's query object holds, every page request
    carries [start] = 1000 i (0 for the first) and [limit] = 1000 and, under
    every other key, what the caller's object holds; the caller's object is
    left with [limit] = 1000, a multiple of 1000 under [start], and its other
    entries as they were. *)
Theorem apiRequestAllItems_query (srv : server) (fuel : nat)
    (query : option object) :
  (forall i q,
     nth_error (requests_of (apiRequestAllItems srv fuel query)) i = Some q ->
     Obj.get q startName = VNumber (startOf i)
     /\ Obj.get q limitName = VNumber 1000%Q
     /\ forall k, k <> startName -> k <> limitName ->
                  Obj.get q k = Obj.get (callerQuery query) k)
  /\ (exists n,
        Obj.get (query_of (apiRequestAllItems srv fuel query)) startName
        = VNumber (startOf n))
  /\ Obj.get (query_of (apiRequestAllItems srv fuel query)) limitName
     = VNumber 1000%Q
  /\ (forall k, k <> startName -> k <> limitName ->
        Obj.get (query_of (apiRequestAllItems srv fuel query)) k
        = Obj.get (callerQuery query) k).
Proof.
  unfold apiRequestAllItems.
  destruct (loop_requests srv (callerQuery query) fuel 0
              _ [] [] (pageQuery_first (callerQuery query)) eq_refl)
    as [Hq (Hs & Hl & Ho)].
  { intros j q' Hj. destruct j; discriminate Hj. }
  split; [exact Hq|]. split; [eexists; exact Hs|]. split; assumption.
Qed.

Lemma apiRequestAllItems_query_witness :
  Obj.get
    (nth 0 (requests_of
              (apiRequestAllItems (serverOf samplePages) 3 (Some sampleQuery)))
       [])
    startName = VNumber 0%Q
  /\ Obj.get
       (nth 2 (requests_of
                 (apiRequestAllItems (serverOf samplePages) 3
                    (Some sampleQuery))) [])
       (js "table_name") = VString (js "People").
Proof.
  pose proof (apiRequestAllItems_query (serverOf samplePages) 3
                (Some sampleQuery)) as [H _].
  split.
  - exact (proj1 (H 0 _ eq_refl)).
  - destruct (H 2 _ eq_refl) as (_ & _ & Hk).
    rewrite Hk by discriminate. reflexivity.
Defined.

Section MapFacts.

Import Order.

Lemma moveInternal_fold :
  forall (names : list jsstring) (out r : IRow),
    let st := fold_left moveInternal names (out, r) in
    (forall k, Obj.get (snd st) k =
               if moved names r k then VUndefined else Obj.get r k)
    /\ (forall k, In k (Obj.keys (snd st)) <->
                  In k (Obj.keys r) /\ moved names r k = false)
    /\ (forall k, Obj.get (fst st) k =
                  if moved names r k then Obj.get r k else Obj.get out k)
    /\ (forall k, In k (Obj.keys (fst st)) <->
                  In k (Obj.keys out) \/ moved names r k = true).
Proof.
  induction names as [|n t IH]; intros out r.
  - cbn. split; [reflexivity|]. split; [intros k; tauto|].
    split; [reflexivity|]. intros k. intuition discriminate.
  - cbn [fold_left].
    destruct (truthy (Obj.get r n)) eqn:Tn.
    + assert (Est : moveInternal (out, r) n
                    = (Obj.set out n (Obj.get r n), Obj.delete r n))
        by (unfold moveInternal; rewrite Tn; reflexivity).
      rewrite Est.
      specialize (IH (Obj.set out n (Obj.get r n)) (Obj.delete r n)).
      cbv zeta in IH |- *. destruct IH as (I1 & I2 & I3 & I4).
      assert (Hm : forall k,
                moved (n :: t) r k =
                if jsstring_eqb k n then true else moved t (Obj.delete r n) k).
      { intros k. unfold moved. rewrite member_cons.
        destruct (jsstring_eqb k n) eqn:E.
        - apply jsstring_eqb_eq in E. subst k. rewrite Tn. reflexivity.
        - rewrite get_delete_other; [reflexivity|].
          intros ->. rewrite jsstring_eqb_refl in E. discriminate E. }
      assert (Hd : moved t (Obj.delete r n) n = false).
      { unfold moved. rewrite get_delete_same. cbn. apply andb_false_r. }
      assert (Hneq : forall k, jsstring_eqb k n = false -> k <> n).
      { intros k E ->. rewrite jsstring_eqb_refl in E. discriminate E. }
      split; [|split; [|split]]; intros k.
      * rewrite I1, Hm. destruct (jsstring_eqb k n) eqn:E.
        -- apply jsstring_eqb_eq in E. subst k. rewrite Hd.
           apply get_delete_same.
        -- rewrite get_delete_other by (apply Hneq, E). reflexivity.
      * rewrite I2, keys_delete, Hm. destruct (jsstring_eqb k n) eqn:E.
        -- apply jsstring_eqb_eq in E. subst k.
           split; [tauto|intros [_ H]; discriminate H].
        -- pose proof (Hneq k E). tauto.
      * rewrite I3, Hm. destruct (jsstring_eqb k n) eqn:E.
        -- apply jsstring_eqb_eq in E. subst k. rewrite Hd.
           apply get_set_same.
        -- pose proof (Hneq k E).
           rewrite get_delete_other by assumption.
           destruct (moved t (Obj.delete r n) k); [reflexivity|].
           apply get_set_other. assumption.
      * rewrite I4, In_keys_set, Hm. destruct (jsstring_eqb k n) eqn:E.
        -- apply jsstring_eqb_eq in E. subst k.
           split; intros _; [right; reflexivity|left; right; reflexivity].
        -- pose proof (Hneq k E). tauto.
    + assert (Est : moveInternal (out, r) n = (out, r))
        by (unfold moveInternal; rewrite Tn; reflexivity).
      rewrite Est.
      specialize (IH out r). cbv zeta in IH |- *.
      destruct IH as (I1 & I2 & I3 & I4).
      assert (Hm : forall k, moved (n :: t) r k = moved t r k).
      { intros k. unfold moved. rewrite member_cons.
        destruct (jsstring_eqb k n) eqn:E; [|reflexivity].
        apply jsstring_eqb_eq in E. subst k. rewrite Tn.
        rewrite !andb_false_r. reflexivity. }
      split; [|split; [|split]]; intros k; rewrite Hm.
      * apply I1.
      * apply I2.
      * apply I3.
      * apply I4.
Qed.

End MapFacts.

Section TranslateFacts.

Import Order.

Variable cols : list IDtableMetadataColumn.
Variable r : IRow.

Lemma translate_keys_inv :
  forall (ks : list jsstring) (o : Obj.target) (k : jsstring),
    In k (Obj.keys (Obj.own (fold_left (translateKey cols r) ks o))) ->
    In k (Obj.keys (Obj.own o))
    \/ exists k0 c, In k0 ks /\ columnOfKey cols k0 = Some c /\ name c = k.
Proof.
  induction ks as [|k0 t IH]; intros o k; [cbn; tauto|].
  cbn [fold_left]. intros H. apply IH in H. unfold translateKey in H.
  destruct H as [H|(k1 & c & H1 & H2 & H3)].
  - destruct (columnOfKey cols k0) as [c0|] eqn:E; [|left; exact H].
    apply put_keys_inv in H. destruct H as [H| ->]; [left; exact H|].
    right. exists k0, c0. split; [left; reflexivity|]. tauto.
  - right. exists k1, c. split; [right; exact H1|]. tauto.
Qed.

Lemma translate_keys_kept :
  forall (ks : list jsstring) (o : Obj.target) (k : jsstring),
    In k (Obj.keys (Obj.own o)) ->
    In k (Obj.keys (Obj.own (fold_left (translateKey cols r) ks o))).
Proof.
  induction ks as [|k0 t IH]; intros o k H; [exact H|].
  cbn [fold_left]. apply IH. unfold translateKey.
  destruct (columnOfKey cols k0) as [c0|]; [|exact H].
  apply put_keys_kept, H.
Qed.


Lemma columnOfKey_some (k : jsstring) (c : IDtableMetadataColumn) :
  columnOfKey cols k = Some c -> In c cols /\ key c = k.
Proof.
  intros H. apply find_some in H. destruct H as [H1 H2].
  split; [exact H1|]. apply jsstring_eqb_eq, H2.
Qed.

Lemma NoDup_map_inj {A B : Type} (f : A -> B) (l : list A) (a b : A) :
  NoDup (List.map f l) -> In a l -> In b l -> f a = f b -> a = b.
Proof.
  induction l as [|x t IH]; intros Hnd Ha Hb E; [destruct Ha|].
  simpl in Hnd. inversion Hnd as [|? ? Hx Ht]. subst.
  destruct Ha as [->|Ha], Hb as [->|Hb].
  - reflexivity.
  - exfalso. apply Hx. rewrite E. apply in_map, Hb.
  - exfalso. apply Hx. rewrite <- E. apply in_map, Ha.
  - apply IH; assumption.
Qed.

Hypothesis keys_distinct : NoDup (List.map key cols).
Hypothesis names_distinct : NoDup (List.map name cols).

Lemma columnOfKey_In (c : IDtableMetadataColumn) :
  In c cols -> columnOfKey cols (key c) = Some c.
Proof.
  intros Hc. destruct (columnOfKey cols (key c)) as [c0|] eqn:E.
  - apply columnOfKey_some in E. destruct E as [H1 H2].
    f_equal. apply (NoDup_map_inj key cols); assumption.
  - unfold columnOfKey in E.
    pose proof (find_none _ _ E c Hc) as H. cbv beta in H.
    rewrite jsstring_eqb_refl in H. discriminate H.
Qed.

Lemma translate_get (c : IDtableMetadataColumn) :
  In c cols ->
  name c <> protoName ->
  forall (ks : list jsstring) (o : Obj.target),
    Obj.get (Obj.own (fold_left (translateKey cols r) ks o)) (name c) =
    if member (key c) ks then Obj.get r (key c)
    else Obj.get (Obj.own o) (name c).
Proof.
  intros Hc Hp. induction ks as [|k0 t IH]; intros o; [reflexivity|].
  cbn [fold_left]. rewrite IH, member_cons. unfold translateKey.
  destruct (jsstring_eqb (key c) k0) eqn:E.
  - apply jsstring_eqb_eq in E. subst k0.
    rewrite (columnOfKey_In c Hc), (put_get_same _ _ _ Hp). cbn [orb].
    destruct (member (key c) t); reflexivity.
  - cbn [orb]. destruct (member (key c) t); [reflexivity|].
    destruct (columnOfKey cols k0) as [c0|] eqn:E0; [|reflexivity].
    apply columnOfKey_some in E0. destruct E0 as [H1 H2].
    apply put_get_other. intros En.
    assert (c = c0) by (apply (NoDup_map_inj name cols); assumption).
    subst c0. rewrite H2, jsstring_eqb_refl in E. discriminate E.
Qed.

(** Under a name that no column with its key in the keys bears, the output
    keeps what it had. *)
Lemma translate_get_unnamed (k : jsstring) :
  forall (ks : list jsstring) (o : Obj.target),
    (forall k0 c, In k0 ks -> columnOfKey cols k0 = Some c -> name c <> k) ->
    Obj.get (Obj.own (fold_left (translateKey cols r) ks o)) k
    = Obj.get (Obj.own o) k.
Proof.
  induction ks as [|k0 t IH]; intros o H; [reflexivity|].
  cbn [fold_left]. rewrite IH.
  - unfold translateKey.
    destruct (columnOfKey cols k0) as [c0|] eqn:E0; [|reflexivity].
    apply put_get_other. intros En.
    exact (H k0 c0 (or_introl eq_refl) E0 (eq_sym En)).
  - intros k1 c H1. apply H. right. exact H1.
Qed.

End TranslateFacts.

Lemma moved_iff (names : list jsstring) (r : IRow) (k : jsstring) :
  moved names r k = true <-> In k names /\ truthy (Obj.get r k) = true.
Proof. unfold moved. rewrite andb_true_iff, member_In. tauto. Qed.

Lemma rowMap_eq (row : IRow) (cols : list IDtableMetadataColumn) :
  rowMapColumnsFromKeysToNames row cols =
  if isArrayLike (snd (firstLoop row)) then firstLoop row
  else (Obj.own
          (fold_left (translateKey cols (snd (firstLoop row)))
             (Obj.keys (snd (firstLoop row)))
             (Obj.literal (fst (firstLoop row)))),
        snd (firstLoop row)).
Proof.
  unfold rowMapColumnsFromKeysToNames.
  destruct (firstLoop row) as [out0 row']. reflexivity.
Qed.

Lemma firstLoop_spec (row : IRow) :
  (forall k, Obj.get (snd (firstLoop row)) k =
             if moved schema.internalNames row k then VUndefined
             else Obj.get row k)
  /\ (forall k, In k (Obj.keys (snd (firstLoop row))) <->
                In k (Obj.keys row)
                /\ moved schema.internalNames row k = false)
  /\ (forall k, Obj.get (fst (firstLoop row)) k =
                if moved schema.internalNames row k then Obj.get row k
                else VUndefined)
  /\ (forall k, In k (Obj.keys (fst (firstLoop row))) <->
                moved schema.internalNames row k = true).
Proof.
  pose proof (moveInternal_fold schema.internalNames [] row) as H.
  cbv zeta in H. destruct H as (I1 & I2 & I3 & I4).
  split; [exact I1|]. split; [exact I2|]. split; [exact I3|].
  intros k. unfold firstLoop. rewrite I4. cbn. tauto.
Qed.

(** C9.  For metadata whose columns bear no internal name, as the data
    model has it: a key of the output of [rowMapColumnsFromKeysToNames] is
    a reserved internal field whose value in the input row is truthy, or
    the name of a metadata column whose key occurs in the row.  An internal
    field with a truthy value is in the output with that value, and one
    with a falsy value is absent; a key of the row that is no internal
    field and no key of a column brings nothing into the output, which has
    that key only if some column with its key in the row bears it as its
    name. *)
Theorem rowMapColumnsFromKeysToNames_keys (row : IRow)
    (cols : list IDtableMetadataColumn) (k : jsstring) :
  (forall c, In c cols -> ~ In (name c) schema.internalNames) ->
  (In k (Obj.keys (fst (rowMapColumnsFromKeysToNames row cols))) ->
   (In k schema.internalNames /\ truthy (Obj.get row k) = true)
   \/ (~ In k schema.internalNames
       /\ exists c, In c cols /\ name c = k /\ In (key c) (Obj.keys row)))
  /\ (In k schema.internalNames -> truthy (Obj.get row k) = true ->
      In k (Obj.keys (fst (rowMapColumnsFromKeysToNames row cols)))
      /\ Obj.get (fst (rowMapColumnsFromKeysToNames row cols)) k
         = Obj.get row k)
  /\ (In k schema.internalNames -> truthy (Obj.get row k) = false ->
      ~ In k (Obj.keys (fst (rowMapColumnsFromKeysToNames row cols))))
  /\ (~ In k schema.internalNames ->
      (forall c, In c cols -> In (key c) (Obj.keys row) -> name c <> k) ->
      ~ In k (Obj.keys (fst (rowMapColumnsFromKeysToNames row cols)))).
Proof.
  intros Hinv.
  destruct (firstLoop_spec row) as (_ & I2 & I3 & I4).
  assert (Main :
    In k (Obj.keys (fst (rowMapColumnsFromKeysToNames row cols))) ->
    (In k schema.internalNames /\ truthy (Obj.get row k) = true)
    \/ exists c, In c cols /\ name c = k /\ In (key c) (Obj.keys row)).
  { rewrite rowMap_eq.
    destruct (isArrayLike (snd (firstLoop row))); cbn [fst].
    - intros Hk. apply I4 in Hk. left. apply moved_iff, Hk.
    - intros Hk. apply translate_keys_inv in Hk.
      destruct Hk as [Hk|(k0 & c & H1 & H2 & H3)].
      + apply I4 in Hk. left. apply moved_iff, Hk.
      + right. apply columnOfKey_some in H2. destruct H2 as [H2 H4].
        exists c. split; [exact H2|]. split; [exact H3|].
        rewrite H4. apply I2 in H1. tauto. }
  split; [|split; [|split]].
  - intros Hk. destruct (Main Hk) as [H|(c & H1 & H2 & H3)]; [left; exact H|].
    right. split; [|exists c; tauto].
    rewrite <- H2. apply Hinv, H1.
  - intros Hi Ht.
    assert (Hm : moved schema.internalNames row k = true)
      by (apply moved_iff; split; assumption).
    rewrite rowMap_eq.
    assert (H0 : In k (Obj.keys (fst (firstLoop row)))) by (apply I4, Hm).
    assert (G0 : Obj.get (fst (firstLoop row)) k = Obj.get row k)
      by (rewrite I3, Hm; reflexivity).
    destruct (isArrayLike (snd (firstLoop row))); cbn [fst];
      [split; assumption|].
    split; [apply translate_keys_kept; exact H0|].
    rewrite translate_get_unnamed; [exact G0|].
    intros k0 c _ Hc En. apply columnOfKey_some in Hc.
    apply (Hinv c); [tauto|]. rewrite En. exact Hi.
  - intros Hi Hf Hk. destruct (Main Hk) as [[_ Ht]|(c & H1 & H2 & H3)].
    + congruence.
    + apply (Hinv c H1). rewrite H2. exact Hi.
  - intros Hi Hn Hk. destruct (Main Hk) as [[Hi' _]|(c & H1 & H2 & H3)].
    + contradiction.
    + exact (Hn c H1 H3 H2).
Qed.

Lemma rowMapColumnsFromKeysToNames_keys_witness :
  In (js "_id")
    (Obj.keys (fst (rowMapColumnsFromKeysToNames sampleInserted
                      sampleColumns)))
  /\ ~ In (js "_seq")
       (Obj.keys (fst (rowMapColumnsFromKeysToNames sampleInserted
                         sampleColumns)))
  /\ ~ In (js "zzzz")
       (Obj.keys (fst (rowMapColumnsFromKeysToNames sampleInserted
                         sampleColumns))).
Proof.
  assert (Hinv : forall c, In c sampleColumns ->
                           ~ In (name c) schema.internalNames).
  { intros c [<-|[<-|[]]] H; apply member_In in H; discriminate H. }
  pose proof (rowMapColumnsFromKeysToNames_keys sampleInserted sampleColumns
                (js "_id") Hinv) as (_ & H1 & _).
  pose proof (rowMapColumnsFromKeysToNames_keys sampleInserted sampleColumns
                (js "_seq") Hinv) as (_ & _ & H2 & _).
  pose proof (rowMapColumnsFromKeysToNames_keys sampleInserted sampleColumns
                (js "zzzz") Hinv) as (_ & _ & _ & H3).
  split; [|split].
  - apply H1; [apply member_In; reflexivity|reflexivity].
  - apply H2; [apply member_In; reflexivity|reflexivity].
  - apply H3.
    + intros H. apply member_In in H. discriminate H.
    + intros c [<-|[<-|[]]] _; discriminate.
Defined.

Lemma isArrayLike_firstLoop (row : IRow) :
  isArrayLike (snd (firstLoop row)) = isArrayLike row.
Proof.
  destruct (firstLoop_spec row) as (I1 & _).
  unfold isArrayLike. rewrite I1. reflexivity.
Qed.

Lemma not_moved (row : IRow) (k : jsstring) :
  ~ In k schema.internalNames -> moved schema.internalNames row k = false.
Proof.
  intros H. destruct (moved schema.internalNames row k) eqn:E; [|reflexivity].
  apply moved_iff in E. tauto.
Qed.

(** C7, as the code has it.  When the column keys of the metadata are
    pairwise distinct, its column names are pairwise distinct, no column is
    named [__proto__] (an assignment under that name stores nothing), and
    the row has no [length] entry that makes lodash walk it as an array,
    then [rowMapColumnsFromKeysToNames] followed by [rowFormatColumns] with
    the column names holds, under the name of every column whose key and
    name are not internal names, the formatted value of the row under that
    column's key: that very value when it is a boolean, a number, a string
    or an array of strings, and null when the row has no such key. *)
Theorem rowMap_then_format (cols : list IDtableMetadataColumn) (row : IRow)
    (c : IDtableMetadataColumn) :
  NoDup (List.map key cols) ->
  NoDup (List.map name cols) ->
  (forall column, In column cols -> name column <> protoName) ->
  isArrayLike row = false ->
  In c cols ->
  ~ In (key c) schema.internalNames ->
  ~ In (name c) schema.internalNames ->
  Obj.get
    (rowFormatColumns (fst (rowMapColumnsFromKeysToNames row cols))
       (List.map name cols)) (name c)
  = rowFormatColumn (Obj.get row (key c))
  /\ (whitelisted (Obj.get row (key c)) = true ->
      Obj.get
        (rowFormatColumns (fst (rowMapColumnsFromKeysToNames row cols))
           (List.map name cols)) (name c)
      = Obj.get row (key c))
  /\ (Obj.has row (key c) = false ->
      Obj.get
        (rowFormatColumns (fst (rowMapColumnsFromKeysToNames row cols))
           (List.map name cols)) (name c)
      = VNull).
Proof.
  intros Hk Hn Hp Ha Hc Hik Hin.
  destruct (firstLoop_spec row) as (I1 & I2 & I3 & _).
  assert (Hout : Obj.get (fst (rowMapColumnsFromKeysToNames row cols)) (name c)
                 = Obj.get row (key c)).
  { rewrite rowMap_eq, isArrayLike_firstLoop, Ha. cbn [fst].
    rewrite (translate_get cols _ Hk Hn c Hc (Hp c Hc)).
    cbn [Obj.literal Obj.own].
    rewrite I1, I3, (not_moved row _ Hik), (not_moved row _ Hin).
    destruct (Order.member (key c) (Obj.keys (snd (firstLoop row)))) eqn:M;
      [reflexivity|].
    symmetry. apply get_absent.
    destruct (Obj.has row (key c)) eqn:Hh; [|reflexivity].
    apply has_In in Hh.
    assert (Hm : In (key c) (Obj.keys (snd (firstLoop row))))
      by (apply I2; split; [exact Hh|apply not_moved, Hik]).
    apply member_In in Hm. congruence. }
  assert (Hf : Obj.get
                 (rowFormatColumns (fst (rowMapColumnsFromKeysToNames row cols))
                    (List.map name cols)) (name c)
               = rowFormatColumn (Obj.get row (key c))).
  { rewrite rowFormatColumns_get, stored_plain.
    - assert (M : Order.member (name c) (List.map name cols) = true)
        by (apply member_In, in_map, Hc).
      rewrite M, Hout. reflexivity.
    - intros H. apply in_map_iff in H. destruct H as (column & E & H).
      exact (Hp column H E). }
  split; [exact Hf|]. split.
  - intros Hw. rewrite Hf.
    destruct (Obj.get row (key c)); try discriminate Hw; try reflexivity.
    simpl in *. rewrite Hw. reflexivity.
  - intros Hh. rewrite Hf, (get_absent row _ Hh). reflexivity.
Qed.

Lemma rowMap_then_format_witness :
  Obj.get
    (rowFormatColumns (fst (rowMapColumnsFromKeysToNames sampleInserted
                              sampleColumns))
       (List.map name sampleColumns)) (js "Title")
  = VString (js "Ann")
  /\ Obj.get
       (rowFormatColumns (fst (rowMapColumnsFromKeysToNames sampleInserted
                                 sampleColumns))
          (List.map name sampleColumns)) (js "Surname")
     = VNull.
Proof.
  assert (Hk : NoDup (List.map key sampleColumns))
    by (repeat constructor; simpl; intuition discriminate).
  assert (Hn : NoDup (List.map name sampleColumns))
    by (repeat constructor; simpl; intuition discriminate).
  assert (Hi : forall k, Order.member k schema.internalNames = false ->
                         ~ In k schema.internalNames)
    by (intros k E H; apply member_In in H; congruence).
  assert (Hp : forall column, In column sampleColumns ->
                              name column <> protoName)
    by (intros column [<-|[<-|[]]]; discriminate).
  split.
  - apply (rowMap_then_format sampleColumns sampleInserted
             (Column (js "0000") (js "Title") (js "text")) Hk Hn Hp eq_refl
             (or_introl eq_refl) (Hi (js "0000") eq_refl)
             (Hi (js "Title") eq_refl)).
    reflexivity.
  - apply (rowMap_then_format sampleColumns sampleInserted
             (Column (js "Xk3q") (js "Surname") (js "text")) Hk Hn Hp eq_refl
             (or_intror (or_introl eq_refl)) (Hi (js "Xk3q") eq_refl)
             (Hi (js "Surname") eq_refl)).
    reflexivity.
Defined.

(** C7 as stated fails: a column that the row has no value for comes out
    as null, which the row did not hold; of two columns of one name the
    later key's value is the one that comes out; and the value of a column
    named [__proto__] does not come out at all. *)
Lemma rowMap_then_format_not_the_row_value :
  Obj.get
    (rowFormatColumns (fst (rowMapColumnsFromKeysToNames sampleOneCell
                              sampleColumns))
       (List.map name sampleColumns)) (js "Surname")
  = VNull
  /\ Obj.get sampleOneCell (js "Xk3q") = VUndefined
  /\ Obj.get
       (rowFormatColumns (fst (rowMapColumnsFromKeysToNames sampleTwoCells
                                 sampleSameName))
          (List.map name sampleSameName)) (js "Name")
     = VString (js "y")
  /\ Obj.get sampleTwoCells (js "0000") = VString (js "x")
  /\ rowFormatColumns (fst (rowMapColumnsFromKeysToNames sampleTwoCells
                              sampleProtoColumns))
       (List.map name sampleProtoColumns)
     = [(js "Title", VString (js "x"))]
  /\ Obj.get sampleTwoCells (js "Xk3q") = VString (js "y").
Proof. repeat split. Qed.

Section OrderFacts.

Lemma jsstring_compare_refl (a : jsstring) : jsstring_compare a a = Eq.
Proof.
  induction a as [|x a IH]; simpl; [reflexivity|].
  rewrite N.compare_refl. exact IH.
Qed.

Lemma jsstring_compare_eq :
  forall a b : jsstring, jsstring_compare a b = Eq -> a = b.
Proof.
  induction a as [|x a IH]; intros [|y b] H; simpl in H;
    try discriminate H; [reflexivity|].
  destruct (N.compare x y) eqn:E; try discriminate H.
  apply N.compare_eq_iff in E. subst y. f_equal. apply IH, H.
Qed.

Lemma jsstring_compare_antisym :
  forall a b : jsstring,
    jsstring_compare b a = CompOpp (jsstring_compare a b).
Proof.
  induction a as [|x a IH]; intros [|y b]; simpl; try reflexivity.
  rewrite (N.compare_antisym x y).
  destruct (N.compare x y); simpl; [apply IH|reflexivity|reflexivity].
Qed.

Lemma jsstring_compare_trans :
  forall a b c : jsstring,
    jsstring_compare a b = Lt -> jsstring_compare b c = Lt ->
    jsstring_compare a c = Lt.
Proof.
  induction a as [|x a IH]; intros [|y b] [|z c] H1 H2; simpl in *;
    try discriminate; try reflexivity.
  destruct (N.compare x y) eqn:E1; try discriminate H1;
    destruct (N.compare y z) eqn:E2; try discriminate H2.
  - apply N.compare_eq_iff in E1. apply N.compare_eq_iff in E2.
    subst. rewrite N.compare_refl.
    eapply IH; eassumption.
  - apply N.compare_eq_iff in E1. subst. rewrite E2. reflexivity.
  - apply N.compare_eq_iff in E2. subst. rewrite E1. reflexivity.
  - pose proof (proj1 (N.compare_lt_iff x y) E1) as L1.
    pose proof (proj1 (N.compare_lt_iff y z) E2) as L2.
    assert (E : N.compare x z = Lt) by (apply N.compare_lt_iff; lia).
    rewrite E. reflexivity.
Qed.

Variable looseCompare : value -> value -> comparison.
Variable columnName : jsstring.

Local Abbreviation le :=
  (criteriaLe looseCompare [columnName; seqName]).

Lemma seqLe_trans (a b c : IRow) : seqLe a b -> seqLe b c -> seqLe a c.
Proof.
  unfold seqLe.
  destruct (Obj.get a seqName), (Obj.get b seqName), (Obj.get c seqName);
    try tauto.
  apply Qle_trans.
Qed.

Lemma before_trans (a b c : IRow) :
  before columnName a b -> before columnName b c -> before columnName a c.
Proof.
  unfold before. intros [H1|[E1 L1]] [H2|[E2 L2]].
  - left. eapply jsstring_compare_trans; eassumption.
  - left. rewrite <- E2. exact H1.
  - left. rewrite E1. exact H2.
  - right. split; [congruence|]. eapply seqLe_trans; eassumption.
Qed.

Lemma missingOr_number (v : value) :
  missingOr isNumber v -> v = VUndefined \/ exists q, v = VNumber q.
Proof.
  intros [H|H]; [left; exact H|]. right.
  destruct v; try discriminate H. eexists. reflexivity.
Qed.

Lemma missingOr_string (v : value) :
  missingOr isString v -> v = VUndefined \/ exists s, v = VString s.
Proof.
  intros [H|H]; [left; exact H|]. right.
  destruct v; try discriminate H. eexists. reflexivity.
Qed.

Lemma le_before (a b : IRow) :
  timed columnName a -> timed columnName b ->
  le a b = true -> before columnName a b.
Proof.
  intros [[s Hs] Ha] [[t Ht] Hb]. unfold before, timeOf, seqLe.
  cbn [criteriaLe]. rewrite Hs, Ht. cbn [compareAscending].
  destruct (jsstring_compare s t) eqn:E; intros H.
  - right. split; [apply jsstring_compare_eq, E|].
    destruct (missingOr_number _ Ha) as [Ea|[p Ea]],
             (missingOr_number _ Hb) as [Eb|[q Eb]];
      rewrite Ea, Eb in *; cbn [compareAscending] in H;
      try exact I; try discriminate H.
    apply Qle_alt. destruct (Qcompare p q); congruence.
  - left. reflexivity.
  - discriminate H.
Qed.

Lemma not_le_before (a b : IRow) :
  timed columnName a -> timed columnName b ->
  le a b = false -> before columnName b a.
Proof.
  intros [[s Hs] Ha] [[t Ht] Hb]. unfold before, timeOf, seqLe.
  cbn [criteriaLe]. rewrite Hs, Ht. cbn [compareAscending].
  rewrite (jsstring_compare_antisym s t).
  destruct (jsstring_compare s t) eqn:E; intros H.
  - right. split; [symmetry; apply jsstring_compare_eq, E|].
    destruct (missingOr_number _ Ha) as [Ea|[p Ea]],
             (missingOr_number _ Hb) as [Eb|[q Eb]];
      rewrite Ea, Eb in *; cbn [compareAscending] in H;
      try exact I; try discriminate H.
    destruct (Qcompare p q) eqn:Eq; try discriminate H.
    apply Qlt_le_weak, Qgt_alt, Eq.
  - discriminate H.
  - left. reflexivity.
Qed.

Lemma insertOrdered_perm (its : list jsstring) (a : IRow) :
  forall l, Permutation (a :: l) (insertOrdered looseCompare its a l).
Proof.
  induction l as [|b t IH]; simpl; [apply Permutation_refl|].
  destruct (criteriaLe looseCompare its a b); [apply Permutation_refl|].
  apply Permutation_trans with (b :: a :: t); [apply perm_swap|].
  apply perm_skip, IH.
Qed.

Lemma orderBy_perm (its : list jsstring) :
  forall rows, Permutation rows (orderBy looseCompare rows its).
Proof.
  induction rows as [|a t IH]; simpl; [apply Permutation_refl|].
  apply Permutation_trans with (a :: orderBy looseCompare t its).
  - apply perm_skip, IH.
  - apply insertOrdered_perm.
Qed.

Lemma insertOrdered_sorted (a : IRow) :
  timed columnName a ->
  forall l,
    Forall (timed columnName) l ->
    StronglySorted (before columnName) l ->
    StronglySorted (before columnName)
      (insertOrdered looseCompare [columnName; seqName] a l).
Proof.
  intros Ha. induction l as [|b t IH]; intros Hl Hs.
  - simpl. constructor; constructor.
  - inversion Hl as [|? ? Hb Ht]. subst.
    apply StronglySorted_inv in Hs. destruct Hs as [Hs Hf].
    cbn [insertOrdered]. destruct (le a b) eqn:E.
    + pose proof (le_before a b Ha Hb E) as Hab.
      constructor; [constructor; assumption|].
      constructor; [exact Hab|].
      eapply Forall_impl; [|exact Hf].
      intros x Hx. eapply before_trans; eassumption.
    + pose proof (not_le_before a b Ha Hb E) as Hba.
      constructor; [apply IH; assumption|].
      apply (Permutation_Forall (insertOrdered_perm _ a t)).
      constructor; assumption.
Qed.

Lemma orderBy_sorted :
  forall rows,
    Forall (timed columnName) rows ->
    StronglySorted (before columnName)
      (orderBy looseCompare rows [columnName; seqName]).
Proof.
  induction rows as [|a t IH]; intros H; simpl; [constructor|].
  inversion H as [|? ? Ha Ht]. subst.
  apply insertOrdered_sorted; [exact Ha| |apply IH, Ht].
  apply (Permutation_Forall (orderBy_perm _ t)). exact Ht.
Qed.

End OrderFacts.

Section TimeFacts.

Variable columnName : jsstring.

Lemma ltb_nil (s : jsstring) : jsstring_ltb s [] = false.
Proof. destruct s; reflexivity. Qed.

Lemma rowsSequence_fresh (rows : IRows) :
  (forall first rest, rows = first :: rest ->
                      Obj.get first seqName = VUndefined) ->
  rowsSequence rows = rowsSequenceFrom 0 rows.
Proof.
  intros H. destruct rows as [|first rest]; [reflexivity|].
  unfold rowsSequence. rewrite (H first rest eq_refl). reflexivity.
Qed.

Lemma rowsSequence_numbered (rows : IRows) :
  (forall first rest, rows = first :: rest ->
                      Obj.get first seqName <> VUndefined) ->
  rowsSequence rows = rows.
Proof.
  intros H. destruct rows as [|first rest]; [reflexivity|].
  unfold rowsSequence. specialize (H first rest eq_refl).
  destruct (Obj.get first seqName); try reflexivity. congruence.
Qed.

(** Numbering the rows leaves the other columns as they are, and leaves
    a number or nothing where a number or nothing was. *)
Lemma rowsSequence_kinds (P : value -> Prop) (rows : IRows) :
  columnName <> seqName ->
  (forall row, In row rows -> P (Obj.get row columnName)) ->
  (forall row, In row rows -> missingOr isNumber (Obj.get row seqName)) ->
  forall row, In row (rowsSequence rows) ->
    P (Obj.get row columnName) /\ missingOr isNumber (Obj.get row seqName).
Proof.
  intros Hne Hp Hs.
  assert (G : forall l i,
            (forall row, In row l -> P (Obj.get row columnName)) ->
            forall row, In row (rowsSequenceFrom i l) ->
              P (Obj.get row columnName)
              /\ missingOr isNumber (Obj.get row seqName)).
  { induction l as [|r t IH]; intros i Hl row H; [destruct H|].
    cbn [rowsSequenceFrom] in H. destruct H as [<-|H].
    - rewrite get_set_other by exact Hne. rewrite get_set_same.
      split; [apply Hl; left; reflexivity|right; reflexivity].
    - apply (IH (S i)); [|exact H]. intros x Hx. apply Hl. right. exact Hx. }
  unfold rowsSequence. destruct rows as [|first rest]; [intros row []|].
  destruct (negb (isUndefined (Obj.get first seqName))).
  - intros row H. split; [apply Hp, H|apply Hs, H].
  - apply G, Hp.
Qed.


End TimeFacts.

(** C5.  Of every collection [rowsTimeFilter] keeps, in their order, the
    rows whose timestamp is a string greater than the cursor, and drops
    those whose timestamp is a string that is not greater, the cursor
    itself among them, and those without the column.  A collection whose
    first row has no [_seq] is numbered 1, 2, ... in arrival order before
    it is filtered; one whose first row has a [_seq] is left as it is.
    [rowsTimeSort] then returns the kept rows; when the collection holds in
    the timestamp column strings or nothing, and as sequence numbers
    numbers or nothing, they come in ascending order of the timestamp, rows
    of equal timestamp in the order of their sequence numbers, one without
    a number after those with one.  Arrivals T0, T2, T1 with the cursor T0
    give the T1 row, then the T2 row. *)
Theorem rowsTimeFilter_then_rowsTimeSort
    (looseGreater : value -> jsstring -> bool)
    (looseCompare : value -> value -> comparison)
    (rows : IRows) (op : TTriggerOperationValue) (startDate : jsstring) :
  let columnName := triggerColumnOf op in
  let kept := rowsTimeFilter looseGreater rows columnName startDate in
  (exists keep, kept = List.filter keep (rowsSequence rows))
  /\ (forall row s,
        In row (rowsSequence rows) -> Obj.get row columnName = VString s ->
        (In row kept <-> jsstring_compare startDate s = Lt))
  /\ (forall row, In row kept -> Obj.get row columnName <> VString startDate)
  /\ (forall row, Obj.get row columnName = VUndefined -> ~ In row kept)
  /\ ((forall first rest, rows = first :: rest ->
                          Obj.get first seqName = VUndefined) ->
      (forall i row,
         nth_error rows i = Some row ->
         exists row',
           nth_error (rowsSequence rows) i = Some row'
           /\ row' = Obj.set row seqName (VNumber (numberOfNat (S i)))
           /\ Obj.get row' columnName = Obj.get row columnName
           /\ seqOf row' = numberOfNat (S i))
      /\ rowsSequence kept = kept)
  /\ ((forall first rest, rows = first :: rest ->
                          Obj.get first seqName <> VUndefined) ->
      rowsSequence rows = rows)
  /\ Permutation (rowsSequence kept)
       (rowsTimeSort looseCompare kept columnName)
  /\ ((forall row, In row rows ->
          missingOr isString (Obj.get row columnName)) ->
      (forall row, In row rows -> missingOr isNumber (Obj.get row seqName)) ->
      kept
      = List.filter
          (fun row => jsstring_ltb startDate (timeOf columnName row))
          (rowsSequence rows)
      /\ StronglySorted (before columnName)
           (rowsTimeSort looseCompare kept columnName))
  /\ List.map (fun row => Obj.get row (js "_id"))
       (rowsTimeSort looseCompare
          (rowsTimeFilter looseGreater sampleArrivals (js "_ctime") sampleT0)
          (js "_ctime"))
     = [VString (js "c"); VString (js "b")].
Proof.
  intros columnName kept.
  assert (Hne : columnName <> seqName) by (destruct op; discriminate).
  assert (Hin : forall row,
            In row kept <->
            In row (rowsSequence rows)
            /\ greaterThan looseGreater (Obj.get row columnName) startDate
               = true).
  { intros row. unfold kept, rowsTimeFilter. apply filter_In. }
  assert (Hlt : forall s,
            jsstring_ltb startDate s = true
            <-> jsstring_compare startDate s = Lt).
  { intros s. unfold jsstring_ltb.
    destruct (jsstring_compare startDate s); split; congruence. }
  split; [eexists; reflexivity|].
  split; [|split; [|split; [|split; [|split; [|split; [|split]]]]]].
  - intros row s Hrow E. rewrite Hin, E. cbn [greaterThan]. rewrite Hlt.
    tauto.
  - intros row Hrow E. apply Hin in Hrow. destruct Hrow as [_ Hg].
    rewrite E in Hg. cbn [greaterThan] in Hg. apply Hlt in Hg.
    rewrite jsstring_compare_refl in Hg. discriminate Hg.
  - intros row E Hrow. apply Hin in Hrow. destruct Hrow as [_ Hg].
    rewrite E in Hg. discriminate Hg.
  - intros Hfresh. split.
    + intros i row Hi.
      exists (Obj.set row seqName (VNumber (numberOfNat (S i)))).
      rewrite (rowsSequence_fresh rows Hfresh).
      split; [exact (rowsSequenceFrom_nth rows 0 i row Hi)|].
      split; [reflexivity|]. split.
      * apply get_set_other. exact Hne.
      * unfold seqOf. rewrite get_set_same. reflexivity.
    + apply rowsSequence_numbered. intros first rest E.
      assert (Hf : In first kept) by (rewrite E; left; reflexivity).
      apply Hin in Hf. destruct Hf as [Hf _].
      rewrite (rowsSequence_fresh rows Hfresh) in Hf.
      apply In_nth_error in Hf. destruct Hf as [n Hn].
      assert (Hl : n < length rows).
      { rewrite <- (rowsSequenceFrom_length rows 0).
        apply nth_error_Some. congruence. }
      destruct (nth_error rows n) as [row|] eqn:Er;
        [|apply nth_error_None in Er; lia].
      rewrite (rowsSequenceFrom_nth rows 0 n row Er) in Hn.
      injection Hn as <-. rewrite get_set_same. discriminate.
  - apply rowsSequence_numbered.
  - unfold rowsTimeSort. apply orderBy_perm.
  - intros Htime Hseq.
    pose proof (rowsSequence_kinds columnName (missingOr isString) rows Hne
                  Htime Hseq) as Hkinds.
    assert (Hstring : forall row, In row kept ->
              exists s, Obj.get row columnName = VString s).
    { intros row Hrow. apply Hin in Hrow. destruct Hrow as [Hr Hg].
      destruct (Hkinds row Hr) as [Hs _].
      destruct (missingOr_string _ Hs) as [E|[s E]];
        [rewrite E in Hg; discriminate Hg|exists s; exact E]. }
    split.
    + unfold kept, rowsTimeFilter. apply filter_ext_in. intros row Hrow.
      destruct (Hkinds row Hrow) as [Hs _].
      unfold greaterThan, timeOf.
      destruct (missingOr_string _ Hs) as [E|[s E]]; rewrite E;
        [symmetry; apply ltb_nil|reflexivity].
    + unfold rowsTimeSort. apply orderBy_sorted.
      apply Forall_forall. intros row Hrow.
      apply (rowsSequence_kinds columnName
               (fun v => exists s, v = VString s) kept Hne); [| |exact Hrow].
      * exact Hstring.
      * intros x Hx. apply Hin in Hx. destruct Hx as [Hx _].
        apply Hkinds, Hx.
  - reflexivity.
Qed.

Lemma rowsTimeFilter_then_rowsTimeSort_witness :
  StronglySorted (before (js "_ctime"))
    (rowsTimeSort (fun _ _ => Eq)
       (rowsTimeFilter (fun _ _ => false) sampleArrivals (js "_ctime")
          sampleT0)
       (js "_ctime")).
Proof.
  destruct (rowsTimeFilter_then_rowsTimeSort (fun _ _ => false)
              (fun _ _ => Eq) sampleArrivals create sampleT0)
    as (_ & _ & _ & _ & _ & _ & _ & H & _).
  apply H.
  - intros row [<-|[<-|[<-|[]]]]; right; reflexivity.
  - intros row [<-|[<-|[<-|[]]]]; left; reflexivity.
Defined.

(** C2, as the code has it.  On every input whose normalised text has no
    dangling backslash (each backslash that is not itself escaped is
    followed by a code unit), [columnNamesToArray] splits the normalised
    text on the commas that no backslash escapes, trims the unescaped white
    space around each token, replaces each escape sequence by the code unit
    it escapes, drops the empty tokens and the reserved internal field
    names, and keeps the first occurrence of every remaining token, in
    order.  The four examples of the claim hold. *)
Theorem columnNamesToArray_parses (stringNormalize : jsstring -> jsstring) :
  (forall s,
     Spec.wellEscaped (normalize stringNormalize s) = true ->
     columnNamesToArray stringNormalize s
     = Ok (Spec.parseColumnNames (normalize stringNormalize s)))
  /\ (stringNormalize (js "Title,Surname") = js "Title,Surname" ->
      columnNamesToArray stringNormalize (js "Title,Surname")
      = Ok [js "Title"; js "Surname"])
  /\ (stringNormalize (js "A\,B,C") = js "A\,B,C" ->
      columnNamesToArray stringNormalize (js "A\,B,C")
      = Ok [js "A,B"; js "C"])
  /\ (stringNormalize (js "_id,Title") = js "_id,Title" ->
      columnNamesToArray stringNormalize (js "_id,Title") = Ok [js "Title"])
  /\ columnNamesToArray stringNormalize [] = Ok [].
Proof.
  split; [intros s; apply columnNamesToArray_parse|].
  assert (Ex : forall s,
            stringNormalize (js s) = js s ->
            Spec.wellEscaped (js s) = true ->
            columnNamesToArray stringNormalize (js s)
            = Ok (Spec.parseColumnNames (js s))).
  { intros s Hn Hw.
    assert (E : normalize stringNormalize (js s) = js s).
    { unfold normalize. destruct (js s); [reflexivity|exact Hn]. }
    rewrite <- E at 2. apply columnNamesToArray_parse. rewrite E. exact Hw. }
  split; [|split; [|split]].
  - intros H. rewrite (Ex _ H eq_refl). reflexivity.
  - intros H. rewrite (Ex _ H eq_refl). reflexivity.
  - intros H. rewrite (Ex _ H eq_refl). reflexivity.
  - reflexivity.
Qed.

Lemma columnNamesToArray_parses_witness :
  columnNamesToArray idNormalize (js " A\,B , C,_id,C , \ x")
  = Ok [js "A,B"; js "C"; js " x"].
Proof.
  exact (proj1 (columnNamesToArray_parses idNormalize)
           (js " A\,B , C,_id,C , \ x") eq_refl).
Defined.

(** C2 as stated fails on an input that ends in a dangling backslash: the
    token keeps its leading white space, and three backslashes after a text
    make two tokens although the input has no comma. *)
Lemma columnNamesToArray_dangling_backslash :
  columnNamesToArray idNormalize (js " B" ++ [backslash])
  = Ok [js " B" ++ [backslash]]
  /\ Spec.parseColumnNames (js " B" ++ [backslash]) = [js "B" ++ [backslash]]
  /\ columnNamesToArray idNormalize (js "A\\" ++ [backslash])
     = Ok [js "A" ++ [backslash]; [backslash]]
  /\ Spec.splitOnCommas (js "A\\" ++ [backslash])
     = [js "A\\" ++ [backslash]].
Proof. repeat split. Qed.

(* ================================================================== *)
(** * Further properties of the code *)
(* ================================================================== *)

(** ** Rows *)

Section DeleteFacts.

Lemma delete_filter (o : object) (k : jsstring) :
  Obj.delete o k = List.filter (fun p => negb (jsstring_eqb (fst p) k)) o.
Proof.
  induction o as [|[k' v] t IH]; [reflexivity|].
  cbn [Obj.delete List.filter fst].
  destruct (jsstring_eqb k' k); cbn [negb]; rewrite IH; reflexivity.
Qed.

Lemma filter_twice {A : Type} (f g : A -> bool) (l : list A) :
  List.filter f (List.filter g l) = List.filter (fun x => g x && f x) l.
Proof.
  induction l as [|x t IH]; [reflexivity|].
  cbn [List.filter]. destruct (g x); cbn [List.filter andb];
    [destruct (f x)|]; rewrite IH; reflexivity.
Qed.

Lemma fold_delete_filter (names : list jsstring) :
  forall o : object,
    fold_left Obj.delete names o
    = List.filter (fun p => negb (Order.member (fst p) names)) o.
Proof.
  induction names as [|n t IH]; intros o.
  - cbn [fold_left]. induction o as [|p o' IHo]; [reflexivity|].
    cbn [List.filter Order.member existsb negb]. f_equal. exact IHo.
  - cbn [fold_left]. rewrite IH, delete_filter, filter_twice.
    apply filter_ext. intros [k v]. cbn [fst].
    rewrite member_cons, negb_orb. reflexivity.
Qed.

Lemma get_filter_keys (f : jsstring -> bool) (o : object) (k : jsstring) :
  Obj.get (List.filter (fun p => f (fst p)) o) k
  = if f k then Obj.get o k else VUndefined.
Proof.
  induction o as [|[k' v] t IH].
  - destruct (f k); reflexivity.
  - cbn [List.filter fst]. destruct (jsstring_eqb k' k) eqn:E.
    + apply jsstring_eqb_eq in E. subst k'.
      destruct (f k) eqn:F.
      * cbn [Obj.get]. rewrite jsstring_eqb_refl. reflexivity.
      * exact IH.
    + destruct (f k') eqn:F'.
      * cbn [Obj.get]. rewrite E. exact IH.
      * rewrite IH. cbn [Obj.get]. rewrite E. reflexivity.
Qed.

End DeleteFacts.

(** X1.  [rowDeleteInternalColumns] removes the six internal fields and
    nothing else: the remaining keys are the row's other keys in their
    order, each with its value, and a second call changes nothing. *)
Theorem rowDeleteInternalColumns_only_internal (row : IRow) :
  Obj.keys (rowDeleteInternalColumns row)
  = List.filter (fun k => negb (Order.member k schema.internalNames))
      (Obj.keys row)
  /\ (forall k, In k schema.internalNames ->
        Obj.get (rowDeleteInternalColumns row) k = VUndefined
        /\ ~ In k (Obj.keys (rowDeleteInternalColumns row)))
  /\ (forall k, ~ In k schema.internalNames ->
        Obj.get (rowDeleteInternalColumns row) k = Obj.get row k)
  /\ rowDeleteInternalColumns (rowDeleteInternalColumns row)
     = rowDeleteInternalColumns row.
Proof.
  unfold rowDeleteInternalColumns.
  rewrite !fold_delete_filter.
  set (keep := fun k => negb (Order.member k schema.internalNames)).
  change (fun p : jsstring * value =>
            negb (Order.member (fst p) schema.internalNames))
    with (fun p : jsstring * value => keep (fst p)).
  assert (Hk : Obj.keys (List.filter (fun p => keep (fst p)) row)
               = List.filter keep (Obj.keys row)).
  { unfold Obj.keys. induction row as [|[k v] t IH]; [reflexivity|].
    cbn [List.filter List.map fst]. destruct (keep k);
      cbn [List.map fst]; rewrite IH; reflexivity. }
  split; [exact Hk|]. split; [|split].
  - intros k Hi. apply member_In in Hi. split.
    + rewrite get_filter_keys. unfold keep. rewrite Hi. reflexivity.
    + rewrite Hk. intros H. apply filter_In in H. destruct H as [_ H].
      unfold keep in H. rewrite Hi in H. discriminate H.
  - intros k Hn. rewrite get_filter_keys. unfold keep.
    destruct (Order.member k schema.internalNames) eqn:E; [|reflexivity].
    apply member_In in E. contradiction.
  - rewrite filter_twice. apply filter_ext. intros p.
    destruct (keep (fst p)); reflexivity.
Qed.

Section FormatTwice.

Lemma storeStep_ext (r1 r2 : IRow) :
  forall (names : list jsstring) (out : IRow),
    (forall c, In c names ->
       rowFormatColumn (Obj.get r1 c) = rowFormatColumn (Obj.get r2 c)) ->
    fold_left (storeStep r1) names out = fold_left (storeStep r2) names out.
Proof.
  induction names as [|n t IH]; intros out H; [reflexivity|].
  cbn [fold_left]. unfold storeStep at 2 4.
  rewrite (H n) by (left; reflexivity).
  apply IH. intros c Hc. apply H. right. exact Hc.
Qed.

Lemma rowFormatColumn_twice (v : value) :
  rowFormatColumn (rowFormatColumn v) = rowFormatColumn v.
Proof.
  destruct v as [| | | | |xs| |]; try reflexivity.
  cbn [rowFormatColumn]. destruct (forallb isString xs) eqn:E;
    [|reflexivity].
  cbn [rowFormatColumn]. rewrite E. reflexivity.
Qed.

Lemma dropFirst_filter (k : jsstring) (l : list jsstring) :
  ~ In k (dropFirst k l) ->
  List.filter (fun c => negb (jsstring_eqb c k)) l = dropFirst k l.
Proof.
  induction l as [|x t IH]; cbn [dropFirst List.filter]; [reflexivity|].
  destruct (jsstring_eqb x k) eqn:E; cbn [negb].
  - apply filter_absent.
  - cbn [In]. intros H. f_equal. apply IH. tauto.
Qed.

(** Under [__proto__] a row that [rowFormatColumns] made holds null or
    nothing. *)
Lemma formatted_proto (row : IRow) (columnNames : list jsstring) :
  rowFormatColumn (Obj.get (rowFormatColumns row columnNames) protoName)
  = VNull.
Proof.
  rewrite rowFormatColumns_get.
  destruct (Order.member protoName (storedNames row columnNames)) eqn:M;
    [|reflexivity].
  apply member_In, stored_proto in M. rewrite M. reflexivity.
Qed.

End FormatTwice.

(** X2.  Formatting is a projection: a row that [rowFormatColumns] made
    for the names [columnNames] is formatted to the selection [names] of
    those names as the original row is; with the same names it comes back
    unchanged.  This holds when [__proto__] is not requested twice in
    [names], or the row has nothing under it that the formatting keeps:
    a second request for [__proto__] stores null in the row that is
    formatted again, where the first formatting ignored a string, a
    number or a boolean of the row. *)
Theorem rowFormatColumns_again (row : IRow)
    (columnNames names : list jsstring) :
  (forall c, In c names -> In c columnNames) ->
  (~ In protoName (dropFirst protoName names)
   \/ rowFormatColumn (Obj.get row protoName) = VNull) ->
  rowFormatColumns (rowFormatColumns row columnNames) names
  = rowFormatColumns row names.
Proof.
  intros Hsub Hp.
  rewrite (rowFormatColumns_stored (rowFormatColumns row columnNames)),
    (rowFormatColumns_stored row names).
  assert (E1 : storedNames (rowFormatColumns row columnNames) names
               = dropFirst protoName names).
  { unfold storedNames. rewrite formatted_proto. reflexivity. }
  assert (E2 : storedNames row names = dropFirst protoName names).
  { unfold storedNames.
    destruct (rowFormatColumn (Obj.get row protoName)) eqn:F;
      try reflexivity;
      (destruct Hp as [Hp|Hp]; [apply dropFirst_filter, Hp|discriminate Hp]). }
  rewrite E1, E2. apply storeStep_ext. intros c Hc.
  destruct (list_eq_dec N.eq_dec c protoName) as [->|Hne].
  - rewrite formatted_proto.
    destruct Hp as [Hp|Hp]; [contradiction|symmetry; exact Hp].
  - rewrite rowFormatColumns_get.
    replace (Order.member c (storedNames row columnNames)) with true.
    + apply rowFormatColumn_twice.
    + symmetry. apply member_In, stored_other; [exact Hne|].
      apply Hsub. exact (dropFirst_In _ _ _ Hc).
Qed.

Lemma rowFormatColumns_again_witness :
  rowFormatColumns
    (rowFormatColumns sampleTwoCells [js "Xk3q"; js "none"; js "0000"])
    [js "0000"; js "none"]
  = [(js "0000", VString (js "x")); (js "none", VNull)].
Proof.
  rewrite (rowFormatColumns_again sampleTwoCells
             [js "Xk3q"; js "none"; js "0000"] [js "0000"; js "none"]).
  - reflexivity.
  - intros c [<-|[<-|[]]]; simpl; tauto.
  - left. vm_compute. intuition discriminate.
Defined.

(** Without the condition the two sides differ: the row has a text under
    [__proto__], which the first formatting ignores twice, while the second
    formatting reads nothing there and stores null at the second request. *)
Lemma rowFormatColumns_again_proto_twice :
  rowFormatColumns
    (rowFormatColumns [(protoName, VString (js "x"))] [protoName; protoName])
    [protoName; protoName]
  = [(protoName, VNull)]
  /\ rowFormatColumns [(protoName, VString (js "x"))] [protoName; protoName]
     = [].
Proof. split; reflexivity. Qed.

(** X3.  [rowsSequence] is idempotent: once it ran, its own test on the
    first row makes every later call return the collection as it is. *)
Theorem rowsSequence_idempotent (rows : IRows) :
  rowsSequence (rowsSequence rows) = rowsSequence rows.
Proof.
  destruct rows as [|first rest]; [reflexivity|].
  destruct (isUndefined (Obj.get first seqName)) eqn:E.
  - assert (H : rowsSequence (first :: rest)
                = rowsSequenceFrom 0 (first :: rest))
      by (unfold rowsSequence; rewrite E; reflexivity).
    rewrite H. cbn [rowsSequenceFrom]. unfold rowsSequence.
    rewrite get_set_same. reflexivity.
  - assert (H : rowsSequence (first :: rest) = first :: rest)
      by (unfold rowsSequence; rewrite E; reflexivity).
    rewrite H. exact H.
Qed.

(** X4.  What [rowMapColumnsFromKeysToNames] does with the internal
    fields: an internal field whose value is truthy is deleted from the
    caller's row and, unless a column of the row bears its name, is in the
    output with that value; an internal field whose value is falsy (0, the
    empty string, false, null) stays in the caller's row, and every other
    entry of the caller's row is left as it was. *)
Theorem rowMapColumnsFromKeysToNames_internal (row : IRow)
    (cols : list IDtableMetadataColumn) (k : jsstring) :
  (In k schema.internalNames -> truthy (Obj.get row k) = true ->
   Obj.get (snd (rowMapColumnsFromKeysToNames row cols)) k = VUndefined
   /\ ~ In k (Obj.keys (snd (rowMapColumnsFromKeysToNames row cols)))
   /\ ((forall c, In c cols -> In (key c) (Obj.keys row) -> name c <> k) ->
       Obj.get (fst (rowMapColumnsFromKeysToNames row cols)) k
       = Obj.get row k))
  /\ ((~ In k schema.internalNames \/ truthy (Obj.get row k) = false) ->
      Obj.get (snd (rowMapColumnsFromKeysToNames row cols)) k
      = Obj.get row k
      /\ (In k (Obj.keys (snd (rowMapColumnsFromKeysToNames row cols)))
          <-> In k (Obj.keys row))).
Proof.
  destruct (firstLoop_spec row) as (I1 & I2 & I3 & I4).
  assert (Hs : snd (rowMapColumnsFromKeysToNames row cols)
               = snd (firstLoop row)).
  { rewrite rowMap_eq. destruct (isArrayLike (snd (firstLoop row)));
      reflexivity. }
  rewrite Hs. split.
  - intros Hi Ht.
    assert (Hm : moved schema.internalNames row k = true)
      by (apply moved_iff; split; assumption).
    split; [rewrite I1, Hm; reflexivity|]. split.
    + intros H. apply I2 in H. destruct H as [_ H]. congruence.
    + intros Hn. rewrite rowMap_eq.
      destruct (isArrayLike (snd (firstLoop row))); cbn [fst].
      * rewrite I3, Hm. reflexivity.
      * rewrite translate_get_unnamed.
        -- cbn [Obj.literal Obj.own]. rewrite I3, Hm. reflexivity.
        -- intros k0 c H0 E. apply columnOfKey_some in E.
           destruct E as [Hc Hk]. apply (Hn c Hc).
           rewrite Hk. apply I2 in H0. tauto.
  - intros Hc.
    assert (Hm : moved schema.internalNames row k = false).
    { destruct (moved schema.internalNames row k) eqn:E; [|reflexivity].
      apply moved_iff in E. destruct Hc as [Hc|Hc]; [tauto|].
      destruct E as [_ E]. congruence. }
    split; [rewrite I1, Hm; reflexivity|].
    rewrite I2. tauto.
Qed.

Lemma rowMapColumnsFromKeysToNames_internal_witness :
  Obj.get (fst (rowMapColumnsFromKeysToNames sampleInserted sampleColumns))
    (js "_id") = VString (js "r1")
  /\ Obj.get (snd (rowMapColumnsFromKeysToNames sampleInserted sampleColumns))
       (js "_seq") = VNumber 0%Q.
Proof.
  split.
  - destruct (proj1 (rowMapColumnsFromKeysToNames_internal sampleInserted
                       sampleColumns (js "_id")))
      as (_ & _ & H).
    + simpl; tauto.
    + reflexivity.
    + rewrite H; [reflexivity|].
      intros c [<-|[<-|[]]] _; discriminate.
  - destruct (proj2 (rowMapColumnsFromKeysToNames_internal sampleInserted
                       sampleColumns (js "_seq")))
      as [H _].
    + right. reflexivity.
    + rewrite H. reflexivity.
Defined.

(** ** Paginated fetch: failures and pages that never get short *)

Section FullPages.

Variable srv : server.
Variable pages : nat -> list IRow.
Variable k : nat.

Hypothesis replies : forall i q, i < k -> srv i q = Body (Some (pages i)).
Hypothesis full : forall i, i < k -> (999 < N.of_nat (length (pages i)))%N.

Lemma loop_full :
  forall (d n : nat), n + d = k ->
  forall (fuel : nat) (query : object) (returnData : list IRow)
         (sent : list object),
    exists query' sent',
      apiRequestLoop srv (d + fuel) n query returnData sent
      = apiRequestLoop srv fuel k query'
          (returnData ++ concat (List.map pages (seq n d))) sent'
      /\ length sent' = length sent + d.
Proof.
  induction d as [|d IH]; intros n Hn fuel query returnData sent.
  - exists query, sent. replace n with k by lia.
    cbn [seq List.map concat Nat.add]. rewrite app_nil_r.
    split; [reflexivity|lia].
  - cbn [Nat.add apiRequestLoop]. rewrite (replies n query) by lia.
    change (segment - 1)%N with 999%N.
    replace (999 <? N.of_nat (length (pages n)))%N with true
      by (symmetry; apply N.ltb_lt, full; lia).
    destruct (IH (S n) ltac:(lia) fuel
                (Obj.set query startName
                   (VNumber (toNumber (Obj.get query startName)
                             + inject_Z (Z.of_N segment))%Q))
                (returnData ++ pages n) (sent ++ [query]))
      as (query' & sent' & He & Hl).
    exists query', sent'. rewrite He.
    cbn [seq List.map concat]. rewrite app_assoc.
    split; [reflexivity|]. rewrite Hl, length_app. cbn [length]. lia.
Qed.

End FullPages.

(** X5.  A request that fails aborts the whole fetch.  When the pages
    before page k are full and request k fails, [apiRequestAllItems]
    throws the API error after exactly k + 1 requests: the rows of the
    earlier pages are not returned and no request is repeated. *)
Theorem apiRequestAllItems_failed_request (srv : server)
    (pages : nat -> list IRow) (k fuel : nat) (query : option object) :
  (forall i q, i < k -> srv i q = Body (Some (pages i))) ->
  (forall i, i < k -> (999 < N.of_nat (length (pages i)))%N) ->
  (forall q, srv k q = RequestFailed) ->
  k < fuel ->
  outcome_of (apiRequestAllItems srv fuel query) = Throw NodeApiError
  /\ length (requests_of (apiRequestAllItems srv fuel query)) = S k.
Proof.
  intros Hr Hf Hk Hlt. unfold apiRequestAllItems.
  replace fuel with (k + S (fuel - S k)) by lia.
  destruct (loop_full srv pages k Hr Hf k 0 eq_refl (S (fuel - S k))
              (Obj.set (Obj.set (callerQuery query) startName (VNumber 0%Q))
                 limitName (VNumber (inject_Z (Z.of_N segment))))
              [] [])
    as (query' & sent' & He & Hl).
  rewrite He. cbn [apiRequestLoop]. rewrite Hk.
  cbn [outcome_of requests_of]. split; [reflexivity|].
  rewrite length_app, Hl. cbn [length]. lia.
Qed.

Lemma apiRequestAllItems_failed_request_witness :
  outcome_of (apiRequestAllItems sampleFailingServer 5 None)
  = Throw NodeApiError
  /\ length (requests_of (apiRequestAllItems sampleFailingServer 5 None)) = 2.
Proof.
  apply (apiRequestAllItems_failed_request sampleFailingServer
           sampleFullPages 1 5 None).
  - intros i q Hi. replace i with 0 by lia. reflexivity.
  - intros i _. vm_compute. reflexivity.
  - intros q. reflexivity.
  - lia.
Defined.

(** X6.  A reply that has no [rows] ends the fetch without an error: when
    the pages before page k are full and reply k carries no [rows],
    [apiRequestAllItems] returns the rows of pages 0 to k - 1 after exactly
    k + 1 requests. *)
Theorem apiRequestAllItems_reply_without_rows (srv : server)
    (pages : nat -> list IRow) (k fuel : nat) (query : option object) :
  (forall i q, i < k -> srv i q = Body (Some (pages i))) ->
  (forall i, i < k -> (999 < N.of_nat (length (pages i)))%N) ->
  (forall q, srv k q = Body None) ->
  k < fuel ->
  outcome_of (apiRequestAllItems srv fuel query)
  = Ok (concat (List.map pages (seq 0 k)))
  /\ length (requests_of (apiRequestAllItems srv fuel query)) = S k.
Proof.
  intros Hr Hf Hk Hlt. unfold apiRequestAllItems.
  replace fuel with (k + S (fuel - S k)) by lia.
  destruct (loop_full srv pages k Hr Hf k 0 eq_refl (S (fuel - S k))
              (Obj.set (Obj.set (callerQuery query) startName (VNumber 0%Q))
                 limitName (VNumber (inject_Z (Z.of_N segment))))
              [] [])
    as (query' & sent' & He & Hl).
  rewrite He. cbn [apiRequestLoop]. rewrite Hk.
  cbn [outcome_of requests_of app]. split; [reflexivity|].
  rewrite length_app, Hl. cbn [length]. lia.
Qed.

Lemma apiRequestAllItems_reply_without_rows_witness :
  outcome_of (apiRequestAllItems sampleRowlessServer 5 None)
  = Ok (concat (List.map sampleFullPages (seq 0 1)))
  /\ length (requests_of (apiRequestAllItems sampleRowlessServer 5 None)) = 2.
Proof.
  apply (apiRequestAllItems_reply_without_rows sampleRowlessServer
           sampleFullPages 1 5 None).
  - intros i q Hi. replace i with 0 by lia. reflexivity.
  - intros i _. vm_compute. reflexivity.
  - intros q. reflexivity.
  - lia.
Defined.

(** X7.  The loop has no bound of its own.  Against a server whose every
    page has more than 999 rows, [apiRequestAllItems] has not returned
    after any number of requests: whatever the fuel, all of it is spent on
    requests and the outcome is still open. *)
Theorem apiRequestAllItems_never_short (srv : server)
    (pages : nat -> list IRow) (fuel : nat) (query : option object) :
  (forall i q, srv i q = Body (Some (pages i))) ->
  (forall i, (999 < N.of_nat (length (pages i)))%N) ->
  outcome_of (apiRequestAllItems srv fuel query) = Diverge
  /\ length (requests_of (apiRequestAllItems srv fuel query)) = fuel.
Proof.
  intros Hr Hf. unfold apiRequestAllItems.
  destruct (loop_full srv pages fuel (fun i q _ => Hr i q)
              (fun i _ => Hf i) fuel 0 eq_refl 0
              (Obj.set (Obj.set (callerQuery query) startName (VNumber 0%Q))
                 limitName (VNumber (inject_Z (Z.of_N segment))))
              [] [])
    as (query' & sent' & He & Hl).
  rewrite Nat.add_0_r in He. rewrite He.
  cbn [apiRequestLoop outcome_of requests_of]. split; [reflexivity|].
  rewrite Hl. reflexivity.
Qed.

Lemma apiRequestAllItems_never_short_witness :
  outcome_of (apiRequestAllItems (serverOf sampleFullPages) 4 None) = Diverge
  /\ length (requests_of (apiRequestAllItems (serverOf sampleFullPages) 4
                            None)) = 4.
Proof.
  apply (apiRequestAllItems_never_short (serverOf sampleFullPages)
           sampleFullPages 4 None).
  - intros i q. reflexivity.
  - intros i. vm_compute. reflexivity.
Defined.

(** ** The trigger and the list operation *)

Section PollFacts.

Lemma selectColumnNames_eq (first : IDtableMetadataColumn)
    (others : list IDtableMetadataColumn) (columnNames : list jsstring) :
  selectColumnNames (first :: others) columnNames
  = Ok (name first :: List.filter (knownName (first :: others)) columnNames).
Proof.
  unfold selectColumnNames.
  rewrite (filter_ext _ (knownName (first :: others)))
    by (intros n; apply find_known).
  cbn [List.filter]. unfold knownName at 1. cbn [existsb].
  rewrite jsstring_eqb_refl. reflexivity.
Qed.

Lemma selectColumnNames_ok (dtableColumns : list IDtableMetadataColumn)
    (columnNames names : list jsstring) :
  selectColumnNames dtableColumns columnNames = Ok names ->
  exists first others,
    dtableColumns = first :: others
    /\ names = name first
               :: List.filter (knownName (first :: others)) columnNames.
Proof.
  destruct dtableColumns as [|first others]; [discriminate|].
  rewrite selectColumnNames_eq. intros H. injection H as <-.
  exists first, others. split; reflexivity.
Qed.

Lemma format_keys_In (row : IRow) :
  forall (names : list jsstring) (out : IRow) (k : jsstring),
    In k (Obj.keys (fold_left (storeStep row) names out))
    <-> In k (Obj.keys out) \/ In k names.
Proof.
  induction names as [|n t IH]; intros out k.
  - cbn [fold_left In]. tauto.
  - cbn [fold_left]. rewrite IH. unfold storeStep. rewrite In_keys_set.
    cbn [In]. intuition congruence.
Qed.

Lemma rowFormatColumns_keys_In (row : IRow) (names : list jsstring)
    (k : jsstring) :
  In k (Obj.keys (rowFormatColumns row names))
  <-> In k (storedNames row names).
Proof.
  rewrite rowFormatColumns_stored, format_keys_In.
  cbn [Obj.keys List.map In]. tauto.
Qed.

Lemma rowFormatColumn_range (v : value) :
  rowFormatColumn v = VNull \/ whitelisted (rowFormatColumn v) = true.
Proof.
  destruct v as [| | | | |xs| |]; cbn [rowFormatColumn whitelisted]; auto.
  destruct (forallb isString xs) eqn:E; [|auto].
  right. cbn [whitelisted]. exact E.
Qed.

(** What holds of every item made by [rowsFormatColumns] for the names
    that [selectColumnNames] chose. *)
Lemma selected_items (first : IDtableMetadataColumn)
    (others : list IDtableMetadataColumn) (columnNames : list jsstring)
    (rows : IRows) (item : IRow) :
  In item
    (rowsFormatColumns rows
       (name first
        :: List.filter (knownName (first :: others)) columnNames)) ->
  (name first <> protoName -> In (name first) (Obj.keys item))
  /\ (forall k, In k (Obj.keys item) ->
        (k = name first \/ In k columnNames)
        /\ exists column, In column (first :: others) /\ name column = k)
  /\ (forall k, In k (Obj.keys item) ->
        Obj.get item k = VNull \/ whitelisted (Obj.get item k) = true).
Proof.
  unfold rowsFormatColumns. rewrite in_map_iff. intros (row & <- & _).
  set (names := name first
                :: List.filter (knownName (first :: others)) columnNames).
  assert (Hk : forall k, In k (Obj.keys (rowFormatColumns row names))
                         -> In k names).
  { intros k H. apply rowFormatColumns_keys_In, stored_In in H. exact H. }
  split; [|split].
  - intros Hp. apply rowFormatColumns_keys_In, stored_other; [exact Hp|].
    left. reflexivity.
  - intros k H. apply Hk in H. destruct H as [<-|H].
    + split; [left; reflexivity|]. exists first.
      split; [left|]; reflexivity.
    + apply filter_In in H. destruct H as [H1 H2].
      split; [right; exact H1|]. apply knownName_In, H2.
  - intros k H. apply rowFormatColumns_keys_In in H.
    rewrite rowFormatColumns_get.
    replace (Order.member k (storedNames row names)) with true
      by (symmetry; apply member_In, H).
    apply rowFormatColumn_range.
Qed.

Lemma rowsSequence_get (columnName : jsstring) (rows : IRows) (row' : IRow) :
  columnName <> seqName ->
  In row' (rowsSequence rows) ->
  exists row, In row rows
              /\ Obj.get row' columnName = Obj.get row columnName.
Proof.
  intros Hne.
  assert (G : forall l i, In row' (rowsSequenceFrom i l) ->
                exists row, In row l
                  /\ Obj.get row' columnName = Obj.get row columnName).
  { induction l as [|r t IH]; intros i H; [destruct H|].
    cbn [rowsSequenceFrom] in H. destruct H as [<-|H].
    - exists r. split; [left; reflexivity|].
      apply get_set_other. exact Hne.
    - destruct (IH (S i) H) as (row & Hr & E).
      exists row. split; [right; exact Hr|exact E]. }
  unfold rowsSequence. destruct rows as [|first rest]; [intros []|].
  destruct (negb (isUndefined (Obj.get first seqName))).
  - intros H. exists row'. split; [exact H|reflexivity].
  - apply G.
Qed.

Lemma triggerColumn_not_seq (op : TTriggerOperationValue) :
  triggerColumnOf op <> seqName.
Proof. destruct op; discriminate. Qed.

Lemma filter_none {A : Type} (f : A -> bool) (l : list A) :
  (forall x, In x l -> f x = false) -> List.filter f l = [].
Proof.
  induction l as [|x t IH]; intros H; [reflexivity|].
  cbn [List.filter]. rewrite (H x) by (left; reflexivity).
  apply IH. intros y Hy. apply H. right. exact Hy.
Qed.

Variable looseGreater : value -> jsstring -> bool.
Variable looseCompare : value -> value -> comparison.

Lemma rowsTimeFilter_none (rows : IRows) (columnName startDate : jsstring) :
  columnName <> seqName ->
  (forall row, In row rows ->
     greaterThan looseGreater (Obj.get row columnName) startDate = false) ->
  rowsTimeFilter looseGreater rows columnName startDate = [].
Proof.
  intros Hne H. unfold rowsTimeFilter. apply filter_none.
  intros row' Hr.
  destruct (rowsSequence_get columnName rows row' Hne Hr) as (row & Hi & E).
  rewrite E. apply H, Hi.
Qed.

Lemma rowsTimeFilter_length (rows : IRows) (columnName startDate : jsstring) :
  length (rowsTimeFilter looseGreater rows columnName startDate)
  <= length rows.
Proof.
  unfold rowsTimeFilter.
  assert (L : length (rowsSequence rows) = length rows).
  { unfold rowsSequence. destruct rows as [|first rest]; [reflexivity|].
    destruct (negb (isUndefined (Obj.get first seqName)));
      [reflexivity|apply rowsSequenceFrom_length]. }
  rewrite <- L. apply filter_length_le.
Qed.

Lemma rowsTimeSort_length (rows : IRows) (columnName : jsstring) :
  length (rowsTimeSort looseCompare rows columnName) = length rows.
Proof.
  unfold rowsTimeSort.
  assert (L : length (rowsSequence rows) = length rows).
  { unfold rowsSequence. destruct rows as [|first rest]; [reflexivity|].
    destruct (negb (isUndefined (Obj.get first seqName)));
      [reflexivity|apply rowsSequenceFrom_length]. }
  rewrite <- L. symmetry. apply Permutation_length, orderBy_perm.
Qed.

End PollFacts.

(** X8.  A fetch that brings rows of which none is newer than the cursor
    makes [poll] return an empty list of items, not null: null is returned
    only when the fetch itself is empty, since the test on the number of
    rows comes before the filter.  The cursor moves to the time of the
    poll. *)
Theorem poll_nothing_newer
    (stringNormalize : jsstring -> jsstring)
    (looseGreater : value -> jsstring -> bool)
    (looseCompare : value -> value -> comparison)
    (fuel : nat) (i : pollInput) (columnNames : list jsstring)
    (first : IDtableMetadataColumn) (others : list IDtableMetadataColumn)
    (row : IRow) (rows : IRows) :
  requestedNames stringNormalize (columnNamesField i) = Ok columnNames ->
  (tables <- metadata i ;; apiDtableColumns tables (tableName i))
  = Ok (first :: others) ->
  outcome_of
    (apiRequestAllItems (network i) fuel
       (Some (Obj.set [] (js "table_name") (VString (tableName i)))))
  = Ok (row :: rows) ->
  (manual i = false
   \/ Obj.get row (triggerColumnOf (operation i)) <> VUndefined) ->
  (forall r, In r (row :: rows) ->
     greaterThan looseGreater (Obj.get r (triggerColumnOf (operation i)))
       (startDateOf i) = false) ->
  poll stringNormalize looseGreater looseCompare fuel i
  = PollOutput (Ok (Some [])) (Some (now i)).
Proof.
  intros Hn Hm Hr Hc Hold. unfold poll. rewrite Hn, Hm, Hr.
  replace (manual i
           && isUndefined (Obj.get row (triggerColumnOf (operation i))))%bool
    with false.
  - rewrite rowsTimeFilter_none;
      [|apply triggerColumn_not_seq|exact Hold].
    rewrite selectColumnNames_eq. reflexivity.
  - symmetry. apply andb_false_iff. destruct Hc as [Hc|Hc]; [left; exact Hc|].
    right.
    destruct (isUndefined (Obj.get row (triggerColumnOf (operation i))))
      eqn:E; [|reflexivity].
    apply isUndefined_iff in E. contradiction.
Qed.

Lemma poll_nothing_newer_witness :
  poll idNormalize (fun _ _ => false) (fun _ _ => Eq) 1 sampleLatePoll
  = PollOutput (Ok (Some [])) (Some sampleT2).
Proof.
  refine (poll_nothing_newer idNormalize (fun _ _ => false) (fun _ _ => Eq)
            1 sampleLatePoll []
            (Column (js "0000") (js "Title") (js "text"))
            [Column (js "Xk3q") (js "Surname") (js "text")]
            _ _ eq_refl eq_refl eq_refl _ _).
  - left. reflexivity.
  - intros r [<-|[<-|[<-|[]]]]; reflexivity.
Defined.

(** X9.  In manual mode [poll] looks at the first fetched row only: when
    that row has no value in the trigger column, the poll fails with the
    message that the field does not exist, whatever the other rows hold,
    and the cursor has already moved to the time of the poll. *)
Theorem poll_manual_missing_field
    (stringNormalize : jsstring -> jsstring)
    (looseGreater : value -> jsstring -> bool)
    (looseCompare : value -> value -> comparison)
    (fuel : nat) (i : pollInput) (columnNames : list jsstring)
    (dtableColumns : list IDtableMetadataColumn)
    (row : IRow) (rows : IRows) :
  requestedNames stringNormalize (columnNamesField i) = Ok columnNames ->
  (tables <- metadata i ;; apiDtableColumns tables (tableName i))
  = Ok dtableColumns ->
  outcome_of
    (apiRequestAllItems (network i) fuel
       (Some (Obj.set [] (js "table_name") (VString (tableName i)))))
  = Ok (row :: rows) ->
  manual i = true ->
  Obj.get row (triggerColumnOf (operation i)) = VUndefined ->
  poll stringNormalize looseGreater looseCompare fuel i
  = PollOutput
      (Throw (NodeOperationError
                (js "The Field " ++ [quote] ++ triggerColumnOf (operation i)
                 ++ [quote] ++ js " does not exist.")))
      (Some (now i)).
Proof.
  intros Hn Hm Hr Hman Hu. unfold poll. rewrite Hn, Hm, Hr, Hman, Hu.
  reflexivity.
Qed.

Lemma poll_manual_missing_field_witness :
  poll idNormalize (fun _ _ => false) (fun _ _ => Eq) 1 sampleManualPoll
  = PollOutput
      (Throw (NodeOperationError
                (js "The Field " ++ [quote] ++ js "_ctime" ++ [quote]
                 ++ js " does not exist.")))
      (Some sampleT2).
Proof.
  exact (poll_manual_missing_field idNormalize (fun _ _ => false)
           (fun _ _ => Eq) 1 sampleManualPoll [] sampleColumns
           sampleRowA [] eq_refl eq_refl eq_refl eq_refl eq_refl).
Defined.

(** X10.  The cursor of the trigger.  Whenever [poll] returns, with null
    or with items, the stored cursor is the time of the poll; when the
    column names, the metadata or the fetch fail, the cursor is the one
    that was stored before, so the next poll covers the same span again.
    No other value is ever stored. *)
Theorem poll_cursor
    (stringNormalize : jsstring -> jsstring)
    (looseGreater : value -> jsstring -> bool)
    (looseCompare : value -> value -> comparison)
    (fuel : nat) (i : pollInput) :
  let out := poll stringNormalize looseGreater looseCompare fuel i in
  (forall items, returned out = Ok items -> storedAfter out = Some (now i))
  /\ ((forall columnNames,
         requestedNames stringNormalize (columnNamesField i)
         <> Ok columnNames)
      \/ (forall dtableColumns,
            (tables <- metadata i ;; apiDtableColumns tables (tableName i))
            <> Ok dtableColumns)
      \/ (forall rows,
            outcome_of
              (apiRequestAllItems (network i) fuel
                 (Some (Obj.set [] (js "table_name")
                          (VString (tableName i)))))
            <> Ok rows) ->
      storedAfter out = stored i
      /\ forall items, returned out <> Ok items)
  /\ (storedAfter out = stored i \/ storedAfter out = Some (now i)).
Proof.
  cbv zeta. unfold poll.
  destruct (requestedNames stringNormalize (columnNamesField i))
    as [columnNames|e|] eqn:En.
  2,3: (split; [intros items H; discriminate H|];
        split; [intros _; split; [reflexivity|intros items H; discriminate H]
               |left; reflexivity]).
  destruct (tables <- metadata i ;; apiDtableColumns tables (tableName i))
    as [dtableColumns|e|] eqn:Em.
  2,3: (split; [intros items H; discriminate H|];
        split; [intros _; split; [reflexivity|intros items H; discriminate H]
               |left; reflexivity]).
  destruct (outcome_of
              (apiRequestAllItems (network i) fuel
                 (Some (Obj.set [] (js "table_name")
                          (VString (tableName i))))))
    as [rows|e|] eqn:Er.
  2,3: (split; [intros items H; discriminate H|];
        split; [intros _; split; [reflexivity|intros items H; discriminate H]
               |left; reflexivity]).
  assert (Hno : (forall columnNames0 : list jsstring,
                   Ok columnNames <> Ok columnNames0)
                \/ (forall dtableColumns0 : list IDtableMetadataColumn,
                      Ok dtableColumns <> Ok dtableColumns0)
                \/ (forall rows0 : list IRow, Ok rows <> Ok rows0) -> False).
  { intros [H|[H|H]]; eapply H; reflexivity. }
  destruct rows as [|first rest].
  - cbn [returned storedAfter]. split; [reflexivity|].
    split; [intros H; destruct (Hno H)|right; reflexivity].
  - destruct (manual i
              && isUndefined (Obj.get first (triggerColumnOf (operation i))))%bool.
    + cbn [returned storedAfter]. split; [reflexivity|].
      split; [intros H; destruct (Hno H)|right; reflexivity].
    + destruct (selectColumnNames dtableColumns columnNames);
        cbn [returned storedAfter];
        (split; [reflexivity|];
         split; [intros H; destruct (Hno H)|right; reflexivity]).
Qed.

(** X11.  The items that [poll] emits.  There are at most as many items
    as fetched rows, and the keys of every item are names of columns of
    the table that have a known type: the name of the first such column is
    always among them, unless that name is [__proto__], under which an
    assignment stores nothing; every other key was asked for in the columns
    field, and each value is null, a boolean, a number, a string or an
    array of strings. *)
Theorem poll_items
    (stringNormalize : jsstring -> jsstring)
    (looseGreater : value -> jsstring -> bool)
    (looseCompare : value -> value -> comparison)
    (fuel : nat) (i : pollInput) (items : list IRow)
    (after : option jsstring) :
  poll stringNormalize looseGreater looseCompare fuel i
  = PollOutput (Ok (Some items)) after ->
  exists columnNames first others rows,
    requestedNames stringNormalize (columnNamesField i) = Ok columnNames
    /\ (tables <- metadata i ;; apiDtableColumns tables (tableName i))
       = Ok (first :: others)
    /\ outcome_of
         (apiRequestAllItems (network i) fuel
            (Some (Obj.set [] (js "table_name") (VString (tableName i)))))
       = Ok rows
    /\ length items <= length rows
    /\ forall item, In item items ->
         (name first <> protoName -> In (name first) (Obj.keys item))
         /\ (forall k, In k (Obj.keys item) ->
               (k = name first \/ In k columnNames)
               /\ exists column,
                    In column (first :: others) /\ name column = k)
         /\ (forall k, In k (Obj.keys item) ->
               Obj.get item k = VNull
               \/ whitelisted (Obj.get item k) = true).
Proof.
  unfold poll.
  destruct (requestedNames stringNormalize (columnNamesField i))
    as [columnNames|e|] eqn:En; [|discriminate|discriminate].
  destruct (tables <- metadata i ;; apiDtableColumns tables (tableName i))
    as [dtableColumns|e|] eqn:Em; [|discriminate|discriminate].
  destruct (outcome_of
              (apiRequestAllItems (network i) fuel
                 (Some (Obj.set [] (js "table_name")
                          (VString (tableName i))))))
    as [rows|e|] eqn:Er; [|discriminate|discriminate].
  destruct rows as [|row rest]; [discriminate|].
  destruct (manual i
            && isUndefined (Obj.get row (triggerColumnOf (operation i))))%bool;
    [discriminate|].
  destruct (selectColumnNames dtableColumns columnNames) as [names|e|] eqn:Es;
    [|discriminate|discriminate].
  intros H. injection H as Hi _.
  destruct (selectColumnNames_ok _ _ _ Es) as (first & others & -> & ->).
  exists columnNames, first, others, (row :: rest).
  split; [reflexivity|]. split; [reflexivity|]. split; [reflexivity|].
  split.
  - rewrite <- Hi. unfold rowsFormatColumns. rewrite length_map.
    rewrite rowsTimeSort_length.
    apply rowsTimeFilter_length.
  - intros item Hin. rewrite <- Hi in Hin.
    exact (selected_items first others columnNames _ item Hin).
Qed.

Lemma poll_items_witness :
  exists columnNames first others rows,
    requestedNames idNormalize (columnNamesField sampleNewsPoll)
    = Ok columnNames
    /\ (tables <- metadata sampleNewsPoll ;;
        apiDtableColumns tables (tableName sampleNewsPoll))
       = Ok (first :: others)
    /\ outcome_of
         (apiRequestAllItems (network sampleNewsPoll) 1
            (Some (Obj.set [] (js "table_name")
                     (VString (tableName sampleNewsPoll)))))
       = Ok rows
    /\ length [[(js "Title", VString (js "Bob")); (js "Surname", VNull)]]
       <= length rows
    /\ forall item,
         In item [[(js "Title", VString (js "Bob")); (js "Surname", VNull)]] ->
         (name first <> protoName -> In (name first) (Obj.keys item))
         /\ (forall k, In k (Obj.keys item) ->
               (k = name first \/ In k columnNames)
               /\ exists column,
                    In column (first :: others) /\ name column = k)
         /\ (forall k, In k (Obj.keys item) ->
               Obj.get item k = VNull
               \/ whitelisted (Obj.get item k) = true).
Proof.
  exact (poll_items idNormalize (fun _ _ => false) (fun _ _ => Eq) 1
           sampleNewsPoll _ (Some sampleT2) eq_refl).
Defined.

(** ** The matcher never lacks fuel and never moves backwards *)

Section EngineFacts.

Lemma repeat_fuel (m : mstate -> continuation -> outcome)
    (greedy reset : bool) :
  (forall x c,
     (forall y, length (ahead y) <= length (ahead x) -> c y <> NoFuel) ->
     m x c <> NoFuel) ->
  forall fuel x c,
    length (ahead x) < fuel ->
    (forall y, length (ahead y) <= length (ahead x) -> c y <> NoFuel) ->
    repeatMatcher m greedy reset fuel x c <> NoFuel.
Proof.
  intros Hm. induction fuel as [|fuel IH]; intros x c Hf Hc; [lia|].
  cbn [repeatMatcher].
  set (d := fun y : mstate =>
              if Nat.eqb (length (ahead y)) (length (ahead x)) then Failure
              else repeatMatcher m greedy reset fuel y c).
  assert (Hd : forall y, length (ahead y) <= length (ahead x) ->
                         d y <> NoFuel).
  { intros y Hy. unfold d.
    destruct (Nat.eqb_spec (length (ahead y)) (length (ahead x)));
      [discriminate|].
    apply IH; [lia|]. intros z Hz. apply Hc. lia. }
  set (xr := if reset then MState (ahead x) None else x).
  assert (Hxr : ahead xr = ahead x) by (unfold xr; destruct reset; reflexivity).
  assert (Hmx : m xr d <> NoFuel) by (apply Hm; rewrite Hxr; exact Hd).
  destruct greedy.
  - destruct (m xr d); [contradiction|apply Hc; lia|discriminate].
  - destruct (c x) eqn:E; [|exact Hmx|discriminate].
    exfalso. apply (Hc x); [lia|exact E].
Qed.

Lemma matcher_fuel (r : regex) :
  forall x c,
    (forall y, length (ahead y) <= length (ahead x) -> c y <> NoFuel) ->
    matcher r x c <> NoFuel.
Proof.
  induction r as [k|a IHa b IHb|a IHa b IHb|greedy a IHa|a IHa|];
    intros x c Hc; cbn [matcher].
  - destruct (ahead x) as [|ch t] eqn:E; [discriminate|].
    destruct (inClass k ch); [|discriminate].
    apply Hc. cbn [ahead length]. lia.
  - apply IHa. intros y Hy. apply IHb. intros z Hz. apply Hc. lia.
  - pose proof (IHa x c Hc) as Ha. pose proof (IHb x c Hc) as Hb.
    destruct (matcher a x c); [contradiction|exact Hb|discriminate].
  - apply repeat_fuel; [exact IHa|lia|exact Hc].
  - apply IHa. intros y Hy. apply Hc. cbn [ahead]. exact Hy.
  - pose proof (Hc x (le_n _)) as Hx.
    destruct (ahead x); [exact Hx|discriminate].
Qed.

Lemma repeat_shorter (m : mstate -> continuation -> outcome)
    (greedy reset : bool) :
  (forall x c z, m x c = Matched z ->
     exists y, length (ahead y) <= length (ahead x) /\ c y = Matched z) ->
  forall fuel x c z,
    repeatMatcher m greedy reset fuel x c = Matched z ->
    exists y, length (ahead y) <= length (ahead x) /\ c y = Matched z.
Proof.
  intros Hm. induction fuel as [|fuel IH]; intros x c z H; [discriminate H|].
  cbn [repeatMatcher] in H.
  set (d := fun y : mstate =>
              if Nat.eqb (length (ahead y)) (length (ahead x)) then Failure
              else repeatMatcher m greedy reset fuel y c) in H.
  set (xr := if reset then MState (ahead x) None else x) in H.
  assert (Hxr : ahead xr = ahead x) by (unfold xr; destruct reset; reflexivity).
  assert (Hd : m xr d = Matched z ->
               exists y, length (ahead y) <= length (ahead x)
                         /\ c y = Matched z).
  { intros E. destruct (Hm _ _ _ E) as (y & Hy & Ey). unfold d in Ey.
    destruct (Nat.eqb (length (ahead y)) (length (ahead x)));
      [discriminate Ey|].
    destruct (IH _ _ _ Ey) as (y' & Hy' & Ey').
    rewrite Hxr in Hy. exists y'. split; [lia|exact Ey']. }
  destruct greedy.
  - destruct (m xr d) as [| |y] eqn:E; [discriminate H| |].
    + exists x. split; [lia|exact H].
    + apply Hd. rewrite <- H. reflexivity.
  - destruct (c x) as [| |y] eqn:E; [discriminate H| |].
    + apply Hd, H.
    + exists x. split; [lia|]. rewrite E. exact H.
Qed.

Lemma matcher_shorter (r : regex) :
  forall x c z,
    matcher r x c = Matched z ->
    exists y, length (ahead y) <= length (ahead x) /\ c y = Matched z.
Proof.
  induction r as [k|a IHa b IHb|a IHa b IHb|greedy a IHa|a IHa|];
    intros x c z H; cbn [matcher] in H.
  - destruct (ahead x) as [|ch t] eqn:E; [discriminate H|].
    destruct (inClass k ch); [|discriminate H].
    exists (MState t (capture x)). split; [|exact H].
    cbn [ahead length]. lia.
  - destruct (IHa _ _ _ H) as (y & Hy & Ey).
    destruct (IHb _ _ _ Ey) as (y' & Hy' & Ey').
    exists y'. split; [lia|exact Ey'].
  - destruct (matcher a x c) as [| |y] eqn:E; [discriminate H| |].
    + apply IHb, H.
    + apply IHa. rewrite E. exact H.
  - apply (repeat_shorter _ _ _ IHa _ _ _ _ H).
  - destruct (IHa _ _ _ H) as (y & Hy & Ey).
    eexists. split; [|exact Ey]. cbn [ahead]. exact Hy.
  - exists x. split; [apply le_n|].
    destruct (ahead x); [exact H|discriminate H].
Qed.

Lemma matchHere_fuel (r : regex) (s : jsstring) : matchHere r s <> NoFuel.
Proof. apply matcher_fuel. intros y _. discriminate. Qed.

Lemma matchHere_shorter (r : regex) (s : jsstring) (y : mstate) :
  matchHere r s = Matched y -> length (ahead y) <= length s.
Proof.
  intros H. destruct (matcher_shorter r _ _ _ H) as (y' & Hy & E).
  injection E as ->. exact Hy.
Qed.

End EngineFacts.

(** ** Column names: every input is parsed *)

Section TotalFacts.

Import Scan.

Lemma splitLoop_total :
  forall (fuel : nat) (seg s : jsstring),
    2 * length s + Nat.min 1 (length seg) < fuel ->
    exists strs, splitLoop splitPattern fuel seg s = Ok (List.map Some strs).
Proof.
  induction fuel as [|fuel IH]; intros seg s Hf; [lia|].
  destruct s as [|ch s'].
  - exists [seg]. reflexivity.
  - cbn [splitLoop].
    assert (Hnext : exists strs,
              splitLoop splitPattern fuel (seg ++ [ch]) s'
              = Ok (List.map Some strs)).
    { apply IH. rewrite length_app. cbn [length] in *. lia. }
    pose proof (matchHere_shorter splitPattern (ch :: s')) as Hlen.
    rewrite matchHere_splitPattern in *.
    destruct (scan (Spec.skipWhite (ch :: s'))) as [[tok r]|];
      [|exact Hnext].
    specialize (Hlen _ eq_refl). cbn [ahead capture] in *.
    destruct (Nat.eqb_spec (length seg) 0) as [Hs|Hs];
      destruct (Nat.eqb_spec (length r) (length (ch :: s'))) as [Hr|Hr];
      cbn [andb]; try exact Hnext;
      (destruct (IH [] r) as (strs & E);
       [cbn [length] in *; lia
       |rewrite E; exists (seg :: tok :: strs); reflexivity]).
Qed.

Lemma split_total (s : jsstring) :
  exists strs, split splitPattern s = Ok (List.map Some strs).
Proof.
  destruct s as [|ch t].
  - exists []. reflexivity.
  - unfold split. apply splitLoop_total. cbn [length]. lia.
Qed.

Lemma filterLength_some (strs : list jsstring) :
  filterLength (List.map Some strs) = Ok (List.filter nonEmpty strs).
Proof.
  induction strs as [|x t IH]; [reflexivity|].
  cbn [List.map filterLength List.filter]. rewrite IH. cbn [bind].
  change (nonEmpty x) with (negb (Nat.eqb (length x) 0)).
  destruct (Nat.eqb (length x) 0); reflexivity.
Qed.

Lemma dedupe_distinct (l : list jsstring) :
  forall seen, NoDup (Spec.dedupe seen l).
Proof.
  induction l as [|x t IH]; intros seen; cbn [Spec.dedupe]; [constructor|].
  destruct (existsb (jsstring_eqb x) seen); [apply IH|].
  constructor; [|apply IH].
  intros H. apply dedupe_In in H. destruct H as [_ H].
  apply H. left. reflexivity.
Qed.

Lemma columnNamesToArray_shape (stringNormalize : jsstring -> jsstring)
    (s : jsstring) :
  exists strs,
    columnNamesToArray stringNormalize s
    = Ok (Spec.dedupe []
            (List.filter Spec.wanted (List.map Spec.unescape strs))).
Proof.
  destruct s as [|ch t]; [exists []; reflexivity|].
  unfold columnNamesToArray.
  destruct (split_total (normalize stringNormalize (ch :: t))) as (strs & E).
  exists strs. rewrite E. cbn [bind]. rewrite filterLength_some. cbn [bind].
  rewrite mapM_unescape. cbn [bind].
  rewrite named_filter, filterIndexed_dedupe. reflexivity.
Qed.

End TotalFacts.

(** X12.  [columnNamesToArray] returns a list for every input, well
    escaped or not: it never throws and its patterns never run without
    end.  The names it returns are pairwise distinct, none is empty and
    none is an internal name. *)
Theorem columnNamesToArray_total (stringNormalize : jsstring -> jsstring)
    (columnNames : jsstring) :
  exists names,
    columnNamesToArray stringNormalize columnNames = Ok names
    /\ NoDup names
    /\ forall n, In n names -> n <> [] /\ ~ In n schema.internalNames.
Proof.
  destruct (columnNamesToArray_shape stringNormalize columnNames)
    as (strs & E).
  eexists. split; [exact E|]. split; [apply dedupe_distinct|].
  intros n H. apply dedupe_In in H. destruct H as [H _].
  apply filter_In in H. destruct H as [_ H].
  unfold Spec.wanted in H. apply andb_true_iff in H. destruct H as [H1 H2].
  split.
  - intros ->. discriminate H1.
  - intros Hi. apply member_In in Hi. unfold Spec.isReserved in H2.
    unfold Order.member in Hi. rewrite Hi in H2. discriminate H2.
Qed.

(** ** The columns text of the metadata operation *)

Section JoinFacts.

Lemma splitOnCommas_plain (n : jsstring) :
  forallb plainUnit n = true ->
  forall t : jsstring,
    Spec.splitOnCommas (n ++ comma :: t) = n :: Spec.splitOnCommas t.
Proof.
  induction n as [|c n' IH]; intros Hn t.
  - cbn [app Spec.splitOnCommas]. rewrite N.eqb_refl. reflexivity.
  - cbn [forallb] in Hn. apply andb_true_iff in Hn. destruct Hn as [Hc Hn].
    unfold plainUnit in Hc. apply andb_true_iff in Hc.
    destruct Hc as [Hc1 Hc2]. apply negb_true_iff in Hc1, Hc2.
    cbn [app]. rewrite splitOnCommas_cons, Hc1, Hc2, (IH Hn).
    reflexivity.
Qed.

Lemma splitOnCommas_last (n : jsstring) :
  forallb plainUnit n = true -> Spec.splitOnCommas n = [n].
Proof.
  induction n as [|c n' IH]; intros Hn; [reflexivity|].
  cbn [forallb] in Hn. apply andb_true_iff in Hn. destruct Hn as [Hc Hn].
  unfold plainUnit in Hc. apply andb_true_iff in Hc.
  destruct Hc as [Hc1 Hc2]. apply negb_true_iff in Hc1, Hc2.
  rewrite splitOnCommas_cons, Hc1, Hc2, (IH Hn). reflexivity.
Qed.

Lemma splitOnCommas_join :
  forall (rest : list jsstring) (n : jsstring),
    forallb plainUnit n = true ->
    Forall (fun m => forallb plainUnit m = true) rest ->
    Spec.splitOnCommas (join (js ", ") (n :: rest))
    = n :: List.map (fun m => Api.space :: m) rest.
Proof.
  induction rest as [|m rest IH]; intros n Hn Hr.
  - cbn [join List.map]. apply splitOnCommas_last, Hn.
  - inversion Hr as [|? ? Hm Hr']. subst.
    change (join (js ", ") (n :: m :: rest))
      with (n ++ comma :: (Api.space :: join (js ", ") (m :: rest))).
    rewrite (splitOnCommas_plain n Hn).
    assert (E : Api.space :: join (js ", ") (m :: rest)
                = join (js ", ") ((Api.space :: m) :: rest)).
    { destruct rest; reflexivity. }
    rewrite E. cbn [List.map]. f_equal.
    apply (IH (Api.space :: m)); [|exact Hr'].
    cbn [forallb]. rewrite Hm. reflexivity.
Qed.

Lemma last_cons (c d : N) (t : jsstring) :
  last (c :: d :: t) 0%N = last (d :: t) 0%N.
Proof. reflexivity. Qed.

Lemma white_all_last (s : jsstring) :
  s <> [] -> isWhiteSpace (last s 0%N) = false ->
  forallb isWhiteSpace s = false.
Proof.
  induction s as [|c t IH]; intros Hne Hl; [contradiction|].
  destruct t as [|d t'].
  - cbn [last] in Hl. cbn [forallb]. rewrite Hl. reflexivity.
  - rewrite last_cons in Hl. cbn [forallb].
    change (forallb isWhiteSpace (d :: t'))
      with (isWhiteSpace d && forallb isWhiteSpace t')%bool.
    cbn [forallb] in IH. rewrite (IH ltac:(discriminate) Hl).
    apply andb_false_r.
Qed.

Lemma trimEnd_plain (s : jsstring) :
  forallb plainUnit s = true ->
  (s = [] \/ isWhiteSpace (last s 0%N) = false) ->
  Spec.trimEnd s = s.
Proof.
  induction s as [|c t IH]; intros Hp Hl; [reflexivity|].
  destruct Hl as [Hl|Hl]; [discriminate Hl|].
  rewrite trimEnd_eq.
  rewrite (white_all_last (c :: t) ltac:(discriminate) Hl).
  cbn [forallb] in Hp. apply andb_true_iff in Hp. destruct Hp as [Hc Hp].
  unfold plainUnit in Hc. apply andb_true_iff in Hc.
  destruct Hc as [_ Hc2]. apply negb_true_iff in Hc2. rewrite Hc2.
  f_equal. apply IH; [exact Hp|].
  destruct t as [|d t']; [left; reflexivity|right].
  rewrite last_cons in Hl. exact Hl.
Qed.

Lemma unescape_plain (s : jsstring) :
  forallb plainUnit s = true -> Spec.unescape s = s.
Proof.
  induction s as [|c t IH]; intros Hp; [reflexivity|].
  cbn [forallb] in Hp. apply andb_true_iff in Hp. destruct Hp as [Hc Hp].
  unfold plainUnit in Hc. apply andb_true_iff in Hc.
  destruct Hc as [_ Hc2]. apply negb_true_iff in Hc2.
  cbn [Spec.unescape]. rewrite Hc2, (IH Hp). reflexivity.
Qed.

Lemma wellEscaped_plain (s : jsstring) :
  forallb plainUnit s = true -> Spec.wellEscaped s = true.
Proof.
  induction s as [|c t IH]; intros Hp; [reflexivity|].
  cbn [forallb] in Hp. apply andb_true_iff in Hp. destruct Hp as [Hc Hp].
  unfold plainUnit in Hc. apply andb_true_iff in Hc.
  destruct Hc as [_ Hc2]. apply negb_true_iff in Hc2.
  cbn [Spec.wellEscaped]. rewrite Hc2. apply IH, Hp.
Qed.

Lemma wellEscaped_app (a b : jsstring) :
  forallb plainUnit a = true ->
  Spec.wellEscaped (a ++ b) = Spec.wellEscaped b.
Proof.
  induction a as [|c t IH]; intros Hp; [reflexivity|].
  cbn [forallb] in Hp. apply andb_true_iff in Hp. destruct Hp as [Hc Hp].
  unfold plainUnit in Hc. apply andb_true_iff in Hc.
  destruct Hc as [_ Hc2]. apply negb_true_iff in Hc2.
  cbn [app Spec.wellEscaped]. rewrite Hc2. apply IH, Hp.
Qed.

Lemma wellEscaped_join (names : list jsstring) :
  Forall (fun m => forallb plainUnit m = true) names ->
  Spec.wellEscaped (join (js ", ") names) = true.
Proof.
  induction 1 as [|n rest Hn Hr IH]; [reflexivity|].
  destruct rest as [|m rest'].
  - cbn [join]. apply wellEscaped_plain, Hn.
  - change (join (js ", ") (n :: m :: rest'))
      with (n ++ js ", " ++ join (js ", ") (m :: rest')).
    rewrite (wellEscaped_app n _ Hn). exact IH.
Qed.

Lemma writable_spec (n : jsstring) :
  writable n = true ->
  n <> [] /\ forallb plainUnit n = true
  /\ isWhiteSpace (hd 0%N n) = false
  /\ isWhiteSpace (last n 0%N) = false
  /\ Spec.wanted n = true.
Proof.
  unfold writable. rewrite !andb_true_iff, !negb_true_iff.
  intros ((((H1 & H2) & H3) & H4) & H5).
  split; [intros ->; discriminate H1|]. split; [exact H2|].
  split; [exact H3|]. split; [exact H4|].
  unfold Spec.wanted. rewrite H1, H5. reflexivity.
Qed.

Lemma trim_writable (n : jsstring) :
  writable n = true ->
  Spec.trim n = n /\ Spec.trim (Api.space :: n) = n.
Proof.
  intros H. destruct (writable_spec n H) as (Hne & Hp & Hh & Hl & _).
  assert (Hs : Spec.skipWhite n = n).
  { destruct n as [|c t]; [reflexivity|]. cbn [hd] in Hh.
    cbn [Spec.skipWhite]. rewrite Hh. reflexivity. }
  unfold Spec.trim. change (Spec.skipWhite (Api.space :: n))
    with (Spec.skipWhite n).
  rewrite Hs. split; apply trimEnd_plain; auto.
Qed.

Lemma parse_join (names : list jsstring) :
  Forall (fun n => writable n = true) names ->
  NoDup names ->
  Spec.parseColumnNames (join (js ", ") names) = names.
Proof.
  intros Hw Hd. unfold Spec.parseColumnNames.
  destruct names as [|n rest]; [reflexivity|].
  assert (Hp : Forall (fun m => forallb plainUnit m = true) (n :: rest)).
  { apply Forall_forall. intros m Hm. rewrite Forall_forall in Hw.
    apply (writable_spec m (Hw m Hm)). }
  inversion Hp as [|? ? Hpn Hpr]. subst.
  rewrite (splitOnCommas_join rest n Hpn Hpr).
  assert (E : List.map Spec.unescape
                (List.map Spec.trim
                   (n :: List.map (fun m => Api.space :: m) rest))
              = n :: rest).
  { clear Hd Hp Hpn Hpr. inversion Hw as [|? ? Hn Hr]. subst.
    cbn [List.map]. rewrite (proj1 (trim_writable n Hn)).
    rewrite (unescape_plain n) by apply (writable_spec n Hn).
    f_equal. induction Hr as [|m rest' Hm Hr' IH]; [reflexivity|].
    cbn [List.map]. rewrite (proj2 (trim_writable m Hm)).
    rewrite (unescape_plain m) by apply (writable_spec m Hm).
    f_equal. apply IH. constructor; assumption. }
  rewrite E.
  assert (F : List.filter Spec.wanted (n :: rest) = n :: rest).
  { clear E Hd Hp Hpn Hpr.
    induction Hw as [|m l Hm Hl IH]; [reflexivity|].
    cbn [List.filter].
    rewrite (proj2 (proj2 (proj2 (proj2 (writable_spec m Hm))))), IH.
    reflexivity. }
  rewrite F. apply dedupe_NoDup; [exact Hd|]. intros k _ [].
Qed.

End JoinFacts.

(** X13.  What the metadata operation prints can be pasted into the
    columns field.  When the names of a table's columns of known type are
    pairwise distinct and each can be written as it is, the [columns] text
    that the metadata operation returns for the table, the names joined by
    a comma and a blank, is parsed by [columnNamesToArray] into those
    names, in their order. *)
Theorem columnNamesToArray_of_joined_names
    (stringNormalize : jsstring -> jsstring) (t : IDtableMetadataTable) :
  let names :=
    List.map name (List.filter dtableSchemaIsColumn (columns t)) in
  Forall (fun n => writable n = true) names ->
  NoDup names ->
  stringNormalize (join (js ", ") names) = join (js ", ") names ->
  Obj.get (Api.tableSummary t) (js "columns")
  = VString (join (js ", ") names)
  /\ columnNamesToArray stringNormalize (join (js ", ") names) = Ok names.
Proof.
  intros names Hw Hd Hn. split; [reflexivity|].
  assert (E : normalize stringNormalize (join (js ", ") names)
              = join (js ", ") names).
  { unfold normalize. destruct (join (js ", ") names); [reflexivity|exact Hn]. }
  rewrite columnNamesToArray_parse; rewrite E.
  - rewrite parse_join by assumption. reflexivity.
  - apply wellEscaped_join. apply Forall_forall. intros m Hm.
    rewrite Forall_forall in Hw. apply (writable_spec m (Hw m Hm)).
Qed.

Lemma columnNamesToArray_of_joined_names_witness :
  Obj.get (Api.tableSummary (Table (js "t1") (js "People") sampleTables_columns))
    (js "columns")
  = VString (js "Title, Surname")
  /\ columnNamesToArray idNormalize (js "Title, Surname")
     = Ok [js "Title"; js "Surname"].
Proof.
  apply (columnNamesToArray_of_joined_names idNormalize
           (Table (js "t1") (js "People") sampleTables_columns)).
  - repeat constructor.
  - repeat constructor; simpl; intuition discriminate.
  - reflexivity.
Defined.

(** ** Endpoint expressions *)

Section EndpointFacts.

Import Api.

Variable r : regex.
Variable f : jsstring -> option jsstring -> jsstring.

Lemma replaceEach_total :
  forall (fuel : nat) (s : jsstring),
    length s < fuel -> exists t, replaceEach r f fuel s = Ok t.
Proof.
  induction fuel as [|fuel IH]; intros s Hf; [lia|].
  cbn [replaceEach].
  pose proof (matchHere_fuel r s) as Hn.
  pose proof (matchHere_shorter r s) as Hs.
  destruct (matchHere r s) as [| |y]; [contradiction| |].
  - destruct s as [|ch s']; [eexists; reflexivity|].
    destruct (IH s') as (t & E); [cbn [length] in Hf; lia|].
    rewrite E. eexists. reflexivity.
  - specialize (Hs y eq_refl).
    destruct (Nat.eqb_spec (length (ahead y)) (length s)).
    + destruct s as [|ch s']; [eexists; reflexivity|].
      destruct (IH s') as (t & E); [cbn [length] in Hf; lia|].
      rewrite E. eexists. reflexivity.
    + destruct (IH (ahead y)) as (t & E); [lia|].
      rewrite E. eexists. reflexivity.
Qed.

Lemma replaceEach_fuel :
  forall (fuel1 : nat) (s : jsstring) (fuel2 : nat),
    length s < fuel1 -> length s < fuel2 ->
    replaceEach r f fuel1 s = replaceEach r f fuel2 s.
Proof.
  induction fuel1 as [|fuel1 IH]; intros s fuel2 H1 H2; [lia|].
  destruct fuel2 as [|fuel2]; [lia|].
  cbn [replaceEach].
  pose proof (matchHere_shorter r s) as Hs.
  destruct (matchHere r s) as [| |y]; [reflexivity| |].
  - destruct s as [|ch s']; [reflexivity|].
    rewrite (IH s' fuel2) by (cbn [length] in *; lia). reflexivity.
  - specialize (Hs y eq_refl).
    destruct (Nat.eqb_spec (length (ahead y)) (length s)).
    + destruct s as [|ch s']; [reflexivity|].
      rewrite (IH s' fuel2) by (cbn [length] in *; lia). reflexivity.
    + rewrite (IH (ahead y) fuel2) by lia. reflexivity.
Qed.

Lemma replaceWith_match (ph rest : jsstring) (cap : option jsstring) :
  ph <> [] ->
  matchHere r (ph ++ rest) = Matched (MState rest cap) ->
  replaceWith r f (ph ++ rest)
  = (tl <- replaceWith r f rest ;; Ok (f ph cap ++ tl)).
Proof.
  intros Hne Hm. unfold replaceWith. cbn [replaceEach]. rewrite Hm.
  cbn [ahead capture]. rewrite firstn_app_len.
  replace (Nat.eqb (length rest) (length (ph ++ rest))) with false.
  - rewrite (replaceEach_fuel (length (ph ++ rest)) rest (S (length rest)));
      [reflexivity| |lia].
    rewrite length_app. destruct ph; [contradiction|cbn [length]; lia].
  - symmetry. apply Nat.eqb_neq. rewrite length_app.
    destruct ph; [contradiction|cbn [length]; lia].
Qed.

End EndpointFacts.

Section PlaceholderFacts.

Import Api.

Variable f : jsstring -> option jsstring -> jsstring.

Lemma placeholder_fails (s : jsstring) :
  N.eqb (hd 0%N s) leftBrace = false ->
  matchHere placeholderPattern s = Failure.
Proof.
  intros H. destruct s as [|c t]; [reflexivity|]. cbn [hd] in H.
  unfold matchHere, placeholderPattern, word.
  cbn [matcher literal ahead inClass]. rewrite H. reflexivity.
Qed.

Lemma replaceEach_prefix :
  forall p : jsstring,
    braceFree p = true ->
    forall (fuel : nat) (s : jsstring),
      replaceEach placeholderPattern f (length p + fuel) (p ++ s)
      = (tl <- replaceEach placeholderPattern f fuel s ;; Ok (p ++ tl)).
Proof.
  induction p as [|c p IH]; intros Hp fuel s.
  - cbn [length Nat.add app].
    destruct (replaceEach placeholderPattern f fuel s); reflexivity.
  - cbn [braceFree forallb] in Hp. apply andb_true_iff in Hp.
    destruct Hp as [Hc Hp]. apply negb_true_iff in Hc.
    cbn [length Nat.add app replaceEach].
    rewrite placeholder_fails by exact Hc.
    rewrite (IH Hp).
    destruct (replaceEach placeholderPattern f fuel s); reflexivity.
Qed.

Lemma replaceWith_prefix (p s : jsstring) :
  braceFree p = true ->
  replaceWith placeholderPattern f (p ++ s)
  = (tl <- replaceWith placeholderPattern f s ;; Ok (p ++ tl)).
Proof.
  intros Hp. unfold replaceWith.
  replace (S (length (p ++ s))) with (length p + S (length s))
    by (rewrite length_app; lia).
  apply replaceEach_prefix, Hp.
Qed.

Lemma replaceWith_braceFree (p : jsstring) :
  braceFree p = true -> replaceWith placeholderPattern f p = Ok p.
Proof.
  intros Hp. rewrite <- (app_nil_r p) at 1.
  rewrite (replaceWith_prefix p [] Hp). cbn. rewrite app_nil_r. reflexivity.
Qed.

Lemma spaces_greedy (c : continuation) (cap : option jsstring) (z : mstate) :
  forall (n : nat) (t : jsstring) (fuel : nat),
    n < fuel ->
    N.eqb (hd 0%N t) space = false ->
    c (MState t cap) = Matched z ->
    repeatMatcher (matcher (RClass (CsUnit space))) true false fuel
      (MState (repeat space n ++ t) cap) c
    = Matched z.
Proof.
  set (m := matcher (RClass (CsUnit space))).
  assert (Hm : forall ch t d,
            m (MState (ch :: t) cap) d
            = if N.eqb ch space then d (MState t cap) else Failure)
    by reflexivity.
  induction n as [|n IH]; intros t fuel Hf Ht Hc;
    (destruct fuel as [|fuel]; [lia|]); cbn [repeatMatcher repeat app].
  - destruct t as [|ch t'].
    + change (m (MState [] cap)
                (fun y : mstate =>
                   if Nat.eqb (length (ahead y))
                        (length (ahead (MState [] cap)))
                   then Failure
                   else repeatMatcher m true false fuel y c))
        with Failure.
      exact Hc.
    + cbn [hd] in Ht. rewrite Hm, Ht. exact Hc.
  - rewrite Hm, N.eqb_refl. cbn [ahead length].
    replace (Nat.eqb (length (repeat space n ++ t))
               (S (length (repeat space n ++ t)))) with false
      by (symmetry; apply Nat.eqb_neq; lia).
    rewrite (IH t fuel) by (try lia; assumption). reflexivity.
Qed.

Lemma spaces_then (c : continuation) (cap : option jsstring) (z : mstate)
    (n : nat) (t : jsstring) :
  N.eqb (hd 0%N t) space = false ->
  c (MState t cap) = Matched z ->
  matcher spacesPattern (MState (repeat space n ++ t) cap) c = Matched z.
Proof.
  intros Ht Hc. unfold spacesPattern. cbn [matcher hasGroup ahead].
  apply spaces_greedy; [|exact Ht|exact Hc].
  rewrite length_app, repeat_length. lia.
Qed.

Lemma literal_then (k : continuation) (cap : option jsstring) (t : jsstring) :
  forall (s : jsstring) (c : N),
    matcher (literal c s) (MState (c :: s ++ t) cap) k = k (MState t cap).
Proof.
  induction s as [|d s IH]; intros c;
    cbn [literal matcher ahead capture inClass app]; rewrite N.eqb_refl.
  - reflexivity.
  - apply IH.
Qed.

Lemma word_then (k : continuation) (cap : option jsstring) (w t : jsstring) :
  w <> [] ->
  matcher (word w) (MState (w ++ t) cap) k = k (MState t cap).
Proof.
  intros Hw. destruct w as [|c s]; [contradiction|]. apply literal_then.
Qed.

Lemma word_fails (k : continuation) (cap : option jsstring) (w s : jsstring) :
  match w with
  | c :: _ => negb (N.eqb (hd 0%N s) c)
  | [] => false
  end = true ->
  matcher (word w) (MState s cap) k = Failure.
Proof.
  destruct w as [|c w']; [discriminate|]. intros H.
  apply negb_true_iff in H. unfold word.
  destruct w' as [|d w'']; cbn [literal matcher ahead inClass];
    (destruct s as [|e s']; [reflexivity|]); cbn [hd] in H; rewrite H;
    reflexivity.
Qed.

Lemma outcome_eta (o : outcome) :
  match o with
  | NoFuel => NoFuel
  | Failure => Failure
  | Matched y => Matched y
  end = o.
Proof. destruct o; reflexivity. Qed.

Lemma name_then (k : continuation) (cap : option jsstring) (name t : jsstring) :
  In name variableNames ->
  matcher (RGroup namePattern) (MState (name ++ t) cap) k
  = k (MState t (Some name)).
Proof.
  intros Hn. unfold namePattern. cbn [matcher ahead].
  destruct Hn as [<-|[<-|[<-|[]]]].
  - rewrite word_then by discriminate. cbn [ahead].
    rewrite firstn_app_len.
    rewrite !word_fails by reflexivity.
    exact (outcome_eta _).
  - rewrite (word_fails _ _ (js "access_token")) by reflexivity.
    rewrite word_then by discriminate. cbn [ahead].
    rewrite firstn_app_len.
    rewrite !word_fails by reflexivity.
    exact (outcome_eta _).
  - rewrite (word_fails _ _ (js "access_token")) by reflexivity.
    rewrite (word_fails _ _ (js "dtable_uuid")) by reflexivity.
    rewrite word_then by discriminate. cbn [ahead].
    rewrite firstn_app_len. reflexivity.
Qed.

Lemma placeholder_matches (n1 n2 : nat) (name rest : jsstring) :
  In name variableNames ->
  matchHere placeholderPattern (placeholder n1 name n2 ++ rest)
  = Matched (MState rest (Some name)).
Proof.
  intros Hn. unfold matchHere, placeholderPattern, placeholder, word.
  rewrite <- !app_assoc.
  cbn [matcher literal ahead capture app inClass]. rewrite !N.eqb_refl.
  cbn [ahead capture].
  apply spaces_then.
  - destruct Hn as [<-|[<-|[<-|[]]]]; reflexivity.
  - change (matcher (RGroup namePattern)
              (MState (name ++ repeat space n2
                       ++ [rightBrace; rightBrace] ++ rest) None)
              (fun y => matcher
                          (RSeq spacesPattern
                             (RSeq (RClass (CsUnit rightBrace))
                                (RClass (CsUnit rightBrace)))) y Matched)
            = Matched (MState rest (Some name))).
    rewrite (name_then _ None name _ Hn).
    cbn [matcher]. apply spaces_then; [reflexivity|].
    cbn [matcher ahead capture app inClass]. rewrite !N.eqb_refl.
    reflexivity.
Qed.

Lemma placeholder_replaced (n1 n2 : nat) (name rest : jsstring) :
  In name variableNames ->
  replaceWith placeholderPattern f (placeholder n1 name n2 ++ rest)
  = (tl <- replaceWith placeholderPattern f rest ;;
     Ok (f (placeholder n1 name n2) (Some name) ++ tl)).
Proof.
  intros Hn. apply replaceWith_match; [discriminate|].
  apply placeholder_matches, Hn.
Qed.

End PlaceholderFacts.

Section ExprFacts.

Import Api.

Variable stringNormalize : jsstring -> jsstring.

Lemma braceFree_app (a b : jsstring) :
  braceFree (a ++ b) = (braceFree a && braceFree b)%bool.
Proof. unfold braceFree. apply forallb_app. Qed.

Lemma endpoint_eq (a : IApi) (m : option IDtableMetadata) (e : jsstring) :
  endpointCtxExpr stringNormalize (Ctx (Some a) m) e
  = match e with
    | [] => Ok []
    | _ :: _ =>
        replaceWith placeholderPattern (expand (endpointVariablesOf a))
          ((if N.eqb (hd 0%N (normalize stringNormalize e)) slash
            then server a else [])
           ++ normalize stringNormalize e)
    end.
Proof.
  unfold endpointCtxExpr. cbn [api]. destruct e as [|c t]; [reflexivity|].
  destruct (normalize stringNormalize (c :: t)) as [|d u]; [reflexivity|].
  cbn [hd]. destruct (N.eqb d slash); reflexivity.
Qed.

Lemma endpoint_placeholder (a : IApi) (m : option IDtableMetadata)
    (p q name : jsstring) (n1 n2 : nat) :
  In name variableNames ->
  braceFree p = true -> braceFree q = true ->
  braceFree (server a) = true ->
  stringNormalize (p ++ placeholder n1 name n2 ++ q)
  = p ++ placeholder n1 name n2 ++ q ->
  endpointCtxExpr stringNormalize (Ctx (Some a) m)
    (p ++ placeholder n1 name n2 ++ q)
  = Ok ((if N.eqb (hd 0%N p) slash then server a else [])
        ++ p
        ++ expand (endpointVariablesOf a) (placeholder n1 name n2) (Some name)
        ++ q).
Proof.
  intros Hn Hp Hq Hs He. rewrite endpoint_eq.
  remember (p ++ placeholder n1 name n2 ++ q) as e eqn:Ee.
  assert (En : normalize stringNormalize e = e).
  { unfold normalize. destruct e; [reflexivity|exact He]. }
  destruct e as [|c t].
  { destruct p; discriminate Ee. }
  rewrite En. cbn [hd].
  assert (Hpre : N.eqb c slash = N.eqb (hd 0%N p) slash).
  { destruct p as [|d p']; unfold placeholder in Ee; cbn in Ee;
      injection Ee as -> _; reflexivity. }
  rewrite Hpre, Ee.
  rewrite app_assoc, replaceWith_prefix
    by (rewrite braceFree_app, Hp;
        destruct (N.eqb (hd 0%N p) slash); [rewrite Hs|]; reflexivity).
  rewrite placeholder_replaced by exact Hn.
  rewrite (replaceWith_braceFree _ q Hq). cbn [bind].
  rewrite <- app_assoc. reflexivity.
Qed.

Lemma endpoint_total (a : IApi) (m : option IDtableMetadata) (e : jsstring) :
  exists t, endpointCtxExpr stringNormalize (Ctx (Some a) m) e = Ok t.
Proof.
  rewrite endpoint_eq. destruct e as [|c u]; [eexists; reflexivity|].
  apply replaceEach_total. lia.
Qed.

End ExprFacts.

(** X14.  How [endpointCtxExpr] fills a placeholder.  In an endpoint that
    has one placeholder, with any number of blanks around the name, and no
    other opening brace, the placeholder is replaced by the value of its
    variable when that is a non-empty string, and is left as it stands
    when the variable is undefined or empty; the text around it is kept,
    and an endpoint that begins with a slash gets the server in front.
    What was put in is not read again for placeholders. *)
Theorem endpointCtxExpr_placeholder
    (stringNormalize : jsstring -> jsstring)
    (a : Api.IApi) (m : option Api.IDtableMetadata)
    (p q name : jsstring) (n1 n2 : nat) :
  In name Api.variableNames ->
  Api.braceFree p = true -> Api.braceFree q = true ->
  Api.braceFree (Api.server a) = true ->
  stringNormalize (p ++ Api.placeholder n1 name n2 ++ q)
  = p ++ Api.placeholder n1 name n2 ++ q ->
  Api.endpointCtxExpr stringNormalize (Api.Ctx (Some a) m)
    (p ++ Api.placeholder n1 name n2 ++ q)
  = Ok ((if N.eqb (hd 0%N p) Api.slash then Api.server a else [])
        ++ p
        ++ match Api.variable (Api.endpointVariablesOf a) (Some name) with
           | Some (c :: v) => c :: v
           | _ => Api.placeholder n1 name n2
           end
        ++ q)
  /\ Api.variable (Api.endpointVariablesOf a) (Some (js "access_token"))
     = option_map Api.access_token (Api.appAccessToken a)
  /\ Api.variable (Api.endpointVariablesOf a) (Some (js "dtable_uuid"))
     = option_map Api.dtable_uuid (Api.appAccessToken a)
  /\ Api.variable (Api.endpointVariablesOf a) (Some (js "server"))
     = Some (Api.server a).
Proof.
  intros Hn Hp Hq Hs He. split; [|repeat split].
  exact (endpoint_placeholder stringNormalize a m p q name n1 n2
           Hn Hp Hq Hs He).
Qed.

Lemma endpointCtxExpr_placeholder_witness :
  Api.endpointCtxExpr idNormalize (Api.Ctx (Some sampleStagedApi) None)
    (js "/dtable-server/api/v1/dtables/{{dtable_uuid}}/rows/")
  = Ok (js "https://cloud.seatable.io/dtable-server/api/v1/dtables/650d8a0d/rows/")
  /\ Api.endpointCtxExpr idNormalize (Api.Ctx (Some sampleApi) None)
       (js "Token {{ access_token }}")
     = Ok (js "Token {{ access_token }}").
Proof.
  split.
  - apply (endpointCtxExpr_placeholder idNormalize sampleStagedApi None
             (js "/dtable-server/api/v1/dtables/") (js "/rows/")
             (js "dtable_uuid") 0 0); try reflexivity.
    simpl. tauto.
  - apply (endpointCtxExpr_placeholder idNormalize sampleApi None
             (js "Token ") [] (js "access_token") 1 1); try reflexivity.
    simpl. tauto.
Defined.

(** X15.  [endpointCtxExpr] returns a text for every endpoint and every
    context that has its [api]: the only failure is the type error of a
    context without [api], and the search for placeholders always ends.
    An endpoint without an opening brace is returned as it is, after
    normalization and with the server in front if it begins with a
    slash; the empty endpoint gives the empty text. *)
Theorem endpointCtxExpr_total
    (stringNormalize : jsstring -> jsstring)
    (c : Api.ICtx) (endpoint : jsstring) :
  (Api.api c = None ->
   Api.endpointCtxExpr stringNormalize c endpoint = Throw TypeError)
  /\ (forall a, Api.api c = Some a ->
        (exists t, Api.endpointCtxExpr stringNormalize c endpoint = Ok t)
        /\ (Api.braceFree (Api.server a) = true ->
            Api.braceFree (normalize stringNormalize endpoint) = true ->
            Api.endpointCtxExpr stringNormalize c endpoint
            = Ok ((if N.eqb (hd 0%N (normalize stringNormalize endpoint))
                        Api.slash
                   then Api.server a else [])
                  ++ normalize stringNormalize endpoint))).
Proof.
  split.
  - intros H. unfold Api.endpointCtxExpr. rewrite H. reflexivity.
  - intros a H. destruct c as [api0 m]. cbn [Api.api] in H. subst api0.
    split; [apply endpoint_total|].
    intros Hs He. rewrite endpoint_eq.
    destruct endpoint as [|ch t]; [reflexivity|].
    apply replaceWith_braceFree. rewrite braceFree_app, He.
    destruct (N.eqb (hd 0%N (normalize stringNormalize (ch :: t))) Api.slash);
      [rewrite Hs|]; reflexivity.
Qed.

(** ** Request options *)

Section AssignFacts.

Lemma has_false_not_In (o : object) (k : jsstring) :
  ~ In k (Obj.keys o) -> Obj.has o k = false.
Proof.
  intros H. destruct (Obj.has o k) eqn:E; [|reflexivity].
  apply has_In in E. contradiction.
Qed.

Lemma get_defineAll :
  forall (source target : object) (k : jsstring),
    NoDup (Obj.keys source) ->
    Obj.get (defineAll target source) k
    = if Obj.has source k then Obj.get source k else Obj.get target k.
Proof.
  unfold defineAll.
  induction source as [|[k0 v0] rest IH]; intros target k Hd; [reflexivity|].
  cbn [Obj.keys List.map fst] in Hd. inversion Hd as [|? ? Hk Hr]. subst.
  cbn [fold_left fst snd]. rewrite (IH _ k Hr).
  cbn [Obj.has existsb fst Obj.get].
  fold (Obj.has rest k).
  destruct (jsstring_eqb k0 k) eqn:E.
  - apply jsstring_eqb_eq in E. subst k0.
    rewrite (has_false_not_In rest k Hk). cbn [orb].
    apply get_set_same.
  - cbn [orb]. destruct (Obj.has rest k); [reflexivity|].
    apply get_set_other. intros ->. rewrite jsstring_eqb_refl in E.
    discriminate E.
Qed.

(** Whether an assignment under [k] to [o] stores a property. *)
Local Abbreviation stores o k :=
  (negb (jsstring_eqb k protoName) || negb (Obj.accessor o)
   || Obj.has (Obj.own o) k)%bool.

Lemma put_stores (o : Obj.target) (k : jsstring) (v : value) :
  stores o k = true ->
  Obj.put o k v = Obj.Target (Obj.set (Obj.own o) k v) (Obj.accessor o).
Proof.
  intros H. unfold Obj.put.
  destruct (jsstring_eqb k protoName), (Obj.accessor o),
    (Obj.has (Obj.own o) k); try discriminate H; reflexivity.
Qed.

Lemma put_ignored (o : Obj.target) (k : jsstring) (v : value) :
  stores o k = false -> Obj.own (Obj.put o k v) = Obj.own o.
Proof.
  intros H. unfold Obj.put.
  destruct (jsstring_eqb k protoName), (Obj.accessor o),
    (Obj.has (Obj.own o) k); try discriminate H.
  destruct v; reflexivity.
Qed.

Lemma get_putAll :
  forall (source : object) (o : Obj.target) (k : jsstring),
    NoDup (Obj.keys source) ->
    Obj.get
      (Obj.own (fold_left (fun o p => Obj.put o (fst p) (snd p)) source o)) k
    = if (Obj.has source k && stores o k)%bool
      then Obj.get source k else Obj.get (Obj.own o) k.
Proof.
  induction source as [|[k0 v0] rest IH]; intros o k Hd; [reflexivity|].
  cbn [Obj.keys List.map fst] in Hd. inversion Hd as [|? ? Hk Hr]. subst.
  cbn [fold_left fst snd]. rewrite (IH _ k Hr).
  cbn [Obj.has existsb fst Obj.get].
  fold (Obj.has rest k).
  destruct (jsstring_eqb k0 k) eqn:E.
  - apply jsstring_eqb_eq in E. subst k0.
    rewrite (has_false_not_In rest k Hk). cbn [orb andb].
    destruct (stores o k) eqn:S.
    + rewrite (put_stores o k v0 S). cbn [Obj.own]. apply get_set_same.
    + rewrite (put_ignored o k v0 S). reflexivity.
  - assert (Hne : k <> k0)
      by (intros ->; rewrite jsstring_eqb_refl in E; discriminate E).
    cbn [orb]. rewrite (put_get_other o k0 k v0 Hne).
    destruct (Obj.has rest k); [|reflexivity]. cbn [andb].
    replace (stores (Obj.put o k0 v0) k) with (stores o k); [reflexivity|].
    destruct (jsstring_eqb k protoName) eqn:P; [|reflexivity].
    apply jsstring_eqb_eq in P. subst k.
    assert (P0 : k0 <> protoName) by congruence.
    rewrite (put_other o k0 v0 P0). cbn [Obj.own Obj.accessor].
    rewrite (has_set_other _ k0 protoName v0 Hne). reflexivity.
Qed.

Lemma get_assign (source target : object) (k : jsstring) :
  NoDup (Obj.keys source) ->
  Obj.get (assign target source) k
  = if (Obj.has source k
        && (negb (jsstring_eqb k protoName) || Obj.has target k))%bool
    then Obj.get source k else Obj.get target k.
Proof.
  intros Hd. unfold assign. rewrite (get_putAll source _ k Hd).
  cbn [Obj.literal Obj.own Obj.accessor negb]. rewrite orb_false_r.
  reflexivity.
Qed.

End AssignFacts.

Lemma merge_get (options body option : object)
    (k : jsstring) :
  NoDup (Obj.keys option) ->
  Obj.get (apiRequestMergeOptionsWithUri options body option) k
  = if (Nat.eqb (length body) 0 && jsstring_eqb k (js "body"))%bool
    then VUndefined
    else if (Obj.has option k
             && (negb (jsstring_eqb k protoName) || Obj.has options k))%bool
         then Obj.get option k else Obj.get options k.
Proof.
  intros Hd. unfold apiRequestMergeOptionsWithUri.
  assert (Hm : Obj.get
                 (if negb (Nat.eqb (length (Obj.keys option)) 0)
                  then assign options option else options) k
               = if (Obj.has option k
                     && (negb (jsstring_eqb k protoName)
                         || Obj.has options k))%bool
                 then Obj.get option k
                 else Obj.get options k).
  { destruct option as [|p rest]; [reflexivity|].
    cbn [Obj.keys List.map length Nat.eqb negb].
    apply get_assign, Hd. }
  assert (Hb : length (Obj.keys body) = length body)
    by (unfold Obj.keys; apply length_map).
  rewrite Hb.
  destruct (Nat.eqb (length body) 0); cbn [andb]; [|exact Hm].
  destruct (jsstring_eqb k (js "body")) eqn:E.
  - apply jsstring_eqb_eq in E. subst k. apply get_delete_same.
  - rewrite get_delete_other; [exact Hm|].
    intros ->. rewrite jsstring_eqb_refl in E. discriminate E.
Qed.

(** X16.  What [apiRequestMergeOptionsWithUri] hands to the request:
    every extra option overrides the option of its name, the other
    options are kept, and when the body has no entry the result has no
    [body] at all, not even one that the extra options bring.  The one
    extra option that overrides nothing is [__proto__], unless the options
    have a property of that name: the assignment of [Object.assign] runs
    the setter of [Object.prototype] and stores no property. *)
Theorem apiRequestMergeOptionsWithUri_get (options body option : object)
    (k : jsstring) :
  NoDup (Obj.keys option) ->
  Obj.get (apiRequestMergeOptionsWithUri options body option) k
  = if (Nat.eqb (length body) 0 && jsstring_eqb k (js "body"))%bool
    then VUndefined
    else if (Obj.has option k
             && (negb (jsstring_eqb k protoName) || Obj.has options k))%bool
         then Obj.get option k else Obj.get options k.
Proof. apply merge_get. Qed.

Lemma apiRequestMergeOptionsWithUri_get_witness :
  Obj.get (apiRequestMergeOptionsWithUri sampleOptions [] sampleOption)
    (js "body") = VUndefined
  /\ Obj.get (apiRequestMergeOptionsWithUri sampleOptions [] sampleOption)
       (js "timeout") = VNumber 5%Q
  /\ Obj.get (apiRequestMergeOptionsWithUri sampleOptions [] sampleOption)
       (js "method") = VString (js "GET").
Proof.
  assert (Hd : NoDup (Obj.keys sampleOption)).
  { repeat constructor; simpl; intuition discriminate. }
  split; [|split].
  - exact (apiRequestMergeOptionsWithUri_get sampleOptions [] sampleOption
             (js "body") Hd).
  - exact (apiRequestMergeOptionsWithUri_get sampleOptions [] sampleOption
             (js "timeout") Hd).
  - exact (apiRequestMergeOptionsWithUri_get sampleOptions [] sampleOption
             (js "method") Hd).
Defined.

(** ** Staging the context *)

Section StageFacts.

Import Api.

Variable stringNormalize : jsstring -> jsstring.
Variable h : host.

Lemma andThen_ok {A B : Type} (m : action A) (k : A -> action B)
    (w w' : world) (b : B) :
  andThen m k w = (Ok b, w') ->
  exists a w1, m w = (Ok a, w1) /\ k a w1 = (Ok b, w').
Proof.
  unfold andThen. destruct (m w) as [[a|e|] w1]; intros H;
    [eauto|discriminate H|discriminate H].
Qed.

Lemma andThen_eq {A B : Type} (m : action A) (k : A -> action B)
    (w w1 : world) (a : A) :
  m w = (Ok a, w1) -> andThen m k w = k a w1.
Proof. intros H. unfold andThen. rewrite H. reflexivity. Qed.

Lemma credentials_noop (w : world) (a : IApi) :
  api (context w) = Some a -> ctxStageApiCredentials h w = (Ok tt, w).
Proof.
  intros H. unfold ctxStageApiCredentials, andThen, getContext, ret.
  rewrite H. cbn beta iota. rewrite H. reflexivity.
Qed.

Lemma credentials_ok (w w' : world) :
  ctxStageApiCredentials h w = (Ok tt, w') ->
  exists a,
    api (context w') = Some a
    /\ metadata (context w') = metadata (context w)
    /\ sent w' = sent w
    /\ (api (context w) = None -> getCredentials h = Some a).
Proof.
  unfold ctxStageApiCredentials, andThen, getContext, setContext, ret, throw.
  destruct w as [[[a|] m] s]; cbn [context api metadata sent].
  - intros H. injection H as <-. exists a. cbn. repeat split. discriminate.
  - destruct (getCredentials h) as [c|]; [|discriminate].
    cbn [context api metadata sent]. intros H. injection H as <-.
    exists c. cbn. repeat split.
Qed.

Lemma token_noop (w : world) (a : IApi) (t : IAppAccessToken) :
  api (context w) = Some a -> appAccessToken a = Some t ->
  ctxStageAppAccessToken h w = (Ok tt, w).
Proof.
  intros Ha Ht. unfold ctxStageAppAccessToken.
  rewrite (andThen_eq _ _ w w tt (credentials_noop w a Ha)).
  unfold andThen, getContext, ret.
  rewrite Ha. cbn beta iota. rewrite Ht. cbn beta iota.
  rewrite Ha. cbn beta iota. rewrite Ht. reflexivity.
Qed.

Lemma token_ok (w w' : world) :
  ctxStageAppAccessToken h w = (Ok tt, w') ->
  exists a t,
    api (context w') = Some a /\ appAccessToken a = Some t
    /\ metadata (context w') = metadata (context w).
Proof.
  unfold ctxStageAppAccessToken. intros H.
  apply andThen_ok in H. destruct H as ([] & w1 & H1 & H).
  apply credentials_ok in H1. destruct H1 as (a & Ha & Hm & _).
  rewrite <- Hm. clear Hm.
  destruct w1 as [[api1 m1] s1]. cbn [context api metadata] in *. subst api1.
  unfold andThen, getContext, setContext, ret, throw, request in H.
  cbn [context api metadata sent] in H.
  destruct (appAccessToken a) as [t|] eqn:Et.
  - cbn [context api metadata sent appAccessToken] in H.
    try rewrite Et in H.
    injection H as <-. exists a, t. cbn. auto.
  - cbn [context api metadata sent appAccessToken] in H.
    match type of H with
    | context [accessTokenOf h ?n ?o] =>
        destruct (accessTokenOf h n o) as [|[t|]]
    end;
      cbn [context api metadata sent appAccessToken] in H;
      [discriminate H| |discriminate H].
    injection H as <-. eexists. exists t. cbn. auto.
Qed.

Lemma metadata_noop (w : world) (a : IApi) (t : IAppAccessToken)
    (m : IDtableMetadata) :
  api (context w) = Some a -> appAccessToken a = Some t ->
  metadata (context w) = Some m ->
  ctxStageDtableMetadata stringNormalize h w = (Ok tt, w).
Proof.
  intros Ha Ht Hm. unfold ctxStageDtableMetadata.
  rewrite (andThen_eq _ _ w w tt (credentials_noop w a Ha)).
  rewrite (andThen_eq _ _ w w tt (token_noop w a t Ha Ht)).
  unfold andThen, getContext, ret. rewrite Hm. reflexivity.
Qed.

Lemma metadata_ok (w w' : world) :
  ctxStageDtableMetadata stringNormalize h w = (Ok tt, w') ->
  exists a t m,
    api (context w') = Some a /\ appAccessToken a = Some t
    /\ metadata (context w') = Some m.
Proof.
  unfold ctxStageDtableMetadata. intros H.
  apply andThen_ok in H. destruct H as ([] & w1 & _ & H).
  apply andThen_ok in H. destruct H as ([] & w2 & H2 & H).
  apply token_ok in H2. destruct H2 as (a & t & Ha & Ht & _).
  destruct w2 as [[api2 m2] s2]. cbn [context api metadata] in *. subst api2.
  unfold andThen, getContext, setContext, ret, throw, request, lift in H.
  cbn [context api metadata sent] in H.
  destruct m2 as [m|].
  - injection H as <-. exists a, t, m. cbn. auto.
  - match type of H with
    | context [bind ?x ?k] =>
        destruct (bind x k) as [options|e|];
          [|discriminate H|discriminate H]
    end.
    cbn [context api metadata sent] in H.
    match type of H with
    | context [metadataOf h ?n ?o] =>
        destruct (metadataOf h n o) as [|[m|]]
    end;
      cbn [context api metadata sent] in H;
      [discriminate H| |discriminate H].
    injection H as <-. exists a, t, m. cbn. auto.
Qed.

Lemma stage_sent (w w' : world) (r : result unit) :
  ctxStageDtableMetadata stringNormalize h w = (r, w') ->
  exists new,
    sent w' = sent w ++ new
    /\ length new <= 2
    /\ (tokenOf (context w) <> None -> length new <= 1)
    /\ (tokenOf (context w) <> None -> metadata (context w) <> None ->
        new = []).
Proof.
  intros H.
  destruct w as [[[[s k [t|]]|] [m|]] snt];
    unfold ctxStageDtableMetadata, ctxStageAppAccessToken,
      ctxStageApiCredentials, andThen, getContext, setContext, ret, throw,
      request, lift, endpointExprFunctor in H;
    cbn [context api metadata sent appAccessToken] in H;
    repeat (match type of H with
            | context [getCredentials h] =>
                destruct (getCredentials h) as [[? ? [?|]]|]
            | context [accessTokenOf h ?n ?o] =>
                destruct (accessTokenOf h n o) as [|[?|]]
            | context [metadataOf h ?n ?o] =>
                destruct (metadataOf h n o) as [|[?|]]
            | context [bind ?x ?f] =>
                destruct (bind x f) as [?|?|]
            end;
            cbn [context api metadata sent appAccessToken] in H);
    injection H as <- <-; cbn [sent context tokenOf api appAccessToken metadata];
    first
      [ exists []; rewrite app_nil_r;
        repeat split; intros; cbn [length]; solve [lia|reflexivity|congruence]
      | eexists; split; [reflexivity|];
        repeat split; intros; cbn [length]; solve [lia|congruence]
      | eexists; split; [rewrite <- app_assoc; reflexivity|];
        repeat split; intros; cbn [length app]; solve [lia|congruence] ].
Qed.

Lemma stage_not_unable (w : world) :
  fst (ctxStageApiCredentials h w) <> Throw unableToStage
  /\ fst (ctxStageAppAccessToken h w) <> Throw unableToStage
  /\ fst (ctxStageDtableMetadata stringNormalize h w) <> Throw unableToStage.
Proof.
  destruct w as [[[[s k [t|]]|] [m|]] snt];
    unfold ctxStageDtableMetadata, ctxStageAppAccessToken,
      ctxStageApiCredentials, andThen, getContext, setContext, ret, throw,
      request, lift, endpointExprFunctor;
    cbn [context api metadata sent appAccessToken];
    repeat (match goal with
            | |- context [getCredentials h] =>
                destruct (getCredentials h) as [[? ? [?|]]|]
            | |- context [accessTokenOf h ?n ?o] =>
                destruct (accessTokenOf h n o) as [|[?|]]
            | |- context [metadataOf h ?n ?o] =>
                destruct (metadataOf h n o) as [|[?|]]
            | |- context [bind ?x ?f] =>
                destruct (bind x f) as [?|?|]
            end;
            cbn [context api metadata sent appAccessToken]);
    cbn [fst]; repeat split; discriminate.
Qed.

End StageFacts.

(** X17.  The metadata is fetched once.  After [ctxStageDtableMetadata]
    has succeeded, the context holds the credentials, the access token
    and the metadata, and each of the three stages, run again, succeeds
    without a request and leaves the context as it is. *)
Theorem ctxStageDtableMetadata_once
    (stringNormalize : jsstring -> jsstring) (h : Api.host)
    (w w' : Api.world) :
  Api.ctxStageDtableMetadata stringNormalize h w = (Ok tt, w') ->
  (exists a t m,
     Api.context w' = Api.Ctx (Some a) (Some m)
     /\ Api.appAccessToken a = Some t)
  /\ Api.ctxStageDtableMetadata stringNormalize h w' = (Ok tt, w')
  /\ Api.ctxStageAppAccessToken h w' = (Ok tt, w')
  /\ Api.ctxStageApiCredentials h w' = (Ok tt, w').
Proof.
  intros H. apply metadata_ok in H. destruct H as (a & t & m & Ha & Ht & Hm).
  split; [|split; [|split]].
  - exists a, t, m. split; [|exact Ht].
    destruct (Api.context w') as [api0 m0]. cbn in Ha, Hm. subst.
    reflexivity.
  - exact (metadata_noop stringNormalize h w' a t m Ha Ht Hm).
  - exact (token_noop h w' a t Ha Ht).
  - exact (credentials_noop h w' a Ha).
Qed.

Lemma ctxStageDtableMetadata_once_witness :
  (exists a t m,
     Api.context
       (snd (Api.ctxStageDtableMetadata idNormalize sampleHost sampleStart))
     = Api.Ctx (Some a) (Some m)
     /\ Api.appAccessToken a = Some t)
  /\ Api.ctxStageDtableMetadata idNormalize sampleHost
       (snd (Api.ctxStageDtableMetadata idNormalize sampleHost sampleStart))
     = (Ok tt,
        snd (Api.ctxStageDtableMetadata idNormalize sampleHost sampleStart))
  /\ Api.ctxStageAppAccessToken sampleHost
       (snd (Api.ctxStageDtableMetadata idNormalize sampleHost sampleStart))
     = (Ok tt,
        snd (Api.ctxStageDtableMetadata idNormalize sampleHost sampleStart))
  /\ Api.ctxStageApiCredentials sampleHost
       (snd (Api.ctxStageDtableMetadata idNormalize sampleHost sampleStart))
     = (Ok tt,
        snd (Api.ctxStageDtableMetadata idNormalize sampleHost sampleStart)).
Proof.
  apply (ctxStageDtableMetadata_once idNormalize sampleHost sampleStart).
  vm_compute. reflexivity.
Defined.

(** X18.  What staging costs.  Whatever the host answers and however it
    ends, [ctxStageDtableMetadata] only adds to the requests sent, and it
    adds at most two; at most one when the context has its access token,
    and none when it has the metadata as well. *)
Theorem ctxStageDtableMetadata_requests
    (stringNormalize : jsstring -> jsstring) (h : Api.host)
    (w w' : Api.world) (r : result unit) :
  Api.ctxStageDtableMetadata stringNormalize h w = (r, w') ->
  exists new,
    Api.sent w' = Api.sent w ++ new
    /\ length new <= 2
    /\ (Api.tokenOf (Api.context w) <> None -> length new <= 1)
    /\ (Api.tokenOf (Api.context w) <> None ->
        Api.metadata (Api.context w) <> None -> new = []).
Proof. apply stage_sent. Qed.

Lemma ctxStageDtableMetadata_requests_witness :
  exists new,
    Api.sent
      (snd (Api.ctxStageDtableMetadata idNormalize sampleHost sampleStart))
    = Api.sent sampleStart ++ new
    /\ length new <= 2
    /\ (Api.tokenOf (Api.context sampleStart) <> None -> length new <= 1)
    /\ (Api.tokenOf (Api.context sampleStart) <> None ->
        Api.metadata (Api.context sampleStart) <> None -> new = []).
Proof.
  apply (ctxStageDtableMetadata_requests idNormalize sampleHost sampleStart
           _ (Ok tt)).
  vm_compute. reflexivity.
Defined.

(** X19.  The stages never report that they were unable to stage on
    [api]: the test that throws this error stands after an assignment
    that makes it false, in [ctxStageApiCredentials] and again in
    [ctxStageAppAccessToken]. *)
Theorem ctxStage_never_unable
    (stringNormalize : jsstring -> jsstring) (h : Api.host) (w : Api.world) :
  fst (Api.ctxStageApiCredentials h w) <> Throw Api.unableToStage
  /\ fst (Api.ctxStageAppAccessToken h w) <> Throw Api.unableToStage
  /\ fst (Api.ctxStageDtableMetadata stringNormalize h w)
     <> Throw Api.unableToStage.
Proof. apply stage_not_unable. Qed.

Section WireFacts.

Import Api.

Variable stringNormalize : jsstring -> jsstring.
Variable h : host.

Lemma authorization_expr (a : IApi) (m : option IDtableMetadata)
    (t : IAppAccessToken) :
  appAccessToken a = Some t -> access_token t <> [] ->
  braceFree (server a) = true ->
  stringNormalize (js "Token {{access_token}}") = js "Token {{access_token}}" ->
  endpointCtxExpr stringNormalize (Ctx (Some a) m)
    (js "Token {{access_token}}")
  = Ok (js "Token " ++ access_token t).
Proof.
  intros Ht Hne Hs Hn.
  pose proof (endpoint_placeholder stringNormalize a m (js "Token ") []
                (js "access_token") 0 0) as E.
  change (js "Token " ++ placeholder 0 (js "access_token") 0 ++ [])
    with (js "Token {{access_token}}") in E.
  rewrite E; [|simpl; tauto|reflexivity|reflexivity|exact Hs|exact Hn].
  unfold expand.
  change (variable (endpointVariablesOf a) (Some (js "access_token")))
    with (option_map access_token (appAccessToken a)).
  rewrite Ht. cbn [option_map].
  destruct (access_token t) as [|c v]; [contradiction|].
  cbn [hd app]. rewrite app_nil_r. reflexivity.
Qed.

Lemma uuid_expr (a : IApi) (m : option IDtableMetadata)
    (t : IAppAccessToken) (p q : jsstring) :
  appAccessToken a = Some t -> dtable_uuid t <> [] ->
  braceFree (server a) = true ->
  N.eqb (hd 0%N p) slash = true ->
  braceFree p = true -> braceFree q = true ->
  stringNormalize (p ++ js "{{dtable_uuid}}" ++ q)
  = p ++ js "{{dtable_uuid}}" ++ q ->
  endpointCtxExpr stringNormalize (Ctx (Some a) m)
    (p ++ js "{{dtable_uuid}}" ++ q)
  = Ok (server a ++ p ++ dtable_uuid t ++ q).
Proof.
  intros Ht Hne Hs Hsl Hp Hq Hn.
  pose proof (endpoint_placeholder stringNormalize a m p q
                (js "dtable_uuid") 0 0) as E.
  change (placeholder 0 (js "dtable_uuid") 0) with (js "{{dtable_uuid}}") in E.
  rewrite E; [|simpl; tauto|exact Hp|exact Hq|exact Hs|exact Hn].
  unfold expand.
  change (variable (endpointVariablesOf a) (Some (js "dtable_uuid")))
    with (option_map dtable_uuid (appAccessToken a)).
  rewrite Ht, Hsl. cbn [option_map].
  destruct (dtable_uuid t) as [|c v]; [contradiction|]. reflexivity.
Qed.

Lemma credentials_first (a : IApi) (m : option IDtableMetadata)
    (snt : list object) :
  getCredentials h = Some a ->
  ctxStageApiCredentials h (World (Ctx None m) snt)
  = (Ok tt, World (Ctx (Some a) m) snt).
Proof.
  intros H. unfold ctxStageApiCredentials, andThen, getContext, setContext,
    ret, throw.
  cbn [context api metadata sent]. rewrite H. reflexivity.
Qed.

Lemma token_first (a : IApi) (m : option IDtableMetadata)
    (snt : list object) (t : option IAppAccessToken) :
  appAccessToken a = None ->
  accessTokenOf h (length snt) (tokenRequest a) = Resolved t ->
  ctxStageAppAccessToken h (World (Ctx (Some a) m) snt)
  = (match t with
     | Some _ => Ok tt
     | None =>
         Throw (NodeOperationError
                  (js "SeaTable: Failed to obtain access token of the base."))
     end,
     World (Ctx (Some (Api (server a) (token a) t)) m)
       (snt ++ [tokenRequest a])).
Proof.
  intros Ht Ha. unfold ctxStageAppAccessToken.
  rewrite (andThen_eq _ _ _ _ tt
             (credentials_noop h (World (Ctx (Some a) m) snt) a eq_refl)).
  unfold andThen, getContext, setContext, ret, throw, request.
  cbn [context api metadata sent]. rewrite Ht.
  cbn [context api metadata sent]. rewrite Ha.
  cbn [context api metadata sent appAccessToken].
  destruct t; reflexivity.
Qed.

Lemma token_rejected (a : IApi) (m : option IDtableMetadata)
    (snt : list object) :
  appAccessToken a = None ->
  accessTokenOf h (length snt) (tokenRequest a) = Rejected ->
  ctxStageAppAccessToken h (World (Ctx (Some a) m) snt)
  = (Throw NodeApiError,
     World (Ctx (Some a) m) (snt ++ [tokenRequest a])).
Proof.
  intros Ht Ha. unfold ctxStageAppAccessToken.
  rewrite (andThen_eq _ _ _ _ tt
             (credentials_noop h (World (Ctx (Some a) m) snt) a eq_refl)).
  unfold andThen, getContext, setContext, ret, throw, request.
  cbn [context api metadata sent]. rewrite Ht.
  cbn [context api metadata sent]. rewrite Ha. reflexivity.
Qed.

Lemma metadata_first (a : IApi) (t : IAppAccessToken) (snt : list object)
    (options : object) :
  appAccessToken a = Some t ->
  (url <- endpointCtxExpr stringNormalize (Ctx (Some a) None)
            (js "/dtable-server/api/v1/dtables/{{dtable_uuid}}/metadata/") ;;
   authorization <- endpointCtxExpr stringNormalize (Ctx (Some a) None)
                      (js "Token {{access_token}}") ;;
   Ok (metadataRequest url authorization)) = Ok options ->
  ctxStageDtableMetadata stringNormalize h (World (Ctx (Some a) None) snt)
  = match metadataOf h (length snt) options with
    | Rejected => (Throw NodeApiError,
                   World (Ctx (Some a) None) (snt ++ [options]))
    | Resolved None =>
        (Throw (NodeOperationError
                  (js "SeaTable: Error while obtaining metadata.")),
         World (Ctx (Some a) None) (snt ++ [options]))
    | Resolved (Some m) =>
        (Ok tt, World (Ctx (Some a) (Some m)) (snt ++ [options]))
    end.
Proof.
  intros Ht Ho. unfold ctxStageDtableMetadata.
  rewrite (andThen_eq _ _ _ _ tt
             (credentials_noop h (World (Ctx (Some a) None) snt) a eq_refl)).
  rewrite (andThen_eq _ _ _ _ tt
             (token_noop h (World (Ctx (Some a) None) snt) a t eq_refl Ht)).
  unfold andThen, getContext, setContext, ret, throw, request, lift,
    endpointExprFunctor.
  cbn [context api metadata sent]. rewrite Ho.
  cbn [context api metadata sent].
  destruct (metadataOf h (length snt) options) as [|[m|]]; reflexivity.
Qed.

Lemma metadata_options (a : IApi) (t : IAppAccessToken) :
  appAccessToken a = Some t ->
  access_token t <> [] -> dtable_uuid t <> [] ->
  braceFree (server a) = true ->
  stringNormalize (js "Token {{access_token}}") = js "Token {{access_token}}" ->
  stringNormalize
    (js "/dtable-server/api/v1/dtables/{{dtable_uuid}}/metadata/")
  = js "/dtable-server/api/v1/dtables/{{dtable_uuid}}/metadata/" ->
  (url <- endpointCtxExpr stringNormalize (Ctx (Some a) None)
            (js "/dtable-server/api/v1/dtables/{{dtable_uuid}}/metadata/") ;;
   authorization <- endpointCtxExpr stringNormalize (Ctx (Some a) None)
                      (js "Token {{access_token}}") ;;
   Ok (metadataRequest url authorization))
  = Ok (metadataRequest
          (server a ++ js "/dtable-server/api/v1/dtables/" ++ dtable_uuid t
           ++ js "/metadata/")
          (js "Token " ++ access_token t)).
Proof.
  intros Ht Hk Hu Hs Hn1 Hn2.
  rewrite (authorization_expr a None t Ht Hk Hs Hn1).
  pose proof (uuid_expr a None t (js "/dtable-server/api/v1/dtables/")
                (js "/metadata/") Ht Hu Hs eq_refl eq_refl eq_refl) as E.
  change (js "/dtable-server/api/v1/dtables/" ++ js "{{dtable_uuid}}"
          ++ js "/metadata/")
    with (js "/dtable-server/api/v1/dtables/{{dtable_uuid}}/metadata/") in E.
  rewrite (E Hn2). reflexivity.
Qed.

End WireFacts.

(** X20.  The first staging on the wire.  From a context without [api],
    with credentials that have no access token yet and a server that
    answers, [ctxStageDtableMetadata] sends exactly two requests: first
    for the access token, to the server's app-access-token path with the
    API token in the authorization header, then for the metadata, to the
    metadata path of the base with the access token in the header.  The
    context then holds the credentials with the token and the metadata. *)
Theorem ctxStageDtableMetadata_first
    (stringNormalize : jsstring -> jsstring) (h : Api.host)
    (a : Api.IApi) (t : Api.IAppAccessToken) (m : Api.IDtableMetadata)
    (snt : list object) :
  Api.getCredentials h = Some a ->
  Api.appAccessToken a = None ->
  Api.access_token t <> [] -> Api.dtable_uuid t <> [] ->
  Api.braceFree (Api.server a) = true ->
  stringNormalize (js "Token {{access_token}}") = js "Token {{access_token}}" ->
  stringNormalize
    (js "/dtable-server/api/v1/dtables/{{dtable_uuid}}/metadata/")
  = js "/dtable-server/api/v1/dtables/{{dtable_uuid}}/metadata/" ->
  Api.accessTokenOf h (length snt) (Api.tokenRequest a)
  = Api.Resolved (Some t) ->
  Api.metadataOf h (S (length snt))
    (Api.metadataRequest
       (Api.server a ++ js "/dtable-server/api/v1/dtables/"
        ++ Api.dtable_uuid t ++ js "/metadata/")
       (js "Token " ++ Api.access_token t))
  = Api.Resolved (Some m) ->
  Api.ctxStageDtableMetadata stringNormalize h
    (Api.World (Api.Ctx None None) snt)
  = (Ok tt,
     Api.World
       (Api.Ctx (Some (Api.Api (Api.server a) (Api.token a) (Some t)))
          (Some m))
       (snt
        ++ [Api.tokenRequest a;
            Api.metadataRequest
              (Api.server a ++ js "/dtable-server/api/v1/dtables/"
               ++ Api.dtable_uuid t ++ js "/metadata/")
              (js "Token " ++ Api.access_token t)])).
Proof.
  intros Hc Ha Hk Hu Hs Hn1 Hn2 Ht Hm.
  pose proof (token_first h a None snt (Some t) Ha Ht) as E1.
  pose proof (metadata_options stringNormalize
                (Api.Api (Api.server a) (Api.token a) (Some t)) t
                eq_refl Hk Hu Hs Hn1 Hn2) as Ho.
  pose proof (metadata_first stringNormalize h
                (Api.Api (Api.server a) (Api.token a) (Some t)) t
                (snt ++ [Api.tokenRequest a]) _ eq_refl Ho) as E2.
  replace (length (snt ++ [Api.tokenRequest a])) with (S (length snt)) in E2
    by (rewrite length_app; cbn [length]; lia).
  cbn [Api.server] in E2. rewrite Hm in E2.
  unfold Api.ctxStageDtableMetadata in *.
  rewrite (andThen_eq _ _ _ _ tt (credentials_first h a None snt Hc)).
  rewrite (andThen_eq _ _ _ _ tt E1).
  rewrite (andThen_eq _ _ _ _ tt
             (credentials_noop h
                (Api.World
                   (Api.Ctx
                      (Some (Api.Api (Api.server a) (Api.token a) (Some t)))
                      None)
                   (snt ++ [Api.tokenRequest a]))
                (Api.Api (Api.server a) (Api.token a) (Some t)) eq_refl))
    in E2.
  rewrite (andThen_eq _ _ _ _ tt
             (token_noop h
                (Api.World
                   (Api.Ctx
                      (Some (Api.Api (Api.server a) (Api.token a) (Some t)))
                      None)
                   (snt ++ [Api.tokenRequest a]))
                (Api.Api (Api.server a) (Api.token a) (Some t)) t
                eq_refl eq_refl))
    in E2.
  rewrite E2, <- app_assoc. reflexivity.
Qed.

Lemma ctxStageDtableMetadata_first_witness :
  Api.ctxStageDtableMetadata idNormalize sampleHost sampleStart
  = (Ok tt,
     Api.World (Api.Ctx (Some sampleStagedApi) (Some sampleMetadata))
       [Api.tokenRequest sampleApi;
        Api.metadataRequest
          (js "https://cloud.seatable.io/dtable-server/api/v1/dtables/650d8a0d/metadata/")
          (js "Token eyJ0")]).
Proof.
  apply (ctxStageDtableMetadata_first idNormalize sampleHost sampleApi
           sampleToken sampleMetadata []); try reflexivity; discriminate.
Defined.

Section ErrorFacts.

Import Api.

Variable stringNormalize : jsstring -> jsstring.
Variable h : host.

Lemma andThen_throw {A B : Type} (m : action A) (k : A -> action B)
    (w w' : world) (e : error) :
  m w = (Throw e, w') -> andThen m k w = (Throw e, w').
Proof. intros H. unfold andThen. rewrite H. reflexivity. Qed.

Lemma credentials_missing (m : option IDtableMetadata) (snt : list object) :
  getCredentials h = None ->
  ctxStageApiCredentials h (World (Ctx None m) snt)
  = (Throw (NodeOperationError (js "No credentials got returned!")),
     World (Ctx None m) snt).
Proof.
  intros H. unfold ctxStageApiCredentials, andThen, getContext, setContext,
    ret, throw.
  cbn [context api metadata sent]. rewrite H. reflexivity.
Qed.

End ErrorFacts.

(** X21.  Without credentials nothing is sent.  When the context has no
    [api] and the host returns no credentials, every function that
    stages the context, the three stages, [apiDtableColumns],
    [apiMetadata] and [apiRequest], throws the error that no credentials
    got returned, sends no request and leaves the context as it was. *)
Theorem no_credentials_no_request
    (stringNormalize : jsstring -> jsstring) (h : Api.host)
    (m : option Api.IDtableMetadata) (snt : list object)
    (tableName method endpoint : jsstring) (body extra : object)
    (query : option object) (uri : option jsstring) :
  Api.getCredentials h = None ->
  let w := Api.World (Api.Ctx None m) snt in
  let e := Throw (NodeOperationError (js "No credentials got returned!")) in
  Api.ctxStageApiCredentials h w = (e, w)
  /\ Api.ctxStageAppAccessToken h w = (e, w)
  /\ Api.ctxStageDtableMetadata stringNormalize h w = (e, w)
  /\ fst (Api.apiDtableColumns stringNormalize h tableName w)
     = Throw (NodeOperationError (js "No credentials got returned!"))
  /\ snd (Api.apiDtableColumns stringNormalize h tableName w) = w
  /\ fst (Api.apiMetadata stringNormalize h w)
     = Throw (NodeOperationError (js "No credentials got returned!"))
  /\ snd (Api.apiMetadata stringNormalize h w) = w
  /\ fst (Api.apiRequest stringNormalize h (Api.rowOf h) method endpoint body
            query uri extra w)
     = Throw (NodeOperationError (js "No credentials got returned!"))
  /\ snd (Api.apiRequest stringNormalize h (Api.rowOf h) method endpoint body
            query uri extra w) = w.
Proof.
  intros H w e.
  pose proof (credentials_missing h m snt H) as E0. fold w in E0.
  assert (E1 : Api.ctxStageAppAccessToken h w = (e, w)).
  { unfold Api.ctxStageAppAccessToken. apply andThen_throw. exact E0. }
  assert (E2 : Api.ctxStageDtableMetadata stringNormalize h w = (e, w)).
  { unfold Api.ctxStageDtableMetadata. apply andThen_throw. exact E0. }
  split; [exact E0|]. split; [exact E1|]. split; [exact E2|].
  unfold Api.apiDtableColumns, Api.apiMetadata, Api.apiRequest.
  rewrite !(andThen_throw _ _ _ _ _ E2), !(andThen_throw _ _ _ _ _ E1).
  repeat split.
Qed.

Lemma no_credentials_no_request_witness :
  Api.ctxStageDtableMetadata idNormalize sampleDeafHost sampleStart
  = (Throw (NodeOperationError (js "No credentials got returned!")),
     sampleStart).
Proof.
  exact (proj1 (proj2 (proj2
           (no_credentials_no_request idNormalize sampleDeafHost None []
              [] [] [] [] [] None None eq_refl)))).
Defined.

(** X22.  Failures of the two staging requests, for a context that has
    its [api].  A rejected request for the access token is the API error
    and leaves the context without token, so a later call asks again; a
    reply that is undefined is the error that the access token could not
    be obtained.  With the token in place, a rejected request for the
    metadata is the API error, and a reply without metadata is the error
    while obtaining metadata; in both cases exactly one request was sent
    and the token stays in the context. *)
Theorem ctxStage_request_failures
    (stringNormalize : jsstring -> jsstring) (h : Api.host)
    (a : Api.IApi) (m : option Api.IDtableMetadata) (snt : list object) :
  (Api.appAccessToken a = None ->
   Api.accessTokenOf h (length snt) (Api.tokenRequest a) = Api.Rejected ->
   Api.ctxStageAppAccessToken h (Api.World (Api.Ctx (Some a) m) snt)
   = (Throw NodeApiError,
      Api.World (Api.Ctx (Some a) m) (snt ++ [Api.tokenRequest a])))
  /\ (Api.appAccessToken a = None ->
      Api.accessTokenOf h (length snt) (Api.tokenRequest a)
      = Api.Resolved None ->
      Api.ctxStageAppAccessToken h (Api.World (Api.Ctx (Some a) m) snt)
      = (Throw (NodeOperationError
                  (js "SeaTable: Failed to obtain access token of the base.")),
         Api.World
           (Api.Ctx (Some (Api.Api (Api.server a) (Api.token a) None)) m)
           (snt ++ [Api.tokenRequest a])))
  /\ (forall t, Api.appAccessToken a = Some t ->
      (forall o, Api.metadataOf h (length snt) o = Api.Rejected) ->
      exists options,
        Api.ctxStageDtableMetadata stringNormalize h
          (Api.World (Api.Ctx (Some a) None) snt)
        = (Throw NodeApiError,
           Api.World (Api.Ctx (Some a) None) (snt ++ [options])))
  /\ (forall t, Api.appAccessToken a = Some t ->
      (forall o, Api.metadataOf h (length snt) o = Api.Resolved None) ->
      exists options,
        Api.ctxStageDtableMetadata stringNormalize h
          (Api.World (Api.Ctx (Some a) None) snt)
        = (Throw (NodeOperationError
                    (js "SeaTable: Error while obtaining metadata.")),
           Api.World (Api.Ctx (Some a) None) (snt ++ [options]))).
Proof.
  split; [|split; [|split]].
  - intros Ht Hr. exact (token_rejected h a m snt Ht Hr).
  - intros Ht Hr. exact (token_first h a m snt None Ht Hr).
  - intros t Ht Hr.
    destruct (endpoint_total stringNormalize a None
                (js "/dtable-server/api/v1/dtables/{{dtable_uuid}}/metadata/"))
      as (url & Eu).
    destruct (endpoint_total stringNormalize a None
                (js "Token {{access_token}}")) as (auth & Ea).
    exists (Api.metadataRequest url auth).
    rewrite (metadata_first stringNormalize h a t snt
               (Api.metadataRequest url auth) Ht)
      by (rewrite Eu, Ea; reflexivity).
    rewrite Hr. reflexivity.
  - intros t Ht Hr.
    destruct (endpoint_total stringNormalize a None
                (js "/dtable-server/api/v1/dtables/{{dtable_uuid}}/metadata/"))
      as (url & Eu).
    destruct (endpoint_total stringNormalize a None
                (js "Token {{access_token}}")) as (auth & Ea).
    exists (Api.metadataRequest url auth).
    rewrite (metadata_first stringNormalize h a t snt
               (Api.metadataRequest url auth) Ht)
      by (rewrite Eu, Ea; reflexivity).
    rewrite Hr. reflexivity.
Qed.

(** ** Requests *)

Section RequestFacts.

Import Api.

Variable stringNormalize : jsstring -> jsstring.
Variable h : host.

Lemma apiRequest_staged {A : Type} (answerOf : nat -> object -> answer A)
    (a : IApi) (t : IAppAccessToken) (m : option IDtableMetadata)
    (snt : list object) (method endpoint : jsstring) (body : object)
    (query : option object) (uri : option jsstring) (extra : object)
    (u : jsstring) :
  appAccessToken a = Some t -> access_token t <> [] ->
  braceFree (server a) = true ->
  stringNormalize (js "Token {{access_token}}") = js "Token {{access_token}}" ->
  match uri with
  | Some (c :: r) => Ok (c :: r)
  | _ => endpointCtxExpr stringNormalize (Ctx (Some a) m) endpoint
  end = Ok u ->
  apiRequest stringNormalize h answerOf method endpoint body query uri extra
    (World (Ctx (Some a) m) snt)
  = request answerOf
      (apiRequestMergeOptionsWithUri
         (requestOptions (js "Token " ++ access_token t) method body
            (callerQuery query) u)
         body extra)
      (World (Ctx (Some a) m) snt).
Proof.
  intros Ht Hk Hs Hn Hu. unfold apiRequest.
  rewrite (andThen_eq _ _ _ _ tt
             (token_noop h (World (Ctx (Some a) m) snt) a t eq_refl Ht)).
  unfold andThen, getContext, lift, ret, endpointExprFunctor.
  cbn [context].
  rewrite (authorization_expr stringNormalize a m t Ht Hk Hs Hn).
  destruct uri as [[|c r]|]; cbn beta iota; rewrite ?Hu;
    try (injection Hu as <-); reflexivity.
Qed.

Lemma request_eq {A : Type} (answerOf : nat -> object -> answer A)
    (options : object) (w : world) :
  request answerOf options w
  = (match answerOf (length (sent w)) options with
     | Rejected => Throw NodeApiError
     | Resolved x => Ok x
     end,
     World (context w) (sent w ++ [options])).
Proof.
  unfold request. destruct (answerOf (length (sent w)) options); reflexivity.
Qed.

Lemma apiRequest_uuid {A : Type} (answerOf : nat -> object -> answer A)
    (a : IApi) (t : IAppAccessToken) (m : option IDtableMetadata)
    (snt : list object) (method p q : jsstring) (body : object)
    (query : option object) :
  appAccessToken a = Some t ->
  access_token t <> [] -> dtable_uuid t <> [] ->
  braceFree (server a) = true ->
  N.eqb (hd 0%N p) slash = true ->
  braceFree p = true -> braceFree q = true ->
  stringNormalize (js "Token {{access_token}}") = js "Token {{access_token}}" ->
  stringNormalize (p ++ js "{{dtable_uuid}}" ++ q)
  = p ++ js "{{dtable_uuid}}" ++ q ->
  apiRequest stringNormalize h answerOf method
    (p ++ js "{{dtable_uuid}}" ++ q) body query None []
    (World (Ctx (Some a) m) snt)
  = (match answerOf (length snt)
             (apiRequestMergeOptionsWithUri
                (requestOptions (js "Token " ++ access_token t) method body
                   (callerQuery query)
                   (server a ++ p ++ dtable_uuid t ++ q))
                body [])
     with
     | Rejected => Throw NodeApiError
     | Resolved x => Ok x
     end,
     World (Ctx (Some a) m)
       (snt
        ++ [apiRequestMergeOptionsWithUri
              (requestOptions (js "Token " ++ access_token t) method body
                 (callerQuery query)
                 (server a ++ p ++ dtable_uuid t ++ q))
              body []])).
Proof.
  intros Ht Hk Hu Hs Hsl Hp Hq Hn1 Hn2.
  rewrite (apiRequest_staged answerOf a t m snt method _ body query None []
             (server a ++ p ++ dtable_uuid t ++ q) Ht Hk Hs Hn1)
    by (apply (uuid_expr stringNormalize a m t p q); assumption).
  apply request_eq.
Qed.

End RequestFacts.

Lemma columns_staged (stringNormalize : jsstring -> jsstring) (h : Api.host)
    (a : Api.IApi) (t : Api.IAppAccessToken) (md : Api.IDtableMetadata)
    (snt : list object) (tableName : jsstring) :
  Api.appAccessToken a = Some t ->
  Api.apiDtableColumns stringNormalize h tableName
    (Api.World (Api.Ctx (Some a) (Some md)) snt)
  = (match Api.tables md with
     | Some tbs => apiDtableColumns tbs tableName
     | None => Throw (NodeOperationError (js "SeaTable: Metadata error."))
     end,
     Api.World (Api.Ctx (Some a) (Some md)) snt).
Proof.
  intros Ht. unfold Api.apiDtableColumns.
  rewrite (andThen_eq _ _ _ _ tt
             (metadata_noop stringNormalize h
                (Api.World (Api.Ctx (Some a) (Some md)) snt) a t md
                eq_refl Ht eq_refl)).
  unfold Api.andThen, Api.getContext, Api.lift, Api.throw.
  cbn [Api.context Api.metadata option_map].
  destruct (Api.tables md); reflexivity.
Qed.

(** X23.  What [apiRequest] sends once the context has its access token.
    For an endpoint that begins with a slash and names the base by the
    dtable_uuid placeholder, the one request goes to the server's URL
    followed by the endpoint with the identity of the base in it, carries
    the access token in the authorization header, the method, and the
    query (an empty object when none is given); the body is sent only if
    it has an entry.  A rejected request is the API error; otherwise the
    reply is returned as it is.  A non-empty [uri] replaces the endpoint
    altogether. *)
Theorem apiRequest_sends
    (stringNormalize : jsstring -> jsstring) (h : Api.host)
    (a : Api.IApi) (t : Api.IAppAccessToken)
    (m : option Api.IDtableMetadata) (snt : list object)
    (method p q : jsstring) (body : object) (query : option object) :
  Api.appAccessToken a = Some t ->
  Api.access_token t <> [] -> Api.dtable_uuid t <> [] ->
  Api.braceFree (Api.server a) = true ->
  N.eqb (hd 0%N p) Api.slash = true ->
  Api.braceFree p = true -> Api.braceFree q = true ->
  stringNormalize (js "Token {{access_token}}") = js "Token {{access_token}}" ->
  stringNormalize (p ++ js "{{dtable_uuid}}" ++ q)
  = p ++ js "{{dtable_uuid}}" ++ q ->
  let w := Api.World (Api.Ctx (Some a) m) snt in
  let options :=
    apiRequestMergeOptionsWithUri
      (Api.requestOptions (js "Token " ++ Api.access_token t) method body
         (callerQuery query)
         (Api.server a ++ p ++ Api.dtable_uuid t ++ q))
      body [] in
  Api.apiRequest stringNormalize h (Api.rowOf h) method
    (p ++ js "{{dtable_uuid}}" ++ q) body query None [] w
  = (match Api.rowOf h (length snt) options with
     | Api.Rejected => Throw NodeApiError
     | Api.Resolved x => Ok x
     end,
     Api.World (Api.Ctx (Some a) m) (snt ++ [options]))
  /\ Obj.get options (js "uri")
     = VString (Api.server a ++ p ++ Api.dtable_uuid t ++ q)
  /\ Obj.get options (js "headers")
     = VObject [(js "Authorization",
                 VString (js "Token " ++ Api.access_token t))]
  /\ Obj.get options (js "method") = VString method
  /\ Obj.get options (js "qs") = VObject (callerQuery query)
  /\ Obj.get options (js "body")
     = (if Nat.eqb (length body) 0 then VUndefined else VObject body)
  /\ (forall (endpoint u : jsstring) (c : N),
        Api.apiRequest stringNormalize h (Api.rowOf h) method endpoint body
          query (Some (c :: u)) [] w
        = Api.request (Api.rowOf h)
            (apiRequestMergeOptionsWithUri
               (Api.requestOptions (js "Token " ++ Api.access_token t)
                  method body (callerQuery query) (c :: u))
               body [])
            w).
Proof.
  intros Ht Hk Hu Hs Hsl Hp Hq Hn1 Hn2 w options.
  split.
  - apply apiRequest_uuid; assumption.
  - unfold options.
    rewrite !merge_get by constructor.
    destruct (Nat.eqb (length body) 0); cbn [andb];
      (split; [reflexivity|]); (split; [reflexivity|]);
      (split; [reflexivity|]); (split; [reflexivity|]);
      (split; [reflexivity|]);
      intros endpoint u c; unfold w;
      apply (apiRequest_staged stringNormalize h (Api.rowOf h) a t m snt
               method endpoint body query (Some (c :: u)) [] (c :: u)
               Ht Hk Hs Hn1 eq_refl).
Qed.

Lemma apiRequest_sends_witness :
  Obj.get
    (nth 0 (Api.sent
              (snd (Api.apiRequest idNormalize sampleHost
                      (Api.rowOf sampleHost) (js "GET") Api.rowsEndpoint []
                      None None []
                      (Api.World (Api.Ctx (Some sampleStagedApi) None) []))))
       [])
    (js "uri")
  = VString
      (js "https://cloud.seatable.io/dtable-server/api/v1/dtables/650d8a0d/rows/").
Proof.
  pose proof (apiRequest_sends idNormalize sampleHost sampleStagedApi
                sampleToken None [] (js "GET")
                (js "/dtable-server/api/v1/dtables/") (js "/rows/") [] None
                eq_refl ltac:(discriminate) ltac:(discriminate)
                eq_refl eq_refl eq_refl eq_refl eq_refl eq_refl)
    as (E & Hu & _).
  change (js "/dtable-server/api/v1/dtables/" ++ js "{{dtable_uuid}}"
          ++ js "/rows/") with Api.rowsEndpoint in E.
  rewrite E. exact Hu.
Defined.

(** ** The append operation *)

Section AppendFacts.

Lemma rowDelete_get (row : IRow) (k : jsstring) :
  Obj.get (rowDeleteInternalColumns row) k
  = if Order.member k schema.internalNames then VUndefined
    else Obj.get row k.
Proof.
  unfold rowDeleteInternalColumns. rewrite fold_delete_filter.
  rewrite (get_filter_keys
             (fun k => negb (Order.member k schema.internalNames))).
  destruct (Order.member k schema.internalNames); reflexivity.
Qed.

Lemma rowDelete_In (row : IRow) (k : jsstring) :
  In k (Obj.keys (rowDeleteInternalColumns row))
  <-> In k (Obj.keys row) /\ ~ In k schema.internalNames.
Proof.
  unfold rowDeleteInternalColumns. rewrite fold_delete_filter.
  unfold Obj.keys. rewrite !in_map_iff. split.
  - intros ((k0 & v) & <- & H). apply filter_In in H. destruct H as [H1 H2].
    cbn [fst] in *. split; [exists (k0, v); split; [reflexivity|exact H1]|].
    intros Hi. apply member_In in Hi. rewrite Hi in H2. discriminate H2.
  - intros [((k0 & v) & <- & H1) H2]. exists (k0, v).
    split; [reflexivity|]. apply filter_In. split; [exact H1|].
    cbn [fst] in *. destruct (Order.member k0 schema.internalNames) eqn:E;
      [|reflexivity].
    apply member_In in E. contradiction.
Qed.

Lemma get_spread (first second : object) (k : jsstring) :
  NoDup (Obj.keys first) -> NoDup (Obj.keys second) ->
  Obj.get (spread first second) k
  = if Obj.has second k then Obj.get second k else Obj.get first k.
Proof.
  intros H1 H2. unfold spread.
  rewrite (get_defineAll second _ k H2), (get_defineAll first _ k H1).
  destruct (Obj.has second k); [reflexivity|].
  destruct (Obj.has first k) eqn:E; [reflexivity|].
  symmetry. apply get_absent, E.
Qed.

End AppendFacts.

(** X24.  The row that the append operation returns.  Its keys are
    names of the table's columns of known type that are not internal
    names, so no internal field such as [_id] reaches the output although
    both replies carry it; and every such name is a key, except
    [__proto__], under which an assignment stores nothing.  Under each key
    stands the formatted value of the row that was read back when that row
    has the key, and otherwise the formatted value that the reply to the
    insert has under the column. *)
Theorem appendedRow_columns (dtableColumns : list IDtableMetadataColumn)
    (newRowInsertData newRow : IRow) (k : jsstring) :
  NoDup (Obj.keys newRowInsertData) -> NoDup (Obj.keys newRow) ->
  (In k (Obj.keys (Api.appendedRow dtableColumns newRowInsertData newRow))
   -> (exists c, In c dtableColumns /\ name c = k)
      /\ ~ In k schema.internalNames)
  /\ (k <> protoName ->
      (exists c, In c dtableColumns /\ name c = k) ->
      ~ In k schema.internalNames ->
      In k (Obj.keys (Api.appendedRow dtableColumns newRowInsertData newRow)))
  /\ (In k (Obj.keys (Api.appendedRow dtableColumns newRowInsertData newRow))
      -> Obj.get (Api.appendedRow dtableColumns newRowInsertData newRow) k
         = rowFormatColumn
             (if Obj.has newRow k then Obj.get newRow k
              else Obj.get newRowInsertData k)).
Proof.
  intros H1 H2. unfold Api.appendedRow.
  set (row := spread newRowInsertData newRow).
  set (names := List.map name dtableColumns).
  assert (Hk : In k (Obj.keys
                       (rowDeleteInternalColumns
                          (rowFormatColumns row names)))
               <-> In k (storedNames row names)
                   /\ ~ In k schema.internalNames).
  { rewrite rowDelete_In, rowFormatColumns_keys_In. reflexivity. }
  assert (Hc : In k names <-> exists c, In c dtableColumns /\ name c = k).
  { unfold names. rewrite in_map_iff. split; intros (c & A & B); exists c;
      tauto. }
  split; [|split].
  - intros Hin. apply Hk in Hin. destruct Hin as [Hs Hn].
    split; [apply Hc, (stored_In row), Hs|exact Hn].
  - intros Hp He Hn. apply Hk. split; [|exact Hn].
    apply stored_other; [exact Hp|apply Hc, He].
  - intros Hin. apply Hk in Hin. destruct Hin as [Hs Hn].
    rewrite rowDelete_get.
    destruct (Order.member k schema.internalNames) eqn:M.
    { apply member_In in M. contradiction. }
    rewrite rowFormatColumns_get.
    replace (Order.member k (storedNames row names)) with true
      by (symmetry; apply member_In, Hs).
    unfold row. rewrite get_spread by assumption. reflexivity.
Qed.

Lemma appendedRow_columns_witness :
  Obj.get
    (Api.appendedRow sampleColumns
       (fst (rowMapColumnsFromKeysToNames sampleResponse sampleColumns))
       sampleNewRow)
    (js "Title")
  = VString (js "Ann")
  /\ ~ In (js "_id")
        (Obj.keys
           (Api.appendedRow sampleColumns
              (fst (rowMapColumnsFromKeysToNames sampleResponse sampleColumns))
              sampleNewRow)).
Proof.
  assert (N1 : NoDup
                 (Obj.keys
                    (fst (rowMapColumnsFromKeysToNames sampleResponse
                            sampleColumns))))
    by (vm_compute; repeat constructor; simpl; intuition discriminate).
  assert (N2 : NoDup (Obj.keys sampleNewRow))
    by (vm_compute; repeat constructor; simpl; intuition discriminate).
  split.
  - destruct (appendedRow_columns sampleColumns _ sampleNewRow (js "Title")
                N1 N2) as (_ & Hk & Hv).
    rewrite Hv; [reflexivity|]. apply Hk.
    + discriminate.
    + exists (Column (js "0000") (js "Title") (js "text")).
      split; [left|]; reflexivity.
    + simpl. intuition discriminate.
  - destruct (appendedRow_columns sampleColumns _ sampleNewRow (js "_id")
                N1 N2) as (Hk & _).
    intros H. apply Hk in H. destruct H as [_ H]. apply H. left. reflexivity.
Defined.

(** X25.  One item of the append operation, with the context staged.
    Two requests go out, in this order: a POST to the rows of the base
    whose body holds the table name and the item as [row], with an empty
    query, then a GET to the inserted row, addressed by the encoded
    identity from the first reply, with the table name and [convert] in
    the query, and with the same body again.  The item's result is the
    row built from the two replies.  When the first reply has no [_id],
    the operation fails after the POST alone. *)
Theorem appendItem_requests
    (stringNormalize : jsstring -> jsstring)
    (encodeURIComponent : value -> jsstring) (h : Api.host)
    (a : Api.IApi) (t : Api.IAppAccessToken) (md : Api.IDtableMetadata)
    (tbs : list IDtableMetadataTable)
    (dtableColumns : list IDtableMetadataColumn)
    (snt : list object) (tableName : jsstring) (returnData : list object)
    (item responseData newRow : object) :
  Api.appAccessToken a = Some t ->
  Api.access_token t <> [] -> Api.dtable_uuid t <> [] ->
  Api.braceFree (Api.server a) = true ->
  Api.tables md = Some tbs ->
  apiDtableColumns tbs tableName = Ok dtableColumns ->
  stringNormalize (js "Token {{access_token}}") = js "Token {{access_token}}" ->
  stringNormalize Api.rowsEndpoint = Api.rowsEndpoint ->
  let w := Api.World (Api.Ctx (Some a) (Some md)) snt in
  let authorization := js "Token " ++ Api.access_token t in
  let rows :=
    Api.server a ++ js "/dtable-server/api/v1/dtables/"
    ++ Api.dtable_uuid t ++ js "/rows/" in
  let body := Api.appendBody tableName item in
  let post :=
    apiRequestMergeOptionsWithUri
      (Api.requestOptions authorization (js "POST") body [] rows) body [] in
  Api.rowOf h (length snt) post = Api.Resolved responseData ->
  (Obj.get responseData (js "_id") = VUndefined ->
   Api.appendItem stringNormalize encodeURIComponent h tableName returnData
     item w
   = (Throw (NodeOperationError
               (js "SeaTable: No identity after appending row.")),
      Api.World (Api.Ctx (Some a) (Some md)) (snt ++ [post])))
  /\ (let insertId := Obj.get responseData (js "_id") in
      let get :=
        apiRequestMergeOptionsWithUri
          (Api.requestOptions authorization (js "GET") body
             (Api.appendQuery tableName)
             (rows ++ encodeURIComponent insertId ++ js "/"))
          body [] in
      insertId <> VUndefined ->
      Api.braceFree (encodeURIComponent insertId) = true ->
      stringNormalize
        (Api.rowsEndpoint ++ encodeURIComponent insertId ++ js "/")
      = Api.rowsEndpoint ++ encodeURIComponent insertId ++ js "/" ->
      Api.rowOf h (S (length snt)) get = Api.Resolved newRow ->
      Obj.get newRow (js "_id") <> VUndefined ->
      Api.appendItem stringNormalize encodeURIComponent h tableName
        returnData item w
      = (Ok (returnData
             ++ [Api.appendedRow dtableColumns
                   (fst (rowMapColumnsFromKeysToNames responseData
                           dtableColumns))
                   newRow]),
         Api.World (Api.Ctx (Some a) (Some md)) (snt ++ [post; get]))).
Proof.
  intros Ht Hk Hu Hs Htb Hc Hn1 Hn2 w authorization rows body post Hp.
  assert (E0 : Api.apiDtableColumns stringNormalize h tableName w
               = (Ok dtableColumns, w)).
  { unfold w. rewrite (columns_staged stringNormalize h a t md snt tableName Ht).
    rewrite Htb, Hc. reflexivity. }
  assert (E1 : Api.apiRequest stringNormalize h (Api.rowOf h) (js "POST")
                 Api.rowsEndpoint body None None [] w
               = (Ok responseData,
                  Api.World (Api.Ctx (Some a) (Some md)) (snt ++ [post]))).
  { unfold w.
    pose proof (apiRequest_uuid stringNormalize h (Api.rowOf h) a t (Some md)
                  snt (js "POST") (js "/dtable-server/api/v1/dtables/")
                  (js "/rows/") body None Ht Hk Hu Hs eq_refl eq_refl eq_refl
                  Hn1 Hn2) as E.
    change (js "/dtable-server/api/v1/dtables/" ++ js "{{dtable_uuid}}"
            ++ js "/rows/") with Api.rowsEndpoint in E.
    cbn [callerQuery] in E. rewrite E.
    pose proof Hp as Hp'. unfold post, rows, authorization in Hp'.
    rewrite Hp'. reflexivity. }
  split.
  - intros Hid. unfold Api.appendItem.
    rewrite (andThen_eq _ _ _ _ _ E0). fold body.
    rewrite (andThen_eq _ _ _ _ _ E1). rewrite Hid. reflexivity.
  - intros insertId get Hid Hb Hn3 Hg Hnew. unfold Api.appendItem.
    rewrite (andThen_eq _ _ _ _ _ E0). fold body.
    rewrite (andThen_eq _ _ _ _ _ E1). fold insertId.
    destruct (isUndefined insertId) eqn:Ei.
    { apply isUndefined_iff in Ei. contradiction. }
    assert (E2 : Api.apiRequest stringNormalize h (Api.rowOf h) (js "GET")
                   (Api.rowsEndpoint ++ encodeURIComponent insertId
                    ++ [Api.slash])
                   body (Some (Api.appendQuery tableName)) None []
                   (Api.World (Api.Ctx (Some a) (Some md)) (snt ++ [post]))
                 = (Ok newRow,
                    Api.World (Api.Ctx (Some a) (Some md))
                      ((snt ++ [post]) ++ [get]))).
    { pose proof (apiRequest_uuid stringNormalize h (Api.rowOf h) a t
                    (Some md) (snt ++ [post]) (js "GET")
                    (js "/dtable-server/api/v1/dtables/")
                    (js "/rows/" ++ encodeURIComponent insertId ++ js "/")
                    body (Some (Api.appendQuery tableName))
                    Ht Hk Hu Hs eq_refl eq_refl) as E.
      change (js "/dtable-server/api/v1/dtables/" ++ js "{{dtable_uuid}}"
              ++ js "/rows/" ++ encodeURIComponent insertId ++ js "/")
        with (Api.rowsEndpoint ++ encodeURIComponent insertId ++ js "/") in E.
      change [Api.slash] with (js "/").
      rewrite E; [| |exact Hn1|exact Hn3].
      - replace (length (snt ++ [post])) with (S (length snt))
          by (rewrite length_app; cbn [length]; lia).
        cbn [callerQuery].
        replace (Api.server a ++ js "/dtable-server/api/v1/dtables/"
                 ++ Api.dtable_uuid t ++ js "/rows/"
                 ++ encodeURIComponent insertId ++ js "/")
          with (rows ++ encodeURIComponent insertId ++ js "/")
          by (unfold rows; rewrite <- !app_assoc; reflexivity).
        pose proof Hg as Hg'. unfold get, authorization in Hg'.
        rewrite Hg'. reflexivity.
      - unfold Api.braceFree in *. rewrite !forallb_app, Hb. reflexivity. }
    rewrite (andThen_eq _ _ _ _ _ E2).
    destruct (isUndefined (Obj.get newRow (js "_id"))) eqn:En.
    { apply isUndefined_iff in En. contradiction. }
    unfold Api.ret. rewrite <- app_assoc. reflexivity.
Qed.

Lemma appendItem_requests_witness :
  fst (Api.appendItem idNormalize sampleEncode sampleHost (js "People") []
         sampleOneCell
         (Api.World (Api.Ctx (Some sampleStagedApi) (Some sampleMetadata)) []))
  = Ok [[(js "Title", VString (js "Ann")); (js "Surname", VNull)]]
  /\ length
       (Api.sent
          (snd (Api.appendItem idNormalize sampleEncode sampleHost
                  (js "People") [] sampleOneCell
                  (Api.World
                     (Api.Ctx (Some sampleStagedApi) (Some sampleMetadata))
                     []))))
     = 2.
Proof.
  pose proof (appendItem_requests idNormalize sampleEncode sampleHost
                sampleStagedApi sampleToken sampleMetadata sampleTables
                (dtableSchemaColumns sampleTables_columns) [] (js "People") []
                sampleOneCell sampleResponse sampleNewRow
                eq_refl ltac:(discriminate) ltac:(discriminate)
                eq_refl eq_refl eq_refl eq_refl eq_refl eq_refl)
    as [_ E].
  cbv zeta in E.
  rewrite (E ltac:(discriminate) eq_refl eq_refl eq_refl
             ltac:(discriminate)).
  split; reflexivity.
Defined.

(** ** The metadata operation and unknown operations *)





(** X27.  An operation that is not append, list or metadata fails with
    the error that names it, before anything else happens: no credentials
    are read, no request is sent, and the context stays as it was. *)
Theorem execute_unknown_operation
    (stringNormalize : jsstring -> jsstring)
    (encodeURIComponent : value -> jsstring) (h : Api.host) (fuel : nat)
    (i : Api.executeInput) (w : Api.world) :
  Api.operation i <> js "append" ->
  Api.operation i <> js "list" ->
  Api.operation i <> js "metadata" ->
  Api.execute stringNormalize encodeURIComponent h fuel i w
  = (Throw (NodeOperationError
              (js "The operation " ++ [quote] ++ Api.operation i ++ [quote]
               ++ js " is not known!")),
     w).
Proof.
  intros H1 H2 H3. unfold Api.execute.
  rewrite (jsstring_eqb_neq _ _ H1), (jsstring_eqb_neq _ _ H2),
    (jsstring_eqb_neq _ _ H3).
  reflexivity.
Qed.

Lemma execute_unknown_operation_witness :
  Api.execute idNormalize sampleEncode sampleDeafHost 1 sampleUnknownOperation
    sampleStart
  = (Throw (NodeOperationError
              (js "The operation " ++ [quote] ++ js "remove" ++ [quote]
               ++ js " is not known!")),
     sampleStart).
Proof.
  apply (execute_unknown_operation idNormalize sampleEncode sampleDeafHost 1
           sampleUnknownOperation sampleStart); discriminate.
Defined.

(** ** The paginated fetch over [apiRequest] *)

Section BridgeFacts.

Variable stringNormalize : jsstring -> jsstring.
Variable h : Api.host.
Variable a : Api.IApi.
Variable t : Api.IAppAccessToken.
Variable m : option Api.IDtableMetadata.
Variable snt : list object.
Variables method p q : jsstring.
Variable body : object.

Hypothesis has_token : Api.appAccessToken a = Some t.
Hypothesis token_text : Api.access_token t <> [].
Hypothesis uuid_text : Api.dtable_uuid t <> [].
Hypothesis server_plain : Api.braceFree (Api.server a) = true.
Hypothesis p_slash : N.eqb (hd 0%N p) Api.slash = true.
Hypothesis p_plain : Api.braceFree p = true.
Hypothesis q_plain : Api.braceFree q = true.
Hypothesis token_normal :
  stringNormalize (js "Token {{access_token}}") = js "Token {{access_token}}".
Hypothesis endpoint_normal :
  stringNormalize (p ++ js "{{dtable_uuid}}" ++ q)
  = p ++ js "{{dtable_uuid}}" ++ q.

Local Abbreviation optionsOf :=
  (fun query : object =>
     apiRequestMergeOptionsWithUri
       (Api.requestOptions (js "Token " ++ Api.access_token t) method body
          query (Api.server a ++ p ++ Api.dtable_uuid t ++ q))
       body []).

Local Abbreviation srv :=
  (fun (n : nat) (query : object) =>
     match Api.rowsOf h (length snt + n) (optionsOf query) with
     | Api.Rejected => RequestFailed
     | Api.Resolved rows => Body rows
     end).

Lemma loop_bridge :
  forall (fuel n : nat) (query : object) (returnData : list IRow)
         (sentQ : list object),
    length sentQ = n ->
    Api.apiRequestLoop stringNormalize h fuel method
      (p ++ js "{{dtable_uuid}}" ++ q) body query returnData
      (Api.World (Api.Ctx (Some a) m) (snt ++ List.map optionsOf sentQ))
    = (outcome_of (apiRequestLoop srv fuel n query returnData sentQ),
       Api.World (Api.Ctx (Some a) m)
         (snt
          ++ List.map optionsOf
               (requests_of
                  (apiRequestLoop srv fuel n query returnData sentQ)))).
Proof.
  induction fuel as [|fuel IH]; intros n query returnData sentQ Hn;
    [reflexivity|].
  cbn [Api.apiRequestLoop apiRequestLoop].
  unfold Api.andThen at 1.
  rewrite (apiRequest_uuid stringNormalize h (Api.rowsOf h) a t m
             (snt ++ List.map optionsOf sentQ) method p q body (Some query)
             has_token token_text uuid_text server_plain p_slash p_plain
             q_plain token_normal endpoint_normal).
  cbn [callerQuery].
  replace (length (snt ++ List.map optionsOf sentQ)) with (length snt + n)
    by (rewrite length_app, length_map, Hn; reflexivity).
  assert (Hs : (snt ++ List.map optionsOf sentQ) ++ [optionsOf query]
               = snt ++ List.map optionsOf (sentQ ++ [query])).
  { rewrite map_app. cbn [List.map]. symmetry. apply app_assoc. }
  rewrite Hs.
  destruct (Api.rowsOf h (length snt + n) (optionsOf query)) as [|rows].
  - reflexivity.
  - destruct (match rows with
              | Some rs => (segment - 1 <? N.of_nat (length rs))%N
              | None => false
              end).
    + apply IH. rewrite length_app, Hn. cbn [length]. lia.
    + reflexivity.
Qed.

End BridgeFacts.

Lemma allItems_bridge
    (stringNormalize : jsstring -> jsstring) (h : Api.host)
    (a : Api.IApi) (t : Api.IAppAccessToken)
    (m : option Api.IDtableMetadata) (snt : list object)
    (method p q : jsstring) (body : object) (fuel : nat)
    (query : option object) :
  Api.appAccessToken a = Some t ->
  Api.access_token t <> [] -> Api.dtable_uuid t <> [] ->
  Api.braceFree (Api.server a) = true ->
  N.eqb (hd 0%N p) Api.slash = true ->
  Api.braceFree p = true -> Api.braceFree q = true ->
  stringNormalize (js "Token {{access_token}}") = js "Token {{access_token}}" ->
  stringNormalize (p ++ js "{{dtable_uuid}}" ++ q)
  = p ++ js "{{dtable_uuid}}" ++ q ->
  let optionsOf :=
    fun query : object =>
      apiRequestMergeOptionsWithUri
        (Api.requestOptions (js "Token " ++ Api.access_token t) method body
           query (Api.server a ++ p ++ Api.dtable_uuid t ++ q))
        body [] in
  let srv :=
    fun (n : nat) (query : object) =>
      match Api.rowsOf h (length snt + n) (optionsOf query) with
      | Api.Rejected => RequestFailed
      | Api.Resolved rows => Body rows
      end in
  Api.apiRequestAllItems stringNormalize h fuel method
    (p ++ js "{{dtable_uuid}}" ++ q) body query
    (Api.World (Api.Ctx (Some a) m) snt)
  = (outcome_of (apiRequestAllItems srv fuel query),
     Api.World (Api.Ctx (Some a) m)
       (snt
        ++ List.map optionsOf
             (requests_of (apiRequestAllItems srv fuel query)))).
Proof.
  intros Ht Hk Hu Hs Hsl Hp Hq Hn1 Hn2 optionsOf srv.
  unfold Api.apiRequestAllItems, apiRequestAllItems.
  pose proof (loop_bridge stringNormalize h a t m snt method p q body
                Ht Hk Hu Hs Hsl Hp Hq Hn1 Hn2 fuel 0
                (Obj.set
                   (Obj.set (callerQuery query) startName (VNumber 0%Q))
                   limitName (VNumber (inject_Z (Z.of_N segment))))
                [] [] eq_refl) as E.
  cbn [List.map] in E. rewrite app_nil_r in E. exact E.
Qed.

(** X28.  [apiRequestAllItems] over [apiRequest] is the loop over an
    abstract server.  With the context staged, the paginated fetch sends, for each
    request of the loop about a server that answers request number n with
    what the host answers to the request of that number, the options that
    [apiRequest] builds around the query of that request; its outcome is
    the outcome of the loop, and the context is left as it was.  So what
    is proved of the loop, its pages, its queries and its failures, holds
    of the requests that go out. *)
Theorem apiRequestAllItems_over_apiRequest
    (stringNormalize : jsstring -> jsstring) (h : Api.host)
    (a : Api.IApi) (t : Api.IAppAccessToken)
    (m : option Api.IDtableMetadata) (snt : list object)
    (method p q : jsstring) (body : object) (fuel : nat)
    (query : option object) :
  Api.appAccessToken a = Some t ->
  Api.access_token t <> [] -> Api.dtable_uuid t <> [] ->
  Api.braceFree (Api.server a) = true ->
  N.eqb (hd 0%N p) Api.slash = true ->
  Api.braceFree p = true -> Api.braceFree q = true ->
  stringNormalize (js "Token {{access_token}}") = js "Token {{access_token}}" ->
  stringNormalize (p ++ js "{{dtable_uuid}}" ++ q)
  = p ++ js "{{dtable_uuid}}" ++ q ->
  let optionsOf :=
    fun query : object =>
      apiRequestMergeOptionsWithUri
        (Api.requestOptions (js "Token " ++ Api.access_token t) method body
           query (Api.server a ++ p ++ Api.dtable_uuid t ++ q))
        body [] in
  let srv :=
    fun (n : nat) (query : object) =>
      match Api.rowsOf h (length snt + n) (optionsOf query) with
      | Api.Rejected => RequestFailed
      | Api.Resolved rows => Body rows
      end in
  Api.apiRequestAllItems stringNormalize h fuel method
    (p ++ js "{{dtable_uuid}}" ++ q) body query
    (Api.World (Api.Ctx (Some a) m) snt)
  = (outcome_of (apiRequestAllItems srv fuel query),
     Api.World (Api.Ctx (Some a) m)
       (snt
        ++ List.map optionsOf
             (requests_of (apiRequestAllItems srv fuel query)))).
Proof.
  intros Ht Hk Hu Hs Hsl Hp Hq Hn1 Hn2 optionsOf srv.
  exact (allItems_bridge stringNormalize h a t m snt method p q body fuel
           query Ht Hk Hu Hs Hsl Hp Hq Hn1 Hn2).
Qed.

Lemma apiRequestAllItems_over_apiRequest_witness :
  fst (Api.apiRequestAllItems idNormalize sampleHost 3 (js "GET")
         Api.rowsEndpoint [] None sampleStaged)
  = Ok sampleNews.
Proof.
  pose proof (apiRequestAllItems_over_apiRequest idNormalize sampleHost
                sampleStagedApi sampleToken (Some sampleMetadata) []
                (js "GET") (js "/dtable-server/api/v1/dtables/")
                (js "/rows/") [] 3 None
                eq_refl ltac:(discriminate) ltac:(discriminate)
                eq_refl eq_refl eq_refl eq_refl eq_refl eq_refl) as E.
  change (js "/dtable-server/api/v1/dtables/" ++ js "{{dtable_uuid}}"
          ++ js "/rows/") with Api.rowsEndpoint in E.
  unfold sampleStaged. rewrite E. reflexivity.
Defined.

(** ** The list operation *)

Section ListFacts.

Lemma fst_andThen {A B : Type} (m : Api.action A) (k : A -> Api.action B)
    (w : Api.world) :
  fst (Api.andThen m k w) = (x <- fst (m w) ;; fst (k x (snd (m w)))).
Proof.
  unfold Api.andThen. destruct (m w) as [[x|e|] w1]; reflexivity.
Qed.



End ListFacts.


